(** * GpuScan device code ([src/cuda_gpuscan.h]): a shallow embedding

    The kernel is run by a grid of threads that is cut into work-groups.
    Inside a group the threads meet at barriers ([__syncthreads]) and at the
    collective prefix sum [arithmetic_stairlike_add]; between groups the only
    communication is [atomicAdd] on counters of the shared buffers.

    The embedding keeps that structure:
    - a collective section of a group (prefix sum, the leader's [atomicAdd],
      the barrier) is one atomic transition of the group;
    - code that a thread runs on its own after the last barrier, and that
      reads a counter other groups may still be adding to, is a transition of
      that thread;
    - an execution is a schedule, a list of such transitions, and a
      statement about "every invocation" quantifies over all schedules.

    Unsigned 32-bit arithmetic ([cl_uint]) is written with its wrap-around. *)

From Stdlib Require Import ZArith Lia List Permutation.
From stdpp Require Import base list.
Import ListNotations.
Local Open Scope Z_scope.


(** ** Machine integers *)

Definition u32 (x : Z) : Z := x mod 2 ^ 32.

(** Conversion of [size_t] to [cl_int], as done by the stores into
    [kresults->results]. *)
Definition size_t (x : Z) : Z := x mod 2 ^ 64.
Definition to_cl_int (x : Z) : Z := (x + 2 ^ 31) mod 2 ^ 32 - 2 ^ 31.

(** CUDA's [atomicAdd] on a [cl_uint] cell: the old value is returned, the
    cell receives the wrapped sum. *)
Definition atomicAdd (cell val : Z) : Z * Z := (cell, u32 (cell + val)).

(** ** The prefix-scan primitive *)

(** Modelled from the spec: [arithmetic_stairlike_add] is declared outside
    this file.  Section 4.1 of the specification: within a group, each
    thread receives the exclusive prefix sum of the values of the threads
    before it, and every thread receives the group's total.  The values are
    [cl_uint]. *)
Fixpoint stairlike_offsets (acc : Z) (vals : list Z) : list Z :=
  match vals with
  | [] => []
  | v :: vs => acc :: stairlike_offsets (u32 (acc + v)) vs
  end.

Fixpoint stairlike_total (acc : Z) (vals : list Z) : Z :=
  match vals with
  | [] => acc
  | v :: vs => stairlike_total (u32 (acc + v)) vs
  end.

Definition arithmetic_stairlike_add (vals : list Z) : list Z * Z :=
  (stairlike_offsets 0 vals, stairlike_total 0 vals).

(** ** Error codes *)

Inductive StromError : Type :=
| StromError_Success
| StromError_DataStoreNoSpace
| StromError_Upstream (code : Z).

Definition StromError_eqb (a b : StromError) : bool :=
  match a, b with
  | StromError_Success, StromError_Success => true
  | StromError_DataStoreNoSpace, StromError_DataStoreNoSpace => true
  | StromError_Upstream x, StromError_Upstream y => x =? y
  | _, _ => false
  end.

(** ** The result buffer and [gpuscan_writeback_results] *)

Module Writeback.

(** [kern_resultbuf]: the header fields and [rindex[0..nrooms-1]].  A store
    through [results[i]] with [i] at or past [nrooms] lands outside the
    declared array; C performs it all the same, so such stores are kept,
    in order, in [beyond] and are not part of the array. *)
Record kern_resultbuf : Type := mk_resultbuf {
  nrels   : Z;
  nitems  : Z;
  nrooms  : Z;
  results : list Z;
  beyond  : list (Z * Z)
}.

(** A thread of the grid: its [get_global_id()] and the [result] argument. *)
Record thread : Type := mk_thread {
  gid    : Z;
  result : Z
}.

(** A work-group is the list of its threads in [get_local_id()] order. *)
Definition workgroup : Type := list thread.

(** [kresults->results[i] = v] *)
Definition store_result (k : kern_resultbuf) (i v : Z) : kern_resultbuf :=
  if i <? nrooms k
  then mk_resultbuf (nrels k) (nitems k) (nrooms k)
                    (<[Z.to_nat i := v]> (results k)) (beyond k)
  else mk_resultbuf (nrels k) (nitems k) (nrooms k)
                    (results k) (beyond k ++ [(i, v)]).

(** [binary = (result != 0 ? 1 : 0)] *)
Definition binary (t : thread) : Z := if result t =? 0 then 0 else 1.

(** [result_index = get_global_id() + 1], a [size_t]. *)
Definition result_index (t : thread) : Z := size_t (gid t + 1).

(** Lines 125-128, run by one thread once [base] is visible. *)
Definition write_index (base : Z) (k : kern_resultbuf) (to : thread * Z)
  : kern_resultbuf :=
  let '(t, offset) := to in
  if result t >? 0 then
    store_result k (u32 (base + offset)) (to_cl_int (result_index t))
  else if result t <? 0 then
    store_result k (u32 (base + offset)) (to_cl_int (size_t (- result_index t)))
  else k.

(** One group running [gpuscan_writeback_results]: the scan, the leader's
    [atomicAdd] on [kresults->nitems], and after the barrier the store of
    each thread.  The stores read nothing that another group writes, so the
    group is one transition. *)
Definition gpuscan_writeback_results (k : kern_resultbuf) (g : workgroup)
  : kern_resultbuf :=
  let '(offsets, n) := arithmetic_stairlike_add (map binary g) in
  match g with
  | [] => k
  | _ :: _ =>
    let '(base, nitems') := atomicAdd (nitems k) n in
    let k' := mk_resultbuf (nrels k) nitems' (nrooms k) (results k) (beyond k) in
    fold_left (write_index base) (zip g offsets) k'
  end.

(** The groups of a grid run in some order. *)
Definition run (sched : list workgroup) (k : kern_resultbuf) : kern_resultbuf :=
  fold_left gpuscan_writeback_results sched k.

(** The buffer as the caller prepares it: zeroed, [nrels = 1]. *)
Definition fresh (rooms : Z) : kern_resultbuf :=
  mk_resultbuf 1 0 rooms (replicate (Z.to_nat rooms) 0) [].

(** The entries of [rindex] the header declares valid. *)
Definition recorded (k : kern_resultbuf) : list Z :=
  take (Z.to_nat (nitems k)) (results k).

(** What a thread is expected to leave in the buffer. *)
Definition qualifies (t : thread) : bool := negb (result t =? 0).
Definition signed_index (t : thread) : Z :=
  if result t >? 0 then gid t + 1 else - (gid t + 1).

(** The usual launch: [w] threads per group, thread [i] of the grid has
    global id [i]. *)
Fixpoint chunks {A} (fuel w : nat) (l : list A) : list (list A) :=
  match fuel with
  | O => []
  | S fuel' =>
    match l with
    | [] => []
    | _ => take w l :: chunks fuel' w (drop w l)
    end
  end.

Definition launch (w : nat) (rs : list Z) : list workgroup :=
  chunks (length rs) w
         (imap (fun i r => mk_thread (Z.of_nat i) r) rs).

End Writeback.

(** ** The destination store and the projectors *)

(** [kern_data_store], the header fields the kernel reads and updates. *)
Module kds.
Inductive kds_format : Type := KDS_FORMAT_ROW | KDS_FORMAT_SLOT.

Record t : Type := mk {
  format : kds_format;
  ncols  : Z;
  length : Z;
  nrooms : Z;
  nitems : Z;
  usage  : Z
}.

Definition set_nitems (d : t) (n : Z) : t :=
  mk (format d) (ncols d) (length d) (nrooms d) n (usage d).
Definition set_usage (d : t) (u : Z) : t :=
  mk (format d) (ncols d) (length d) (nrooms d) (nitems d) u.
End kds.

Module GpuScan.

(** A source tuple item: its [t_len] field and the bytes found at its
    address, the [kern_tupitem] header first and the heap tuple after it.
    A byte is an integer below 256. *)
Record kern_tupitem : Type := mk_tupitem {
  t_len      : Z;
  item_bytes : list Z
}.

(** Macros, constants and helpers the file uses and does not define. *)
Record platform : Type := mk_platform {
  (** [offsetof(kern_tupitem, htup)] *)
  htup_offset_of : Z;
  MAXALIGN : Z -> Z;
  STROMALIGN : Z -> Z;
  (** [KERN_DATA_STORE_HEAD_LENGTH(kds)], a function of [kds->ncols];
      [KERN_DATA_STORE_BODY(kds)] starts at that offset. *)
  KERN_DATA_STORE_HEAD_LENGTH : Z -> Z;
  (** [STROM_SET_ERROR(&kcxt->e, code)]: from the code held by the context
      and the one raised to the code held afterwards. *)
  STROM_SET_ERROR : StromError -> StromError -> StromError;
  (** Severity order used when error codes of several threads meet. *)
  worse : StromError -> StromError -> bool
}.

(** Modelled from the spec: [kern_writeback_error_status] is declared
    outside this file.  Section 4.5 of the specification: "a best-effort
    write of the worst (non-success) error code observed by any thread in
    the invocation into a single shared error cell".  A thread holding
    [own] meets the cell holding [cell]. *)
Definition kern_writeback_error_status (P : platform)
    (cell own : StromError) : StromError :=
  match own, cell with
  | StromError_Success, _ => cell
  | _, StromError_Success => own
  | _, _ => if worse P own cell then own else cell
  end.

(** What a thread has written into the destination store.  The writer is
    recorded as (group, local id). *)
Inductive store_event : Type :=
| StoreTuple (writer : nat * nat) (htup_offset : Z) (bytes : list Z)
| StoreIndex (writer : nat * nat) (item_index htup_offset : Z)
| StoreSlot (writer : nat * nat) (dst_index : Z) (src : kern_tupitem).

(** A thread inside a projector: the arguments it was called with, its
    local variables, the values it has passed to
    [arithmetic_stairlike_add] so far, and whether it has returned. *)
Record kern_thread : Type := mk_kthread {
  tupitem_src : option kern_tupitem;
  errcode     : StromError;
  item_index  : Z;
  required    : Z;
  offset      : Z;
  scans       : list Z;
  returned    : bool
}.

(** Where the threads of a group stand, with the [__shared__] variables
    and the group total [count] that are live there. *)
Inductive group_pc : Type :=
| GCount
| GUsage (nitems_prev count : Z)
| GCommit (usage_prev count : Z)
| GReturned.

Record group : Type := mk_group {
  threads : list kern_thread;
  gpc     : group_pc
}.

Section Projectors.
Context (P : platform).

(** Line 189; [tuple_len], [tuplen] name one variable. *)
Definition tuple_len (src : option kern_tupitem) : Z :=
  match src with Some tup => t_len tup | None => 0 end.

(** [tupitem_src != NULL ? 1 : 0] *)
Definition has_row (src : option kern_tupitem) : Z :=
  match src with Some _ => 1 | None => 0 end.

(** Line 216: [required = MAXALIGN(offsetof(kern_tupitem, htup) + tuple_len)] *)
Definition required_of (src : option kern_tupitem) : Z :=
  u32 (MAXALIGN P (htup_offset_of P + tuple_len src)).

(** [STROM_SET_ERROR(&kcxt->e, StromError_DataStoreNoSpace); return;] *)
Definition raise_nospace (th : kern_thread) : kern_thread :=
  mk_kthread (tupitem_src th)
             (STROM_SET_ERROR P (errcode th) StromError_DataStoreNoSpace)
             (item_index th) (required th) (offset th) (scans th) true.

Definition do_return (th : kern_thread) : kern_thread :=
  mk_kthread (tupitem_src th) (errcode th)
             (item_index th) (required th) (offset th) (scans th) true.

(** The leader's reservation, lines 197-203, 218-224 and 280-286: the
    counter is touched only when the group total is positive. *)
Definition reserve (cell count : Z) : Z * Z :=
  if count >? 0 then atomicAdd cell count else (0, cell).

(** Row format, lines 196-211: first scan, reservation of index slots,
    check against [nrooms]. *)
Definition row_count_thread (nitems_prev : Z) (fails : bool)
    (th : kern_thread) (off : Z) : kern_thread :=
  let th' := mk_kthread (tupitem_src th) (errcode th)
                        (u32 (nitems_prev + off)) (required th) off
                        (scans th ++ [has_row (tupitem_src th)]) false in
  if fails then raise_nospace th' else th'.

Definition row_count (d : kds.t) (g : group) : kds.t * group :=
  let '(offsets, count) :=
    arithmetic_stairlike_add (map (fun th => has_row (tupitem_src th)) (threads g)) in
  let '(nitems_prev, nitems') := reserve (kds.nitems d) count in
  let fails := u32 (nitems_prev + count) >? kds.nrooms d in
  (kds.set_nitems d nitems',
   mk_group (zip_with (row_count_thread nitems_prev fails) (threads g) offsets)
            (if fails then GReturned else GUsage nitems_prev count)).

(** Row format, lines 216-225: second scan and reservation of bytes. *)
Definition row_usage_thread (th : kern_thread) (off : Z) : kern_thread :=
  mk_kthread (tupitem_src th) (errcode th) (item_index th)
             (required_of (tupitem_src th)) off
             (scans th ++ [required_of (tupitem_src th)]) false.

Definition row_usage (d : kds.t) (g : group) : kds.t * group :=
  let '(offsets, count) :=
    arithmetic_stairlike_add (map (fun th => required_of (tupitem_src th)) (threads g)) in
  let '(usage_prev, usage') := reserve (kds.usage d) count in
  (kds.set_usage d usage',
   mk_group (zip_with row_usage_thread (threads g) offsets)
            (GCommit usage_prev count)).

(** Row format, the check of lines 227-229.  The sum is formed in [size_t]
    from 32-bit operands and does not wrap. *)
Definition row_no_space (d : kds.t) (usage_prev count : Z) : bool :=
  KERN_DATA_STORE_HEAD_LENGTH P (kds.ncols d)
  + STROMALIGN P (4 * kds.nitems d) + usage_prev + count >? kds.length d.

(** Line 234 *)
Definition htup_offset_at (d : kds.t) (usage_prev : Z) (th : kern_thread) : Z :=
  u32 (kds.length d - u32 (usage_prev + offset th + required th)).

(** Row format, lines 227-255, run by one thread on its own: it reads
    [kds_dst->nitems] as it stands when the thread gets there. *)
Definition row_commit (who : nat * nat) (d : kds.t) (usage_prev count : Z)
    (th : kern_thread) : list store_event * kern_thread :=
  if row_no_space d usage_prev count then ([], raise_nospace th)
  else
    let htup_offset := htup_offset_at d usage_prev th in
    match tupitem_src th with
    | Some src =>
      ([StoreTuple who htup_offset
                   (take (Z.to_nat (htup_offset_of P + tuple_len (tupitem_src th)))
                         (item_bytes src));
        StoreIndex who (item_index th) htup_offset],
       do_return th)
    | None => ([], do_return th)
    end.

(** Slot format, lines 279-317, without [GPUSCAN_DEVICE_PROJECTION].
    Nothing is read after the barrier that another group writes, so the
    group is one transition. *)
Definition slot_thread (base count nrooms : Z)
    (th : kern_thread) (off : Z) : kern_thread :=
  let th' := mk_kthread (tupitem_src th) (errcode th) (item_index th)
                        (required th) off
                        (scans th ++ [has_row (tupitem_src th)]) false in
  if u32 (base + count) >? nrooms then raise_nospace th' else do_return th'.

(** What the thread with local id [l] writes: its row, deformed into the
    slot [dst_index = base + offset]. *)
Definition slot_store (who : nat) (base count nrooms : Z)
    (l : nat) (tho : kern_thread * Z) : list store_event :=
  if u32 (base + count) >? nrooms then []
  else
    match tupitem_src (fst tho) with
    | Some src => [StoreSlot (who, l) (u32 (base + snd tho)) src]
    | None => []
    end.

Definition slot_project (who : nat) (d : kds.t) (g : group)
  : kds.t * list store_event * group :=
  let '(offsets, count) :=
    arithmetic_stairlike_add (map (fun th => has_row (tupitem_src th)) (threads g)) in
  let '(base, nitems') := reserve (kds.nitems d) count in
  (kds.set_nitems d nitems',
   concat (imap (slot_store who base count (kds.nrooms d)) (zip (threads g) offsets)),
   mk_group (zip_with (slot_thread base count (kds.nrooms d)) (threads g) offsets)
            GReturned).

(** *** The kernel entry point [gpuscan_qual] *)

(** Lines 331-347.  [gpuscan_qual_eval] is generated elsewhere: it is given
    here by its result and by the error code it leaves in [kcxt.e], which
    [INIT_KERNEL_CONTEXT] has just cleared.  The result is the [tupitem] the
    thread goes on with and its [kcxt.e.errcode]. *)
Definition gpuscan_qual_tupitem (kds_src : list kern_tupitem)
    (gpuscan_qual_eval : Z -> kern_tupitem -> bool * StromError)
    (kds_index : Z) : option kern_tupitem * StromError :=
  if kds_index <? Z.of_nat (List.length kds_src) then
    match kds_src !! Z.to_nat kds_index with
    | Some tupitem =>
      let '(visible, e) := gpuscan_qual_eval kds_index tupitem in
      if negb visible then (None, e)
      else if negb (StromError_eqb e StromError_Success) then (None, e)
      else (Some tupitem, e)
    | None => (None, StromError_Success)
    end
  else (None, StromError_Success).

(** The state of an invocation: the destination store and what has been
    written into it, the groups, the shared error cell
    ([kgpuscan->errcode]) and the result buffer that sits behind the
    parameter buffer. *)
Record state : Type := mk_state {
  kds_dst  : kds.t;
  stores   : list store_event;
  groups   : list group;
  errcell  : StromError;
  kresults : Writeback.kern_resultbuf
}.

(** A thread that comes back from its projector runs line 367. *)
Definition writeback_errors (cell : StromError) (ths : list kern_thread)
  : StromError :=
  fold_left (fun c th => kern_writeback_error_status P c (errcode th)) ths cell.

(** A transition is either the next collective section of a group or, in
    the row format after the last barrier, lines 227-255 of one thread. *)
Inductive action : Type :=
| Collective (g : nat)
| Commit (g l : nat).

Definition step (s : state) (a : action) : option state :=
  match a with
  | Collective gi =>
    match groups s !! gi with
    | None => None
    | Some g =>
      match kds.format (kds_dst s), gpc g with
      | kds.KDS_FORMAT_ROW, GCount =>
        let '(d', g') := row_count (kds_dst s) g in
        Some (mk_state d' (stores s) (<[gi := g']> (groups s))
                (match gpc g' with
                 | GReturned => writeback_errors (errcell s) (threads g')
                 | _ => errcell s
                 end)
                (kresults s))
      | kds.KDS_FORMAT_ROW, GUsage _ _ =>
        let '(d', g') := row_usage (kds_dst s) g in
        Some (mk_state d' (stores s) (<[gi := g']> (groups s))
                (errcell s) (kresults s))
      | kds.KDS_FORMAT_SLOT, GCount =>
        let '(d', evs, g') := slot_project gi (kds_dst s) g in
        Some (mk_state d' (stores s ++ evs) (<[gi := g']> (groups s))
                (writeback_errors (errcell s) (threads g'))
                (kresults s))
      | _, _ => None
      end
    end
  | Commit gi l =>
    match groups s !! gi with
    | None => None
    | Some g =>
      match gpc g, threads g !! l with
      | GCommit usage_prev count, Some th =>
        if returned th then None
        else
          let '(evs, th') := row_commit (gi, l) (kds_dst s) usage_prev count th in
          Some (mk_state (kds_dst s) (stores s ++ evs)
                  (<[gi := mk_group (<[l := th']> (threads g)) (gpc g)]> (groups s))
                  (kern_writeback_error_status P (errcell s) (errcode th'))
                  (kresults s))
      | _, _ => None
      end
    end
  end.

Fixpoint exec (sched : list action) (s : state) : option state :=
  match sched with
  | [] => Some s
  | a :: sched' =>
    match step s a with
    | Some s' => exec sched' s'
    | None => None
    end
  end.

Definition finished (s : state) : bool :=
  forallb (fun g => forallb returned (threads g)) (groups s).

(** The state a schedule leads to (the starting state when the schedule
    cannot be run). *)
Definition outcome (sched : list action) (s : state) : state :=
  match exec sched s with Some s' => s' | None => s end.

(** The invocation: every thread of the grid enters [gpuscan_qual] with
    its [get_global_id()], settles its [tupitem] and calls the projector
    that [kds_dst->format] selects. *)
Definition enter (kds_src : list kern_tupitem)
    (gpuscan_qual_eval : Z -> kern_tupitem -> bool * StromError)
    (kds_index : Z) : kern_thread :=
  let '(tupitem, e) := gpuscan_qual_tupitem kds_src gpuscan_qual_eval kds_index in
  mk_kthread tupitem e 0 0 0 [] false.

Definition gpuscan_qual (kds_src : list kern_tupitem)
    (gpuscan_qual_eval : Z -> kern_tupitem -> bool * StromError)
    (d : kds.t) (cell : StromError) (k : Writeback.kern_resultbuf)
    (grid : list (list Z)) : state :=
  mk_state d []
           (map (fun ids => mk_group (map (enter kds_src gpuscan_qual_eval) ids) GCount) grid)
           cell k.

End Projectors.

End GpuScan.

(** ** Concrete instances used in the examples *)

Module Sample.
Import GpuScan.

(** The usual values: an 8-byte item header, 8-byte [MAXALIGN], 16-byte
    [STROMALIGN], a store header of 64 bytes and 16 per column; the first
    error raised in a context is kept; [DataStoreNoSpace] is the least
    severe error. *)
Definition align (a x : Z) : Z := (x + (a - 1)) / a * a.

Definition set_error (old new : StromError) : StromError :=
  match old with StromError_Success => new | _ => old end.

Definition severity (e : StromError) : Z :=
  match e with
  | StromError_Success => 0
  | StromError_DataStoreNoSpace => 1
  | StromError_Upstream c => 2 + Z.abs c
  end.

Definition platform : GpuScan.platform :=
  mk_platform 8 (align 8) (align 16) (fun ncols => align 16 (64 + 16 * ncols))
              set_error (fun a b => severity b <? severity a).

(** Groups of [w] threads with consecutive global ids. *)
Definition grid_of (w ngroups : nat) : list (list Z) :=
  map (fun k => map (fun l => Z.of_nat (k * w + l)) (seq 0 w)) (seq 0 ngroups).

(** A source item of [n] heap-tuple bytes, all equal to [b]. *)
Definition item (n b : Z) : kern_tupitem :=
  mk_tupitem n (replicate (Z.to_nat (8 + n)) b).

Definition pass_all (i : Z) (tup : kern_tupitem) : bool * StromError :=
  (true, StromError_Success).

(** Every group in turn, its threads in order. *)
Definition in_order (w ngroups : nat) : list action :=
  concat (map (fun g => Collective g :: Collective g
                        :: map (Commit g) (seq 0 w)) (seq 0 ngroups)).

(** The last group first. *)
Definition in_reverse (w ngroups : nat) : list action :=
  concat (map (fun g => Collective g :: Collective g
                        :: map (Commit g) (seq 0 w)) (rev (seq 0 ngroups))).

(** Four rows of 24 heap-tuple bytes and a predicate that passes them. *)
Definition src4 : list kern_tupitem :=
  [item 24 1; item 24 2; item 24 3; item 24 4].

Definition dst_row : kds.t := kds.mk kds.KDS_FORMAT_ROW 2 4096 8 0 0.

(** One group of four threads over [src4], and two groups of two. *)
Definition one_group : state :=
  gpuscan_qual src4 pass_all dst_row StromError_Success
               (Writeback.fresh 4) (grid_of 4 1).

Definition two_groups : state :=
  gpuscan_qual src4 pass_all dst_row StromError_Success
               (Writeback.fresh 4) (grid_of 2 2).

(** The group and the thread found at a position of a state. *)
Definition group_at (s : state) (gi : nat) : group :=
  nth gi (groups s) (mk_group [] GReturned).

Definition thread_at (s : state) (gi l : nat) : kern_thread :=
  nth l (threads (group_at s gi))
      (mk_kthread None StromError_Success 0 0 0 [] true).

(** A tight arena: a group of four rows and a group of one row, 208 bytes. *)
Definition tight : state :=
  gpuscan_qual (src4 ++ [item 24 5]) pass_all
               (kds.mk kds.KDS_FORMAT_ROW 0 208 8 0 0)
               StromError_Success (Writeback.fresh 5) [[0; 1; 2; 3]; [4]].

Definition tight_schedule : list action :=
  [Collective 0; Collective 0; Commit 0 0;
   Collective 1; Commit 0 1; Commit 0 2; Commit 0 3;
   Collective 1; Commit 1 0].

(** One row on which the predicate reports an error. *)
Definition eval_error (i : Z) (tup : kern_tupitem) : bool * StromError :=
  (true, StromError_Upstream 7).

Definition one_error : state :=
  gpuscan_qual [item 24 1] eval_error dst_row StromError_Success
               (Writeback.fresh 1) [[0]].

End Sample.

(** ** Auxiliary views used by the proofs about the result buffer *)

Module WritebackView.
Import Writeback.

(** The value a qualifying thread stores. *)
Definition stored_value (t : thread) : Z :=
  if result t >? 0 then to_cl_int (result_index t)
  else to_cl_int (size_t (- result_index t)).

Definition stored (g : workgroup) : list Z :=
  map stored_value (List.filter qualifies g).

(** The buffer that holds the sequence [slots] from index 0 on: the part
    that fits in the array, and the part stored past its end. *)
Definition arr (rooms : Z) (slots : list Z) : list Z :=
  take (Z.to_nat rooms) slots
  ++ replicate (Z.to_nat rooms - length slots)%nat 0.

Definition over (rooms : Z) (slots : list Z) : list (Z * Z) :=
  imap (fun i v => (rooms + Z.of_nat i, v)) (drop (Z.to_nat rooms) slots).

Definition image (rooms n : Z) (slots : list Z) : kern_resultbuf :=
  mk_resultbuf 1 n rooms (arr rooms slots) (over rooms slots).

End WritebackView.

(** ** Auxiliary views used by the proofs about the invocation *)

Module GpuScanView.
Import GpuScan.

Section View.
Context (P : platform).

(** The transitions of [step], one constructor per case. *)
Inductive transition (s : state) : state -> Prop :=
| T_row_count gi g d' g' :
    groups s !! gi = Some g ->
    kds.format (kds_dst s) = kds.KDS_FORMAT_ROW ->
    gpc g = GCount ->
    row_count P (kds_dst s) g = (d', g') ->
    transition s
      (mk_state d' (stores s) (<[gi := g']> (groups s))
         (match gpc g' with
          | GReturned => writeback_errors P (errcell s) (threads g')
          | _ => errcell s
          end)
         (kresults s))
| T_row_usage gi g nitems_prev count d' g' :
    groups s !! gi = Some g ->
    kds.format (kds_dst s) = kds.KDS_FORMAT_ROW ->
    gpc g = GUsage nitems_prev count ->
    row_usage P (kds_dst s) g = (d', g') ->
    transition s
      (mk_state d' (stores s) (<[gi := g']> (groups s))
         (errcell s) (kresults s))
| T_slot gi g d' evs g' :
    groups s !! gi = Some g ->
    kds.format (kds_dst s) = kds.KDS_FORMAT_SLOT ->
    gpc g = GCount ->
    slot_project P gi (kds_dst s) g = (d', evs, g') ->
    transition s
      (mk_state d' (stores s ++ evs) (<[gi := g']> (groups s))
         (writeback_errors P (errcell s) (threads g'))
         (kresults s))
| T_commit gi g l th usage_prev count evs th' :
    groups s !! gi = Some g ->
    gpc g = GCommit usage_prev count ->
    threads g !! l = Some th ->
    returned th = false ->
    row_commit P (gi, l) (kds_dst s) usage_prev count th = (evs, th') ->
    transition s
      (mk_state (kds_dst s) (stores s ++ evs)
         (<[gi := mk_group (<[l := th']> (threads g)) (gpc g)]> (groups s))
         (kern_writeback_error_status P (errcell s) (errcode th'))
         (kresults s)).

(** States an invocation can be in. *)
Definition reachable (s0 s : state) : Prop :=
  exists sched, exec P sched s0 = Some s.

(** Sums over the grid: the rows a group holds, the bytes its threads ask
    for in the second scan, and the totals over the groups that have
    made the respective reservation. *)
Definition zsum (l : list Z) : Z := fold_right Z.add 0 l.

Definition rows_of (g : group) : Z :=
  zsum (map (fun th => has_row (tupitem_src th)) (threads g)).

Definition bytes_of (g : group) : Z :=
  zsum (map (fun th => required_of P (tupitem_src th)) (threads g)).

Definition counted_rows (g : group) : Z :=
  match gpc g with GCount => 0 | _ => rows_of g end.

Definition reserved_bytes (g : group) : Z :=
  match gpc g with GCommit _ _ => bytes_of g | _ => 0 end.

Definition counted (gs : list group) : Z := zsum (map counted_rows gs).
Definition reserved (gs : list group) : Z := zsum (map reserved_bytes gs).
Definition total_rows (gs : list group) : Z := zsum (map rows_of gs).
Definition total_bytes (gs : list group) : Z := zsum (map bytes_of gs).

(** A thread that took the exit of line 208/231/290. *)
Definition raised_nospace (before after : kern_thread) : Prop :=
  returned after = true /\
  errcode after
  = STROM_SET_ERROR P (errcode before) StromError_DataStoreNoSpace.

(** How a thread relates to the thread that entered the projector, given
    where its group stands. *)
Definition thread_rel (pc : group_pc) (th0 th : kern_thread) : Prop :=
  tupitem_src th = tupitem_src th0 /\
  match pc with
  | GCount => th = th0
  | GUsage _ _ =>
    returned th = false /\ errcode th = errcode th0 /\
    scans th = scans th0 ++ [has_row (tupitem_src th0)]
  | GCommit _ _ =>
    scans th = scans th0 ++ [has_row (tupitem_src th0);
                             required_of P (tupitem_src th0)] /\
    required th = required_of P (tupitem_src th0) /\
    (errcode th = errcode th0 \/
     (returned th = true /\ raised_nospace th0 th))
  | GReturned =>
    returned th = true /\
    scans th = scans th0 ++ [has_row (tupitem_src th0)] /\
    (errcode th = errcode th0 \/ raised_nospace th0 th)
  end.

Definition group_rel (g0 g : group) : Prop :=
  Forall2 (thread_rel (gpc g)) (threads g0) (threads g).

(** What no transition changes. *)
Definition same_frame (s0 s : state) : Prop :=
  kds.format (kds_dst s) = kds.format (kds_dst s0) /\
  kds.ncols (kds_dst s) = kds.ncols (kds_dst s0) /\
  kds.length (kds_dst s) = kds.length (kds_dst s0) /\
  kds.nrooms (kds_dst s) = kds.nrooms (kds_dst s0) /\
  kresults s = kresults s0.

Definition structured (s0 s : state) : Prop :=
  same_frame s0 s /\ Forall2 group_rel (groups s0) (groups s).

(** Every group is still at the entry of its projector. *)
Definition at_entry (s : state) : Prop :=
  Forall (fun g => gpc g = GCount) (groups s).

(** A group that left through the no-space exit of its first check: all
    its threads raised [DataStoreNoSpace], and it held a row. *)
Definition overflowed (s0 s : state) : Prop :=
  exists gi g0 g,
    groups s0 !! gi = Some g0 /\ groups s !! gi = Some g /\
    gpc g = GReturned /\
    (exists th, In th (threads g0) /\ tupitem_src th <> None) /\
    Forall2 raised_nospace (threads g0) (threads g).

(** *** The arena of a row-format destination *)

(** Byte offset, from the start of the store, at which the index entry
    [tupitem_idx[i]] ends; the index array begins at
    [KERN_DATA_STORE_BODY]. *)
Definition index_end (d : kds.t) (i : Z) : Z :=
  KERN_DATA_STORE_HEAD_LENGTH P (kds.ncols d) + 4 * (i + 1).

(** No committed index entry reaches into committed tuple bytes. *)
Definition arena_apart (d : kds.t) (evs : list store_event) : Prop :=
  forall w i o w' o' bytes,
    In (StoreIndex w i o) evs -> In (StoreTuple w' o' bytes) evs ->
    0 <= i /\ index_end d i <= o'.

(** The thread [who] has written nothing. *)
Definition writer_of (ev : store_event) : nat * nat :=
  match ev with
  | StoreTuple w _ _ | StoreIndex w _ _ | StoreSlot w _ _ => w
  end.

Definition wrote_nothing (who : nat * nat) (evs : list store_event) : Prop :=
  forall ev, In ev evs -> writer_of ev <> who.

(** Whatever is in the destination was written by a thread that holds a
    row and has returned. *)
Definition writers_returned (s : state) : Prop :=
  forall ev, In ev (stores s) ->
    exists g th,
      groups s !! fst (writer_of ev) = Some g /\
      threads g !! snd (writer_of ev) = Some th /\
      returned th = true /\ tupitem_src th <> None.

(** The state in which an invocation starts. *)
Definition fresh_entry (s0 : state) : Prop :=
  at_entry s0 /\ stores s0 = [] /\
  forall g th, In g (groups s0) -> In th (threads g) ->
               returned th = false /\ scans th = [].

(** What the threads of a group know about the counters. *)
Definition thread_bounds (d : kds.t) (g : group) (th : kern_thread) : Prop :=
  match gpc g with
  | GUsage _ _ =>
    tupitem_src th <> None ->
    0 <= item_index th /\ item_index th + 1 <= kds.nitems d
  | GCommit up cnt =>
    (tupitem_src th <> None ->
     0 <= item_index th /\ item_index th + 1 <= kds.nitems d) /\
    0 <= up /\ 0 <= offset th /\ 0 <= required th /\
    offset th + required th <= cnt /\
    up + cnt <= kds.usage d
  | _ => True
  end.

(** What justified a committed tuple: the item count its writer read and
    the end of its group's byte reservation. *)
Definition tuple_guard (d : kds.t) (gs : list group) (o : Z) : Prop :=
  exists nread ulim,
    KERN_DATA_STORE_HEAD_LENGTH P (kds.ncols d) + 4 * nread + ulim
      <= kds.length d /\
    kds.length d - ulim <= o /\
    ulim <= kds.usage d /\
    forall gi g up cnt,
      gs !! gi = Some g -> gpc g = GCommit up cnt ->
      (forall th, In th (threads g) -> tupitem_src th <> None ->
                  item_index th + 1 <= nread)
      \/ ulim <= up.

Record arena_inv (s : state) : Prop := mk_arena_inv {
  ai_nitems : kds.nitems (kds_dst s) = counted (groups s);
  ai_usage : kds.usage (kds_dst s) = reserved (groups s);
  ai_threads : forall gi g l th,
      groups s !! gi = Some g -> threads g !! l = Some th ->
      thread_bounds (kds_dst s) g th;
  ai_index : forall w i o,
      In (StoreIndex w i o) (stores s) ->
      0 <= i /\ i + 1 <= kds.nitems (kds_dst s);
  ai_tuple : forall w o b,
      In (StoreTuple w o b) (stores s) ->
      tuple_guard (kds_dst s) (groups s) o;
  ai_apart : arena_apart (kds_dst s) (stores s)
}.

(** The assumptions under which no counter of the row format wraps. *)
Record arena_ready (s0 : state) : Prop := mk_arena_ready {
  ar_format : kds.format (kds_dst s0) = kds.KDS_FORMAT_ROW;
  ar_nitems : kds.nitems (kds_dst s0) = 0;
  ar_usage : kds.usage (kds_dst s0) = 0;
  ar_length : 0 <= kds.length (kds_dst s0) < 2 ^ 32;
  ar_head : 0 <= KERN_DATA_STORE_HEAD_LENGTH P (kds.ncols (kds_dst s0));
  ar_align : forall x, 0 <= x -> x <= STROMALIGN P x;
  ar_rows : total_rows (groups s0) < 2 ^ 32;
  ar_bytes : total_bytes (groups s0) < 2 ^ 32;
  ar_required : forall g th,
      In g (groups s0) -> In th (threads g) ->
      tupitem_src th <> None -> 0 < required_of P (tupitem_src th);
  ar_stores : stores s0 = []
}.

(** *** Rows that survive the row-format projector *)

(** A thread that holds a row, has returned and has a clean context has
    copied its source item to the offset it reserved and has stored that
    offset in its index slot. *)
Definition survivors_written (s : state) : Prop :=
  forall gi g l th src,
    groups s !! gi = Some g -> threads g !! l = Some th ->
    tupitem_src th = Some src -> returned th = true ->
    errcode th = StromError_Success ->
    exists up cnt,
      gpc g = GCommit up cnt /\
      In (StoreTuple (gi, l) (htup_offset_at (kds_dst s) up th)
            (take (Z.to_nat (htup_offset_of P + t_len src)) (item_bytes src)))
         (stores s) /\
      In (StoreIndex (gi, l) (item_index th) (htup_offset_at (kds_dst s) up th))
         (stores s).

(** Threads that enter with a row enter with a clean context. *)
Definition clean_rows (s0 : state) : Prop :=
  forall g th, In g (groups s0) -> In th (threads g) ->
               tupitem_src th <> None -> errcode th = StromError_Success.

(** *** The bytes of the arena *)

(** Byte [j] of a [cl_uint], least significant first. *)
Definition le_byte (v j : Z) : Z := (v / 256 ^ j) mod 256.

(** The byte an event leaves at the offset [a] of the store, if any. *)
Definition event_byte (head : Z) (ev : store_event) (a : Z) : option Z :=
  match ev with
  | StoreTuple _ o bytes =>
    if (o <=? a) && (a <? o + Z.of_nat (List.length bytes))
    then bytes !! Z.to_nat (a - o) else None
  | StoreIndex _ i o =>
    if (head + 4 * i <=? a) && (a <? head + 4 * i + 4)
    then Some (le_byte o (a - (head + 4 * i))) else None
  | StoreSlot _ _ _ => None
  end.

(** The byte found at offset [a] once the events have been performed in
    order: the last event that covers [a] decides. *)
Fixpoint arena_read (head : Z) (evs : list store_event) (a : Z) : option Z :=
  match evs with
  | [] => None
  | ev :: rest =>
    match arena_read head rest a with
    | Some v => Some v
    | None => event_byte head ev a
    end
  end.

(** Every tuple in the arena sits where its writer's reservation says. *)
Definition tuples_placed (s : state) : Prop :=
  forall w o b, In (StoreTuple w o b) (stores s) ->
    exists g th src up cnt,
      groups s !! fst w = Some g /\ threads g !! snd w = Some th /\
      gpc g = GCommit up cnt /\ tupitem_src th = Some src /\
      returned th = true /\
      o = kds.length (kds_dst s) - (up + offset th + required th) /\
      b = take (Z.to_nat (htup_offset_of P + t_len src)) (item_bytes src).

(** The byte reservations of different groups, and of different threads
    of a group, do not overlap. *)
Definition reservations_apart (s : state) : Prop :=
  (forall gi1 gi2 g1 g2 up1 cnt1 up2 cnt2,
     gi1 <> gi2 ->
     groups s !! gi1 = Some g1 -> groups s !! gi2 = Some g2 ->
     gpc g1 = GCommit up1 cnt1 -> gpc g2 = GCommit up2 cnt2 ->
     up1 + cnt1 <= up2 \/ up2 + cnt2 <= up1) /\
  (forall gi g up cnt l1 l2 th1 th2,
     groups s !! gi = Some g -> gpc g = GCommit up cnt ->
     (l1 < l2)%nat ->
     threads g !! l1 = Some th1 -> threads g !! l2 = Some th2 ->
     offset th1 + required th1 <= offset th2) /\
  (forall gi g up cnt,
     groups s !! gi = Some g -> gpc g = GCommit up cnt ->
     0 <= up /\ 0 <= cnt /\ up + cnt <= kds.usage (kds_dst s)).

(** The copy of a row fits in the bytes reserved for it. *)
Definition copies_fit (s0 : state) : Prop :=
  forall g th src, In g (groups s0) -> In th (threads g) ->
    tupitem_src th = Some src ->
    0 <= htup_offset_of P + t_len src <= required_of P (Some src).

(** *** Completion and the error cell *)

(** Steps a group still has to take, at most. *)
Definition pending_of (g : group) : Z :=
  match gpc g with
  | GCount => Z.of_nat (List.length (threads g)) + 2
  | GUsage _ _ => Z.of_nat (List.length (threads g)) + 1
  | GCommit _ _ =>
    zsum (map (fun th => if returned th then 0 else 1) (threads g))
  | GReturned => 0
  end.

Definition pending (s : state) : Z := zsum (map pending_of (groups s)).

(** In the slot format a group is either at the entry or done. *)
Definition slot_pcs (s : state) : Prop :=
  kds.format (kds_dst s) = kds.KDS_FORMAT_SLOT ->
  forall g, In g (groups s) -> gpc g = GCount \/ gpc g = GReturned.

(** The codes held by the threads that have returned. *)
Definition returned_codes (s : state) (e : StromError) : Prop :=
  exists gi g l th,
    groups s !! gi = Some g /\ threads g !! l = Some th /\
    returned th = true /\ errcode th = e.

(** [c] is at least as bad as every code of the set [S]. *)
Definition covers (c : StromError) (S : StromError -> Prop) : Prop :=
  forall e, S e ->
    worse P e c = false /\
    (e <> StromError_Success -> c <> StromError_Success).

(** The error cell against the threads that have returned: no thread holds
    a worse code, the cell is not clean once a thread holds an error, and
    the cell holds nothing but a code some thread holds. *)
Definition cell_is_worst (s : state) : Prop :=
  covers (errcell s) (returned_codes s) /\
  (errcell s = StromError_Success \/ returned_codes s (errcell s)).

(** What is assumed of the severity order. *)
Record severity_order : Prop := mk_severity_order {
  worse_irrefl : forall e, worse P e e = false;
  worse_trans : forall a b c,
      worse P a b = true -> worse P b c = true -> worse P a c = true;
  worse_success : forall c, worse P StromError_Success c = false
}.

End View.
End GpuScanView.

(** ** The scenarios of the specification *)

Module Scenario.
Import GpuScan.

(** A destination with two rooms, four rows, one group of four threads. *)
Definition four_rows (fmt : kds.kds_format) (t1 t2 t3 t4 : kern_tupitem)
    (eval : Z -> kern_tupitem -> bool * StromError)
    (ncols len : Z) (k : Writeback.kern_resultbuf) : state :=
  gpuscan_qual [t1; t2; t3; t4] eval (kds.mk fmt ncols len 2 0 0)
               StromError_Success k [[0; 1; 2; 3]].

(** Scenario B: the destination is in row format. *)
Definition B := four_rows kds.KDS_FORMAT_ROW.

End Scenario.

(** ** The layout of [kern_gpuscan] and its DMA windows (lines 63-89) *)

Module Layout.
Import GpuScan.

(** What the macros read of a [kern_gpuscan]: [kparams.length] and, in the
    result buffer found behind the parameter buffer, [nrels] and
    [nrooms]. *)
Record kern_gpuscan : Type := mk_gpuscan {
  kparams_length : Z;
  kresults : Writeback.kern_resultbuf
}.

Section Macros.
Context (P : platform).

(** [kern_resultbuf] is declared elsewhere: [offsetof(kern_resultbuf,
    results[0])] and the size of an entry of [results] are taken as
    given. *)
Variables (results_offset sizeof_result : Z).

(** [offsetof(kern_resultbuf, results[n])] *)
Definition offsetof_results (n : Z) : Z := results_offset + sizeof_result * n.

(** [offsetof(kern_gpuscan, kparams)]: [kparams] is the first member. *)
Definition offsetof_kparams : Z := 0.

Definition KERN_GPUSCAN_PARAMBUF_LENGTH (kg : kern_gpuscan) : Z :=
  STROMALIGN P (kparams_length kg).

(** The byte offset, from [&kgpuscan->kparams], of the address that
    [KERN_GPUSCAN_RESULTBUF] yields. *)
Definition KERN_GPUSCAN_RESULTBUF (kg : kern_gpuscan) : Z :=
  STROMALIGN P (kparams_length kg).

(** [nrels] and [nrooms] are [cl_uint], like the [nitems] the kernel adds a
    [cl_uint] to: their product wraps. *)
Definition KERN_GPUSCAN_RESULTBUF_LENGTH (kg : kern_gpuscan) : Z :=
  STROMALIGN P
    (offsetof_results
       (u32 (Writeback.nrels (kresults kg) * Writeback.nrooms (kresults kg)))).

Definition KERN_GPUSCAN_LENGTH (kg : kern_gpuscan) : Z :=
  offsetof_kparams
  + KERN_GPUSCAN_PARAMBUF_LENGTH kg
  + KERN_GPUSCAN_RESULTBUF_LENGTH kg.

Definition KERN_GPUSCAN_DMASEND_OFFSET (kg : kern_gpuscan) : Z := 0.

Definition KERN_GPUSCAN_DMASEND_LENGTH (kg : kern_gpuscan) : Z :=
  KERN_GPUSCAN_PARAMBUF_LENGTH kg + offsetof_results 0.

Definition KERN_GPUSCAN_DMARECV_OFFSET (kg : kern_gpuscan) : Z :=
  KERN_GPUSCAN_PARAMBUF_LENGTH kg.

Definition KERN_GPUSCAN_DMARECV_LENGTH (kg : kern_gpuscan) : Z :=
  KERN_GPUSCAN_RESULTBUF_LENGTH kg.

End Macros.
End Layout.

(** ** Further views of the invocation *)

Module ProjectionView.
Import GpuScan GpuScanView.

Section View.
Context (P : platform).

(** What an event carries of the row [src]: the copy of lines 251-252,
    or the row handed to [deform_kern_heaptuple]. *)
Definition payload_of (ev : store_event) (src : kern_tupitem) : Prop :=
  match ev with
  | StoreTuple _ _ b =>
    b = take (Z.to_nat (htup_offset_of P + t_len src)) (item_bytes src)
  | StoreIndex _ _ _ => True
  | StoreSlot _ _ x => x = src
  end.

(** Whatever is in the destination comes from the row its writer entered
    the projector with. *)
Definition stores_from_rows (s0 s : state) : Prop :=
  forall ev, In ev (stores s) ->
    exists g0 th0 src,
      groups s0 !! fst (writer_of ev) = Some g0 /\
      threads g0 !! snd (writer_of ev) = Some th0 /\
      tupitem_src th0 = Some src /\ payload_of ev src.

(** The rows the threads before local id [l] hold. *)
Definition rows_before (g : group) (l : nat) : Z :=
  zsum (map (fun th => has_row (tupitem_src th)) (take l (threads g))).

(** *** The slot format *)

(** The assumptions under which the item counter does not wrap. *)
Definition counter_ready (s0 : state) : Prop :=
  0 <= kds.nitems (kds_dst s0) /\
  kds.nitems (kds_dst s0) + total_rows (groups s0) < 2 ^ 32.

Record slot_inv (s0 s : state) : Prop := mk_slot_inv {
  si_nitems :
    kds.nitems (kds_dst s) = kds.nitems (kds_dst s0) + counted (groups s);
  si_bounds : forall w i x,
      In (StoreSlot w i x) (stores s) ->
      kds.nitems (kds_dst s0) <= i /\
      i + 1 <= kds.nitems (kds_dst s) /\
      i + 1 <= kds.nrooms (kds_dst s0);
  si_apart : forall w i x w' x',
      In (StoreSlot w i x) (stores s) ->
      In (StoreSlot w' i x') (stores s) -> w = w'
}.

(** No thread has had its error code changed by a projector. *)
Definition codes_kept (s0 s : state) : Prop :=
  forall gi g l th,
    groups s !! gi = Some g -> threads g !! l = Some th ->
    exists g0 th0,
      groups s0 !! gi = Some g0 /\ threads g0 !! l = Some th0 /\
      errcode th = errcode th0.

(** Every thread that has returned with a row has stored it in a slot. *)
Definition slots_filled (s : state) : Prop :=
  forall gi g l th x,
    groups s !! gi = Some g -> threads g !! l = Some th ->
    returned th = true -> tupitem_src th = Some x ->
    exists i, In (StoreSlot (gi, l) i x) (stores s).

(** *** The row format *)




(** The destination has room for every row: index entries and tuples. *)
Record row_room (s0 : state) : Prop := mk_row_room {
  rr_rows : total_rows (groups s0) <= kds.nrooms (kds_dst s0);
  rr_mono : forall x y, 0 <= x <= y -> STROMALIGN P x <= STROMALIGN P y;
  rr_bytes :
    KERN_DATA_STORE_HEAD_LENGTH P (kds.ncols (kds_dst s0))
    + STROMALIGN P (4 * total_rows (groups s0))
    + total_bytes P (groups s0) <= kds.length (kds_dst s0)
}.

(** *** Alignment *)

(** [MAXALIGN] rounds up to a multiple of [m], a power of two below the
    range of [cl_uint]. *)
Record maxalign_by (m : Z) : Prop := mk_maxalign_by {
  ma_pos : 0 < m;
  ma_word : (m | 2 ^ 32);
  ma_multiple : forall x, (m | MAXALIGN P x);
  ma_fixed : forall x, 0 <= x -> (m | x) -> MAXALIGN P x = x
}.

(** The byte counter, every reservation made from it and the offset of
    every tuple written are multiples of [m]. *)
Definition usage_aligned (m : Z) (s : state) : Prop :=
  (m | kds.usage (kds_dst s)) /\
  (forall gi g up cnt l th,
     groups s !! gi = Some g -> gpc g = GCommit up cnt ->
     threads g !! l = Some th ->
     (m | up) /\ (m | offset th) /\ (m | required th)) /\
  (forall w o b, In (StoreTuple w o b) (stores s) -> 0 <= o /\ (m | o)).

End View.
End ProjectionView.

(** * Properties *)

Import Writeback WritebackView.

Lemma u32_small x : 0 <= x < 2 ^ 32 -> u32 x = x.
Proof. intros H. unfold u32. now apply Z.mod_small. Qed.

Lemma u32_range x : 0 <= u32 x < 2 ^ 32.
Proof. unfold u32. apply Z.mod_pos_bound. lia. Qed.

Lemma fresh_image rooms : fresh rooms = image rooms 0 [].
Proof.
  unfold fresh, image, arr, over. simpl.
  rewrite take_nil, drop_nil. simpl. now rewrite Nat.sub_0_r.
Qed.

Lemma store_image rooms n slots v :
  0 <= rooms ->
  store_result (image rooms n slots) (Z.of_nat (length slots)) v
  = image rooms n (slots ++ [v]).
Proof.
  intros Hr. unfold store_result, image. simpl.
  destruct (Z.ltb_spec (Z.of_nat (length slots)) rooms) as [Hlt | Hge].
  - f_equal.
    + unfold arr. rewrite Nat2Z.id.
      rewrite !take_ge by (rewrite ?length_app; simpl; lia).
      rewrite length_app. simpl.
      replace (Z.to_nat rooms - length slots)%nat
        with (S (Z.to_nat rooms - (length slots + 1)))%nat by lia.
      simpl. rewrite insert_app_r_alt by lia.
      rewrite Nat.sub_diag. simpl. now rewrite <- app_assoc.
    + unfold over. rewrite !drop_ge by (rewrite ?length_app; simpl; lia).
      reflexivity.
  - f_equal.
    + unfold arr. rewrite take_app_le by lia. rewrite length_app. simpl.
      replace (Z.to_nat rooms - length slots)%nat with 0%nat by lia.
      replace (Z.to_nat rooms - (length slots + 1))%nat with 0%nat by lia.
      reflexivity.
    + unfold over. rewrite drop_app_le by lia. rewrite imap_app. simpl.
      rewrite length_drop. do 3 f_equal. lia.
Qed.

Lemma stored_cons t g :
  stored (t :: g)
  = if qualifies t then stored_value t :: stored g else stored g.
Proof. unfold stored. simpl. now destruct (qualifies t). Qed.

Lemma stored_length_le g : (length (stored g) <= length g)%nat.
Proof.
  induction g as [| t g IH]; [simpl; lia |].
  rewrite stored_cons. destruct (qualifies t); simpl; lia.
Qed.

Lemma thread_cases t :
  (result t > 0 /\ qualifies t = true /\ binary t = 1) \/
  (result t < 0 /\ qualifies t = true /\ binary t = 1) \/
  (result t = 0 /\ qualifies t = false /\ binary t = 0).
Proof.
  unfold qualifies, binary.
  destruct (Z.eqb_spec (result t) 0) as [-> | Hne]; simpl; [auto |].
  destruct (Z.lt_trichotomy (result t) 0) as [H | [H | H]]; [| lia |];
    [right; left | left]; repeat split; lia.
Qed.

Lemma write_index_qualifies base k t offset :
  write_index base k (t, offset)
  = if qualifies t
    then store_result k (u32 (base + offset)) (stored_value t)
    else k.
Proof.
  unfold write_index, stored_value, qualifies.
  rewrite Z.gtb_ltb.
  destruct (Z.ltb_spec 0 (result t)), (Z.ltb_spec (result t) 0),
    (Z.eqb_spec (result t) 0); simpl; try lia; reflexivity.
Qed.

Lemma write_indices_image g : forall acc slots rooms n base,
  0 <= rooms -> 0 <= base -> 0 <= acc ->
  base + acc = Z.of_nat (length slots) ->
  base + acc + Z.of_nat (length g) < 2 ^ 32 ->
  fold_left (write_index base)
            (zip g (stairlike_offsets acc (map binary g)))
            (image rooms n slots)
  = image rooms n (slots ++ stored g)
  /\ stairlike_total acc (map binary g)
     = acc + Z.of_nat (length (stored g)).
Proof.
  induction g as [| t g IH]; intros acc slots rooms n base Hr Hb Ha Hlen Hlt.
  - simpl. rewrite app_nil_r. split; [reflexivity | lia].
  - simpl in Hlt. cbn [map stairlike_offsets stairlike_total zip zip_with fold_left].
    rewrite write_index_qualifies, stored_cons.
    assert (Hu : u32 (base + acc) = Z.of_nat (length slots))
      by (rewrite u32_small; lia).
    destruct (thread_cases t) as [(_ & Hq & Hbin) | [(_ & Hq & Hbin) | (_ & Hq & Hbin)]];
      rewrite Hq, Hbin.
    1, 2: rewrite Hu, store_image by assumption;
      rewrite (u32_small (acc + 1)) by lia;
      destruct (IH (acc + 1) (slots ++ [stored_value t]) rooms n base)
        as [E1 E2]; try lia; [rewrite length_app; simpl; lia |];
      rewrite E1, E2, <- app_assoc; simpl; split; [reflexivity | lia].
    rewrite Z.add_0_r, (u32_small acc) by lia.
    apply IH; lia.
Qed.

Lemma writeback_group_image rooms slots g :
  0 <= rooms ->
  Z.of_nat (length slots) + Z.of_nat (length g) < 2 ^ 32 ->
  gpuscan_writeback_results (image rooms (Z.of_nat (length slots)) slots) g
  = image rooms (Z.of_nat (length (slots ++ stored g))) (slots ++ stored g).
Proof.
  intros Hr Hlt. unfold gpuscan_writeback_results, arithmetic_stairlike_add.
  destruct g as [| t g]; [now rewrite app_nil_r |].
  set (g' := t :: g) in *.
  unfold atomicAdd. cbn [nitems nrels nrooms results beyond image].
  destruct (write_indices_image g' 0 slots rooms
              (u32 (Z.of_nat (length slots)
                    + stairlike_total 0 (map binary g')))
              (Z.of_nat (length slots))) as [E1 E2]; try lia.
  fold (image rooms (u32 (Z.of_nat (length slots)
                          + stairlike_total 0 (map binary g'))) slots).
  rewrite E1, E2. f_equal.
  pose proof (stored_length_le g').
  rewrite u32_small, length_app; lia.
Qed.

Lemma run_image rooms sched : forall slots,
  0 <= rooms ->
  Z.of_nat (length slots) + Z.of_nat (length (concat sched)) < 2 ^ 32 ->
  let slots' := slots ++ concat (map stored sched) in
  run sched (image rooms (Z.of_nat (length slots)) slots)
  = image rooms (Z.of_nat (length slots')) slots'.
Proof.
  induction sched as [| g sched IH]; intros slots Hr Hlt; simpl.
  - now rewrite app_nil_r.
  - simpl in Hlt. rewrite length_app in Hlt.
    rewrite writeback_group_image by lia.
    unfold run in IH. rewrite IH; [now rewrite <- app_assoc | lia |].
    pose proof (stored_length_le g). rewrite length_app. lia.
Qed.

(** The whole grid, in one list. *)
Lemma run_fresh rooms sched :
  0 <= rooms ->
  Z.of_nat (length (concat sched)) < 2 ^ 32 ->
  let slots := concat (map stored sched) in
  run sched (fresh rooms) = image rooms (Z.of_nat (length slots)) slots.
Proof.
  intros Hr Hlt. rewrite fresh_image.
  apply (run_image rooms sched [] Hr). simpl. lia.
Qed.

Lemma stored_concat (grid : list workgroup) :
  concat (map stored grid) = stored (concat grid).
Proof.
  induction grid as [| g grid IH]; [reflexivity |].
  simpl. rewrite IH. unfold stored.
  now rewrite List.filter_app, map_app.
Qed.

Lemma stored_length g :
  length (stored g) = length (List.filter qualifies g).
Proof. unfold stored. now rewrite length_map. Qed.

Lemma in_stored v g :
  In v (stored g)
  <-> exists t, In t g /\ qualifies t = true /\ v = stored_value t.
Proof.
  unfold stored. rewrite in_map_iff. split.
  - intros (t & <- & Hin). apply List.filter_In in Hin. exists t. tauto.
  - intros (t & Hin & Hq & ->). exists t. split; [reflexivity |].
    apply List.filter_In. tauto.
Qed.

Lemma stored_perm (s1 s2 : list workgroup) :
  Permutation s1 s2 -> Permutation (stored (concat s1)) (stored (concat s2)).
Proof.
  intros HP. rewrite <- !stored_concat.
  induction HP; simpl.
  - constructor.
  - now apply Permutation_app_head.
  - rewrite !app_assoc. apply Permutation_app_tail, Permutation_app_comm.
  - etransitivity; eassumption.
Qed.

Lemma concat_perm_length {A} (s1 s2 : list (list A)) :
  Permutation s1 s2 -> length (concat s1) = length (concat s2).
Proof.
  induction 1; simpl; rewrite ?length_app; lia.
Qed.

Lemma stored_value_signed t :
  0 <= gid t < 2 ^ 31 - 1 -> stored_value t = signed_index t.
Proof.
  intros H. unfold stored_value, signed_index, result_index, size_t, to_cl_int.
  rewrite (Z.mod_small (gid t + 1)) by lia.
  destruct (result t >? 0).
  - rewrite Z.mod_small; lia.
  - replace ((- (gid t + 1)) mod 2 ^ 64) with (2 ^ 64 - (gid t + 1))
      by (apply Z.mod_unique with (q := -1); lia).
    replace (2 ^ 64 - (gid t + 1) + 2 ^ 31)
      with (2 ^ 31 - (gid t + 1) + (2 ^ 32 - 1 + 1) * 2 ^ 32) by lia.
    rewrite Z.mod_add by lia. rewrite Z.mod_small; lia.
Qed.

Lemma recorded_image_fits rooms slots :
  Z.of_nat (length slots) <= rooms ->
  recorded (image rooms (Z.of_nat (length slots)) slots) = slots.
Proof.
  intros H. unfold recorded, image, arr. simpl.
  rewrite Nat2Z.id, (take_ge slots) by lia.
  now rewrite take_app_length.
Qed.




(** ** The result accumulator: what ends up in the buffer *)

Section ResultBuffer.
Variables (grid : list workgroup) (rooms : Z).


Lemma qualifying_length_le :
  (length (List.filter qualifies (concat grid)) <= length (concat grid))%nat.
Proof. rewrite <- stored_length. apply stored_length_le. Qed.

(** Final buffer of any group order, provided the grid has fewer than
    [2^32] threads. *)
Lemma run_any_order sched :
  Permutation sched grid ->
  0 <= rooms ->
  Z.of_nat (length (concat grid)) < 2 ^ 32 ->
  exists slots,
    Permutation slots (stored (concat grid)) /\
    run sched (fresh rooms) = image rooms (Z.of_nat (length slots)) slots.
Proof.
  intros HP Hr Hlt. exists (stored (concat sched)). split.
  - now apply stored_perm.
  - rewrite <- stored_concat. apply run_fresh; [assumption |].
    now rewrite (concat_perm_length _ _ HP).
Qed.

(** C2 (amended): when the rows that passed or need a re-check fit in
    [nrooms], then after [gpuscan_writeback_results] has run for all groups,
    in any order, [nitems] is their number and the recorded entries are
    exactly their signed 1-based indices: [gid + 1] for a pass
    ([result > 0]), [-(gid + 1)] for a re-check ([result < 0]); a rejected
    row ([result = 0]) is recorded under neither sign. *)
Theorem writeback_records_qualifying_rows sched :
  Permutation sched grid ->
  NoDup (map gid (concat grid)) ->
  (forall t, In t (concat grid) -> 0 <= gid t < 2 ^ 31 - 1) ->
  Z.of_nat (length (concat grid)) < 2 ^ 32 ->
  Z.of_nat (length (List.filter qualifies (concat grid))) <= rooms ->
  let k := run sched (fresh rooms) in
  nitems k = Z.of_nat (length (List.filter qualifies (concat grid))) /\
  (forall v, In v (recorded k) <->
     exists t, In t (concat grid) /\ qualifies t = true /\ v = signed_index t) /\
  (forall t, In t (concat grid) -> result t = 0 ->
     ~ In (gid t + 1) (recorded k) /\ ~ In (- (gid t + 1)) (recorded k)).
Proof.
  intros HP Hnd Hgid Hlt Hfit k.
  destruct (run_any_order sched HP) as (slots & Hperm & Hrun); [lia | assumption |].
  assert (Hlen : length slots = length (List.filter qualifies (concat grid))).
  { rewrite (Permutation_length Hperm). apply stored_length. }
  assert (Hrec : recorded k = slots).
  { subst k. rewrite Hrun. apply recorded_image_fits. lia. }
  assert (Hin : forall v, In v (recorded k) <->
     exists t, In t (concat grid) /\ qualifies t = true /\ v = signed_index t).
  { intros v. rewrite Hrec. split.
    - intros Hv. apply (Permutation_in _ Hperm), in_stored in Hv.
      destruct Hv as (t & Ht & Hq & ->). exists t.
      rewrite stored_value_signed by auto. auto.
    - intros (t & Ht & Hq & ->).
      apply (Permutation_in _ (Permutation_sym Hperm)), in_stored.
      exists t. rewrite stored_value_signed by auto. auto. }
  split; [| split; [exact Hin |]].
  - subst k. rewrite Hrun. simpl. now rewrite Hlen.
  - intros t Ht Hres.
    assert (Hsame : forall t', In t' (concat grid) -> gid t' = gid t -> t' = t).
    { intros t' Ht' Hg.
      apply list_elem_of_In, list_elem_of_lookup in Ht as [i Hi].
      apply list_elem_of_In, list_elem_of_lookup in Ht' as [j Hj].
      assert (i = j) as ->; [| congruence].
      eapply (NoDup_lookup (map gid (concat grid)));
        [exact Hnd | |];
        rewrite list_lookup_fmap; [rewrite Hi | rewrite Hj]; simpl;
        [reflexivity | now f_equal]. }
    assert (Hq : qualifies t = false) by (unfold qualifies; now rewrite Hres).
    split; intros Hv; apply Hin in Hv; destruct Hv as (t' & Ht' & Hq' & Hv);
      assert (gid t' = gid t)
        by (pose proof (Hgid t Ht); pose proof (Hgid t' Ht');
            unfold signed_index in Hv; destruct (result t' >? 0); lia);
      rewrite (Hsame t') in Hq' by assumption; congruence.
Qed.

(** Two runs over the same grid that differ only in the order of the
    groups: same [nitems]; same recorded set when the rows fit. *)
Lemma writeback_two_orders sched1 sched2 :
  Permutation sched1 grid ->
  Permutation sched2 grid ->
  0 <= rooms ->
  Z.of_nat (length (concat grid)) < 2 ^ 32 ->
  let k1 := run sched1 (fresh rooms) in
  let k2 := run sched2 (fresh rooms) in
  nitems k1 = nitems k2 /\
  (Z.of_nat (length (List.filter qualifies (concat grid))) <= rooms ->
   forall v, In v (recorded k1) <-> In v (recorded k2)).
Proof.
  intros HP1 HP2 Hr Hlt k1 k2.
  destruct (run_any_order sched1 HP1) as (s1 & Hs1 & Hrun1); [lia | assumption |].
  destruct (run_any_order sched2 HP2) as (s2 & Hs2 & Hrun2); [lia | assumption |].
  assert (H12 : Permutation s1 s2)
    by (etransitivity; [exact Hs1 | now apply Permutation_sym]).
  subst k1 k2. rewrite Hrun1, Hrun2. split.
  - simpl. now rewrite (Permutation_length H12).
  - intros Hfit v.
    pose proof (Permutation_length Hs1) as L1.
    pose proof (Permutation_length Hs2) as L2.
    rewrite stored_length in L1, L2.
    rewrite !recorded_image_fits by lia.
    split; apply Permutation_in; [assumption | now apply Permutation_sym].
Qed.


End ResultBuffer.

(** C2, as stated, fails once the buffer is too small: with [nrooms = 1] and
    two passing rows the second row is stored past the end of the array and
    is not among the recorded entries. *)
Lemma writeback_overflow_loses_row :
  let grid := launch 1 [1; 1] in
  let k := run grid (fresh 1) in
  ~ (forall v, In v (recorded k) <->
       exists t, In t (concat grid) /\ qualifies t = true /\ v = signed_index t).
Proof.
  intros grid k H.
  assert (Hin : In 2 (recorded k)).
  { apply H. exists (mk_thread 1 1). vm_compute. auto. }
  vm_compute in Hin. intuition discriminate.
Qed.

(** C9, as stated, fails once the buffer is too small: the two orders of two
    one-thread groups leave different rows in the array. *)
Lemma writeback_overflow_order_dependent :
  let grid := launch 1 [1; 1] in
  let k1 := run grid (fresh 1) in
  let k2 := run (rev grid) (fresh 1) in
  Permutation (rev grid) grid /\
  ~ (forall v, In v (recorded k1) <-> In v (recorded k2)).
Proof.
  intros grid k1 k2. split.
  - apply Permutation_sym, Permutation_rev.
  - intros H. assert (Hin : In 1 (recorded k2)) by (apply H; vm_compute; auto).
    vm_compute in Hin. intuition discriminate.
Qed.

(** ** The invocation as a transition system *)

Import GpuScan GpuScanView.

Section Machine.
Context (P : platform).

Lemma step_transition s a s' :
  step P s a = Some s' -> transition P s s'.
Proof.
  unfold step. destruct a as [gi | gi l].
  - destruct (groups s !! gi) as [g |] eqn:Hg; [| discriminate].
    destruct (kds.format (kds_dst s)) eqn:Hf, (gpc g) eqn:Hpc; try discriminate.
    + destruct (row_count P (kds_dst s) g) as [d' g'] eqn:E.
      intros [= <-]. eapply T_row_count; eauto.
    + destruct (row_usage P (kds_dst s) g) as [d' g'] eqn:E.
      intros [= <-]. eapply T_row_usage; eauto.
    + destruct (slot_project P gi (kds_dst s) g) as [[d' evs] g'] eqn:E.
      intros [= <-]. eapply T_slot; eauto.
  - destruct (groups s !! gi) as [g |] eqn:Hg; [| discriminate].
    destruct (gpc g) eqn:Hpc; try discriminate.
    destruct (threads g !! l) as [th |] eqn:Hth; [| discriminate].
    destruct (returned th) eqn:Hret; [discriminate |].
    destruct (row_commit P (gi, l) (kds_dst s) usage_prev count th)
      as [evs th'] eqn:E.
    intros [= <-]. rewrite <- Hpc. eapply T_commit; eauto.
Qed.

Lemma exec_invariant (Inv : state -> Prop) :
  (forall s s', Inv s -> transition P s s' -> Inv s') ->
  forall sched s0 s, Inv s0 -> exec P sched s0 = Some s -> Inv s.
Proof.
  intros Hstep. induction sched as [| a sched IH]; intros s0 s H0; simpl.
  - now intros [= <-].
  - destruct (step P s0 a) as [s1 |] eqn:E; [| discriminate].
    apply IH. eapply Hstep; eauto using step_transition.
Qed.

Lemma exec_app sched1 sched2 s0 s1 :
  exec P sched1 s0 = Some s1 ->
  exec P (sched1 ++ sched2) s0 = exec P sched2 s1.
Proof.
  revert s0. induction sched1 as [| a sched1 IH]; intros s0; simpl.
  - now intros [= <-].
  - destruct (step P s0 a) as [s' |]; [apply IH | discriminate].
Qed.

Lemma reachable_refl s : reachable P s s.
Proof. now exists []. Qed.

Lemma reachable_step s0 s a s' :
  reachable P s0 s -> step P s a = Some s' -> reachable P s0 s'.
Proof.
  intros [sched Hs] Ha. exists (sched ++ [a]).
  rewrite (exec_app _ _ _ _ Hs). simpl. now rewrite Ha.
Qed.

Lemma reachable_exec s0 s sched s' :
  reachable P s0 s -> exec P sched s = Some s' -> reachable P s0 s'.
Proof.
  intros [sched0 Hs] Ha. exists (sched0 ++ sched).
  now rewrite (exec_app _ _ _ _ Hs).
Qed.

Lemma reachable_invariant (Inv : state -> Prop) s0 :
  Inv s0 ->
  (forall s s', Inv s -> transition P s s' -> Inv s') ->
  forall s, reachable P s0 s -> Inv s.
Proof.
  intros H0 Hstep s [sched Hs]. eapply exec_invariant; eauto.
Qed.

(** *** The prefix scan *)

Lemma length_stairlike_offsets vals : forall acc,
  length (stairlike_offsets acc vals) = length vals.
Proof. induction vals as [| v vals IH]; intros acc; simpl; [| rewrite IH]; reflexivity. Qed.

Lemma Forall2_zip_with_scan {A} (R : A -> A -> Prop) (f : A -> Z -> A)
    (v : A -> Z) (l : list A) acc :
  (forall x off, R x (f x off)) ->
  Forall2 R l (zip_with f l (stairlike_offsets acc (map v l))).
Proof.
  intros HR. revert acc. induction l as [| x l IH]; intros acc; simpl;
    constructor; auto.
Qed.

(** *** What the collective sections leave unchanged *)

Lemma row_count_frame d g d' g' :
  row_count P d g = (d', g') ->
  kds.format d' = kds.format d /\ kds.ncols d' = kds.ncols d /\
  kds.length d' = kds.length d /\ kds.nrooms d' = kds.nrooms d /\
  kds.usage d' = kds.usage d.
Proof.
  unfold row_count, arithmetic_stairlike_add.
  destruct (reserve _ _) as [np n']. intros [= <- <-]. simpl. auto.
Qed.

Lemma row_usage_frame d g d' g' :
  row_usage P d g = (d', g') ->
  kds.format d' = kds.format d /\ kds.ncols d' = kds.ncols d /\
  kds.length d' = kds.length d /\ kds.nrooms d' = kds.nrooms d /\
  kds.nitems d' = kds.nitems d.
Proof.
  unfold row_usage, arithmetic_stairlike_add.
  destruct (reserve _ _) as [up u']. intros [= <- <-]. simpl. auto.
Qed.

Lemma slot_project_frame who d g d' evs g' :
  slot_project P who d g = (d', evs, g') ->
  kds.format d' = kds.format d /\ kds.ncols d' = kds.ncols d /\
  kds.length d' = kds.length d /\ kds.nrooms d' = kds.nrooms d /\
  kds.usage d' = kds.usage d.
Proof.
  unfold slot_project, arithmetic_stairlike_add.
  destruct (reserve _ _) as [base n']. intros [= <- <- <-]. simpl. auto.
Qed.

Lemma transition_frame s s' :
  transition P s s' -> same_frame s s'.
Proof.
  unfold same_frame.
  destruct 1 as [gi g d' g' _ _ _ E | gi g np c d' g' _ _ _ E
                | gi g d' evs g' _ _ _ E | gi g l th up cnt evs th' _ _ _ _ _];
    simpl; [apply row_count_frame in E | apply row_usage_frame in E
            | apply slot_project_frame in E |]; tauto.
Qed.

(** *** How the threads of a group move *)

Lemma row_count_threads d g d' g' :
  row_count P d g = (d', g') ->
  (gpc g' = GReturned \/ exists np c, gpc g' = GUsage np c) /\
  Forall2 (thread_rel P (gpc g')) (threads g) (threads g').
Proof.
  unfold row_count, arithmetic_stairlike_add.
  destruct (reserve _ _) as [np n']. intros [= <- <-]. simpl.
  destruct (u32 (np + _) >? kds.nrooms d); (split; [eauto |]);
    apply Forall2_zip_with_scan; intros th off;
    unfold thread_rel, row_count_thread, raise_nospace, raised_nospace;
    simpl; auto 6.
Qed.

Lemma row_usage_threads d g d' g' :
  row_usage P d g = (d', g') ->
  (exists up c, gpc g' = GCommit up c) /\
  Forall2 (fun th th' =>
             tupitem_src th' = tupitem_src th /\
             errcode th' = errcode th /\
             returned th' = false /\
             required th' = required_of P (tupitem_src th) /\
             scans th' = scans th ++ [required_of P (tupitem_src th)])
          (threads g) (threads g').
Proof.
  unfold row_usage, arithmetic_stairlike_add.
  destruct (reserve _ _) as [up u']. intros [= <- <-]. simpl.
  split; [eauto |].
  apply Forall2_zip_with_scan; intros th off. simpl. auto.
Qed.

Lemma slot_project_threads who d g d' evs g' :
  slot_project P who d g = (d', evs, g') ->
  gpc g' = GReturned /\
  Forall2 (thread_rel P GReturned) (threads g) (threads g').
Proof.
  unfold slot_project, arithmetic_stairlike_add.
  destruct (reserve _ _) as [base n']. intros [= <- <- <-]. simpl.
  split; [reflexivity |].
  apply Forall2_zip_with_scan; intros th off.
  unfold thread_rel, slot_thread, raise_nospace, do_return, raised_nospace.
  destruct (u32 (base + _) >? kds.nrooms d); simpl; auto 6.
Qed.

Lemma row_commit_thread who d up cnt th evs th' :
  row_commit P who d up cnt th = (evs, th') ->
  tupitem_src th' = tupitem_src th /\ scans th' = scans th /\
  required th' = required th /\ item_index th' = item_index th /\
  offset th' = offset th /\ returned th' = true /\
  ((row_no_space P d up cnt = true /\ evs = [] /\
    errcode th' = STROM_SET_ERROR P (errcode th) StromError_DataStoreNoSpace) \/
   (row_no_space P d up cnt = false /\ errcode th' = errcode th)).
Proof.
  unfold row_commit.
  destruct (row_no_space P d up cnt).
  - intros [= <- <-]. simpl. repeat apply conj; try reflexivity.
    left. auto.
  - destruct (tupitem_src th) eqn:E; intros [= <- <-]; simpl;
      repeat apply conj; try reflexivity; try assumption; right; auto.
Qed.

Lemma row_commit_events who d up cnt th evs th' :
  row_commit P who d up cnt th = (evs, th') ->
  evs = [] \/
  (row_no_space P d up cnt = false /\
   exists src bytes,
     tupitem_src th = Some src /\
     evs = [StoreTuple who (htup_offset_at d up th) bytes;
            StoreIndex who (item_index th) (htup_offset_at d up th)]).
Proof.
  unfold row_commit. destruct (row_no_space P d up cnt).
  - intros [= <- _]. now left.
  - destruct (tupitem_src th) as [src |]; intros [= <- _]; [right | now left].
    split; [reflexivity |]. eauto.
Qed.

Lemma in_insert {A} (l : list A) i x y :
  In y (<[i := x]> l) -> y = x \/ In y l.
Proof.
  intros H. apply list_elem_of_In, list_elem_of_lookup in H as [j Hj].
  apply list_lookup_insert_Some in Hj as [(_ & -> & _) | (_ & Hj)];
    [now left | right].
  apply list_elem_of_In. eapply list_elem_of_lookup_2. eassumption.
Qed.

(** *** The structural invariant *)

Lemma thread_rel_entry th : thread_rel P GCount th th.
Proof. split; reflexivity. Qed.

Lemma Forall2_compose {A B C} (R1 : A -> B -> Prop) (R2 : B -> C -> Prop)
    (R3 : A -> C -> Prop) l k m :
  (forall x y z, R1 x y -> R2 y z -> R3 x z) ->
  Forall2 R1 l k -> Forall2 R2 k m -> Forall2 R3 l m.
Proof.
  intros H H1. revert m. induction H1; intros m H2; inversion H2; subst;
    constructor; eauto.
Qed.

Lemma group_rel_entry g0 g :
  gpc g = GCount -> group_rel P g0 g -> threads g = threads g0.
Proof.
  unfold group_rel. intros ->. intros H. symmetry. apply list_eq_Forall2.
  eapply Forall2_impl; [exact H |]. intros th0 th [_ ->]. reflexivity.
Qed.

Lemma structured_entry s : at_entry s -> structured P s s.
Proof.
  intros He. split; [unfold same_frame; tauto |].
  apply Forall_Forall2_diag. eapply Forall_impl; [exact He |].
  intros g Hg. unfold group_rel. rewrite Hg.
  apply Forall_Forall2_diag, Forall_forall. intros th _.
  apply thread_rel_entry.
Qed.

Lemma group_rel_insert s0 s gi g g' :
  Forall2 (group_rel P) (groups s0) (groups s) ->
  groups s !! gi = Some g ->
  (forall g0, groups s0 !! gi = Some g0 -> group_rel P g0 g -> group_rel P g0 g') ->
  Forall2 (group_rel P) (groups s0) (<[gi := g']> (groups s)).
Proof.
  intros HF Hg Hrel.
  destruct (Forall2_lookup_r _ _ _ _ _ HF Hg) as (g0 & Hg0 & Hr).
  rewrite <- (list_insert_id (groups s0) gi g0 Hg0).
  apply Forall2_insert; auto.
Qed.

Lemma structured_step s0 s s' :
  structured P s0 s -> transition P s s' -> structured P s0 s'.
Proof.
  intros [Hfr HF] Ht. split.
  - apply transition_frame in Ht. unfold same_frame in *.
    intuition congruence.
  - destruct Ht as [gi g d' g' Hg _ Hpc E | gi g np c d' g' Hg _ Hpc E
                   | gi g d' evs g' Hg _ Hpc E
                   | gi g l th up cnt evs th' Hg Hpc Hth Hret E]; simpl;
      apply (group_rel_insert s0 s gi g _ HF Hg); intros g0 Hg0 Hr.
    + apply row_count_threads in E as [_ E]. unfold group_rel.
      now rewrite <- (group_rel_entry g0 g Hpc Hr).
    + apply row_usage_threads in E as [(up & cnt & Hpc') E].
      unfold group_rel in *. rewrite Hpc in Hr. rewrite Hpc'.
      eapply Forall2_compose; [| exact Hr | exact E].
      intros th0 th th' (Ht & Hr' & He & Hs) (Ht' & He' & Hr'' & Hq & Hs').
      split; [congruence |]. rewrite Hs', Hs, <- app_assoc, Ht. simpl.
      repeat apply conj; try congruence. left. congruence.
    + apply slot_project_threads in E as [Hpc' E]. unfold group_rel.
      rewrite Hpc'. now rewrite <- (group_rel_entry g0 g Hpc Hr).
    + unfold group_rel in *. simpl. rewrite Hpc in *.
      destruct (Forall2_lookup_r _ _ _ _ _ Hr Hth) as (th0 & Hth0 & Hr0).
      rewrite <- (list_insert_id (threads g0) l th0 Hth0).
      apply Forall2_insert; [assumption |].
      apply row_commit_thread in E
        as (Ht & Hs & Hq & _ & _ & Hret' & HE).
      destruct Hr0 as (Ht0 & Hs0 & Hq0 & He0).
      assert (He : errcode th = errcode th0)
        by (destruct He0 as [? | [? _]]; congruence).
      split; [congruence |]. repeat apply conj; try congruence.
      destruct HE as [(_ & _ & HE) | (_ & HE)]; [right | left; congruence].
      split; [assumption |]. split; [assumption | congruence].
Qed.

Lemma structured_reachable s0 s :
  at_entry s0 -> reachable P s0 s -> structured P s0 s.
Proof.
  intros He. apply reachable_invariant.
  - now apply structured_entry.
  - apply structured_step.
Qed.

Lemma gpuscan_qual_at_entry src eval d cell k grid :
  at_entry (gpuscan_qual src eval d cell k grid).
Proof.
  unfold at_entry, gpuscan_qual. simpl. apply Forall_forall.
  intros g Hg. apply list_elem_of_fmap in Hg as (ids & -> & _). reflexivity.
Qed.

End Machine.

(** ** Sums and the prefix scan without wrap-around *)

Section Sums.

Lemma zsum_app l1 l2 : zsum (l1 ++ l2) = zsum l1 + zsum l2.
Proof. induction l1 as [| x l1 IH]; simpl; lia. Qed.

Lemma zsum_nonneg l : Forall (fun x => 0 <= x) l -> 0 <= zsum l.
Proof. induction 1; simpl; lia. Qed.

Lemma zsum_map_nonneg {A} (f : A -> Z) l :
  (forall x, 0 <= f x) -> 0 <= zsum (map f l).
Proof. intros H. induction l; simpl; [lia | specialize (H a); lia]. Qed.

Lemma zsum_map_insert {A} (f : A -> Z) (l : list A) i x y :
  l !! i = Some x ->
  zsum (map f (<[i := y]> l)) = zsum (map f l) - f x + f y.
Proof.
  revert i. induction l as [| a l IH]; intros [| i]; simpl; try discriminate.
  - intros [= ->]. lia.
  - intros H. rewrite (IH i H). lia.
Qed.

Lemma zsum_map_lookup_le {A} (f : A -> Z) (l : list A) i x :
  (forall y, 0 <= f y) -> l !! i = Some x -> f x <= zsum (map f l).
Proof.
  intros Hf. revert i. induction l as [| a l IH]; intros [| i]; simpl;
    try discriminate.
  - intros [= ->]. pose proof (zsum_map_nonneg f l Hf). lia.
  - intros H. specialize (IH i H). specialize (Hf a). lia.
Qed.

Lemma zsum_map_le {A} (f g : A -> Z) (l : list A) :
  (forall x, f x <= g x) -> zsum (map f l) <= zsum (map g l).
Proof. intros H. induction l; simpl; [lia | specialize (H a); lia]. Qed.

Lemma zsum_map_ext_Forall2 {A} (f : A -> Z) (l k : list A) :
  Forall2 (fun x y => f y = f x) l k -> zsum (map f k) = zsum (map f l).
Proof. induction 1; simpl; lia. Qed.

(** With wrap-around the scan still computes the sum, modulo [2^32]. *)
Lemma stairlike_total_sum vals : forall acc,
  stairlike_total acc vals
  = match vals with [] => acc | _ => u32 (acc + zsum vals) end.
Proof.
  induction vals as [| v vals IH]; intros acc; simpl; [reflexivity |].
  rewrite IH. destruct vals as [| w vals]; simpl.
  - now rewrite Z.add_0_r.
  - unfold u32. rewrite Zplus_mod_idemp_l. f_equal. lia.
Qed.

Lemma stairlike_total_zsum vals :
  stairlike_total 0 vals = u32 (zsum vals).
Proof. rewrite stairlike_total_sum. now destruct vals. Qed.

Lemma reserve_sum cell x :
  0 <= cell < 2 ^ 32 ->
  snd (reserve cell (u32 x)) = u32 (cell + x).
Proof.
  intros Hc. unfold reserve, atomicAdd.
  destruct (Z.gtb_spec (u32 x) 0) as [Hpos | Hzero]; simpl.
  - unfold u32. now rewrite Zplus_mod_idemp_r.
  - pose proof (u32_range x).
    assert (E : u32 x = 0) by lia.
    unfold u32 in *. rewrite <- Zplus_mod_idemp_r, E, Z.add_0_r.
    symmetry. now apply Z.mod_small.
Qed.

(** Without wrap-around: the thread whose value is [v x] gets an offset
    [off] with [acc <= off] and [off + v x] at most the total. *)
Lemma scan_Forall2 {A} (R : A -> A -> Prop) (f : A -> Z -> A) (v : A -> Z)
    (l : list A) : forall acc,
  (forall x, 0 <= v x) ->
  0 <= acc -> acc + zsum (map v l) < 2 ^ 32 ->
  (forall x off, In x l -> acc <= off ->
                 off + v x <= acc + zsum (map v l) -> R x (f x off)) ->
  Forall2 R l (zip_with f l (stairlike_offsets acc (map v l))).
Proof.
  intros acc Hv. revert acc.
  induction l as [| x l IH]; intros acc Hacc Hlt HR; simpl; [constructor |].
  simpl in Hlt. pose proof (Hv x). pose proof (zsum_map_nonneg v l Hv).
  constructor.
  - apply HR; [now left | lia | simpl; lia].
  - rewrite u32_small by lia. apply IH; [lia | lia |].
    intros y off Hin Hle Hub. apply HR; [now right | lia | simpl; lia].
Qed.

(** The offset of the thread at position [i] is the sum of the values
    before it. *)
Lemma scan_lookup {A} (f : A -> Z -> A) (v : A -> Z) (l : list A) :
  (forall x, 0 <= v x) ->
  forall acc i y,
  0 <= acc -> acc + zsum (map v l) < 2 ^ 32 ->
  zip_with f l (stairlike_offsets acc (map v l)) !! i = Some y ->
  exists x, l !! i = Some x /\ y = f x (acc + zsum (map v (take i l))).
Proof.
  intros Hv. induction l as [| x l IH]; intros acc i y Hacc Hlt; simpl;
    [discriminate |].
  simpl in Hlt. pose proof (Hv x). pose proof (zsum_map_nonneg v l Hv).
  destruct i as [| i]; simpl.
  - intros [= <-]. exists x. split; [reflexivity | f_equal; lia].
  - rewrite u32_small by lia. intros Hy.
    destruct (IH (acc + v x) i y) as (x' & Hx' & ->); [lia | lia | exact Hy |].
    exists x'. split; [assumption | f_equal; lia].
Qed.

Lemma zsum_take_step {A} (v : A -> Z) (l : list A) :
  (forall x, 0 <= v x) ->
  forall i j x, l !! i = Some x -> (i < j)%nat ->
  zsum (map v (take i l)) + v x <= zsum (map v (take j l)).
Proof.
  intros Hv. induction l as [| a l IH]; intros i j x Hx Hij; [discriminate |].
  destruct j as [| j]; [lia |]. destruct i as [| i]; simpl in *.
  - injection Hx as ->. pose proof (zsum_map_nonneg v (take j l) Hv). lia.
  - specialize (IH i j x Hx ltac:(lia)). lia.
Qed.

End Sums.

(** ** Scenario B and the capacity of the destination *)

Section ScenarioB.
Context (P : platform).
Variables (t1 t2 t3 t4 : kern_tupitem)
          (eval : Z -> kern_tupitem -> bool * StromError)
          (ncols len : Z) (k : kern_resultbuf).
Hypothesis eval_pass : forall i t, eval i t = (true, StromError_Success).
Hypothesis set_error_clean :
  STROM_SET_ERROR P StromError_Success StromError_DataStoreNoSpace
  = StromError_DataStoreNoSpace.

Lemma writeback_nospace_clean :
  kern_writeback_error_status P StromError_Success StromError_DataStoreNoSpace
  = StromError_DataStoreNoSpace.
Proof. reflexivity. Qed.

Lemma writeback_nospace_again :
  kern_writeback_error_status P StromError_DataStoreNoSpace
                              StromError_DataStoreNoSpace
  = StromError_DataStoreNoSpace.
Proof. simpl. now destruct (worse P _ _). Qed.

Lemma scenario_B_first_step a s :
  step P (Scenario.B t1 t2 t3 t4 eval ncols len k) a = Some s ->
  a = Collective 0 /\
  kds.nitems (kds_dst s) = 4 /\ kds.usage (kds_dst s) = 0 /\
  stores s = [] /\ errcell s = StromError_DataStoreNoSpace /\
  finished s = true /\
  forall b, step P s b = None.
Proof.
  unfold Scenario.B, Scenario.four_rows, gpuscan_qual, enter,
    gpuscan_qual_tupitem. simpl.
  rewrite !eval_pass. simpl.
  destruct a as [[| gi] | [| gi] l]; simpl; try discriminate.
  intros [= <-]. simpl. rewrite !set_error_clean.
  rewrite writeback_nospace_clean, !writeback_nospace_again.
  repeat apply conj; try reflexivity.
  intros [[| gi] | [| gi] l]; reflexivity.
Qed.

(** C4 (amended): in scenario B every invocation ends with the error cell
    holding [DataStoreNoSpace] and with no tuple byte and no index entry
    written; [nitems] is left at 4, the group's reservation, which is not
    taken back, and [usage] at 0. *)
Theorem scenario_B_outcome sched s :
  exec P sched (Scenario.B t1 t2 t3 t4 eval ncols len k) = Some s ->
  finished s = true ->
  errcell s = StromError_DataStoreNoSpace /\
  kds.nitems (kds_dst s) = 4 /\
  kds.usage (kds_dst s) = 0 /\
  stores s = [].
Proof.
  destruct sched as [| a sched]; simpl.
  - intros [= <-].
    unfold Scenario.B, Scenario.four_rows, gpuscan_qual, enter. simpl.
    destruct (gpuscan_qual_tupitem _ _ 0); simpl. discriminate.
  - destruct (step P (Scenario.B t1 t2 t3 t4 eval ncols len k) a) as [s1 |] eqn:E; [| discriminate].
    apply scenario_B_first_step in E
      as (_ & Hn & Hu & Hst & He & _ & Hstuck).
    destruct sched as [| b sched]; simpl.
    + intros [= <-] _. auto.
    + now rewrite Hstuck.
Qed.

End ScenarioB.

(** C4, as stated, fails on the item count: in scenario B the invocation
    ends with [nitems = 4], above the two rooms. *)
Lemma scenario_B_itemcount_above_rooms :
  let s0 := Scenario.B (Sample.item 24 1) (Sample.item 24 2)
                       (Sample.item 24 3) (Sample.item 24 4)
                       Sample.pass_all 2 4096 (fresh 4) in
  exists s, exec Sample.platform [Collective 0] s0 = Some s /\
            finished s = true /\
            errcell s = StromError_DataStoreNoSpace /\
            ~ kds.nitems (kds_dst s) <= 2.
Proof.
  eexists. split; [vm_compute; reflexivity |].
  split; [reflexivity |]. split; [reflexivity |]. vm_compute. congruence.
Qed.


(** ** The item count and the capacity *)

Section Capacity.
Context (P : platform).

Lemma stairlike_total_range vals : forall acc,
  0 <= acc < 2 ^ 32 -> 0 <= stairlike_total acc vals < 2 ^ 32.
Proof.
  induction vals as [| v vals IH]; intros acc Hacc; simpl; [assumption |].
  apply IH, u32_range.
Qed.

Lemma stairlike_total_no_rows (ths : list kern_thread) :
  Forall (fun th => tupitem_src th = None) ths ->
  stairlike_total 0 (map (fun th => has_row (tupitem_src th)) ths) = 0.
Proof.
  induction 1 as [| th ths Hth _ IH]; simpl; [reflexivity |].
  rewrite Hth. simpl. exact IH.
Qed.

Lemma positive_count_has_row (ths : list kern_thread) :
  stairlike_total 0 (map (fun th => has_row (tupitem_src th)) ths) > 0 ->
  exists th, In th ths /\ tupitem_src th <> None.
Proof.
  induction ths as [| th ths IH]; simpl; [lia |].
  destruct (tupitem_src th) eqn:E.
  - intros _. exists th. split; [now left | congruence].
  - simpl. intros H. destruct (IH H) as (th' & Hin & Hne).
    exists th'. split; [now right | assumption].
Qed.

Lemma transition_groups s s' :
  transition P s s' ->
  exists gi g g',
    groups s !! gi = Some g /\ gpc g <> GReturned /\
    groups s' = <[gi := g']> (groups s).
Proof.
  destruct 1 as [gi g d' g' Hg _ Hpc _ | gi g np c d' g' Hg _ Hpc _
                | gi g d' evs g' Hg _ Hpc _
                | gi g l th up cnt evs th' Hg Hpc _ _ _];
    simpl; eexists gi, g, _; (split; [exact Hg |]);
    (split; [congruence | reflexivity]).
Qed.

Lemma overflowed_step s0 s s' :
  overflowed P s0 s -> transition P s s' -> overflowed P s0 s'.
Proof.
  intros (gj & g0 & gw & Hg0 & Hgw & Hpc & Hrow & Hraised) Ht.
  destruct (transition_groups s s' Ht) as (gi & g & g' & Hg & Hne & Hgs).
  exists gj, g0, gw. repeat apply conj; try assumption.
  rewrite Hgs.
  destruct (decide (gi = gj)) as [-> | Hij]; [congruence |].
  now rewrite list_lookup_insert_ne.
Qed.

Lemma raised_by_count np (ths : list kern_thread) acc :
  Forall2 (raised_nospace P) ths
    (zip_with (row_count_thread P np true) ths
       (stairlike_offsets acc (map (fun th => has_row (tupitem_src th)) ths))).
Proof.
  apply Forall2_zip_with_scan. intros th off. split; reflexivity.
Qed.

Lemma raised_by_slot base count rooms (ths : list kern_thread) acc :
  (u32 (base + count) >? rooms) = true ->
  Forall2 (raised_nospace P) ths
    (zip_with (slot_thread P base count rooms) ths
       (stairlike_offsets acc (map (fun th => has_row (tupitem_src th)) ths))).
Proof.
  intros Hf. apply Forall2_zip_with_scan. intros th off.
  unfold slot_thread. rewrite Hf. split; reflexivity.
Qed.

Lemma row_count_capacity d g d' g' :
  row_count P d g = (d', g') ->
  kds.nitems d' = kds.nitems d \/
  kds.nitems d' <= kds.nrooms d \/
  (gpc g' = GReturned /\
   (exists th, In th (threads g) /\ tupitem_src th <> None) /\
   Forall2 (raised_nospace P) (threads g) (threads g')).
Proof.
  unfold row_count, arithmetic_stairlike_add, reserve, atomicAdd.
  set (count := stairlike_total 0 _).
  destruct (count >? 0) eqn:Hc.
  - destruct (u32 (kds.nitems d + count) >? kds.nrooms d) eqn:Hf;
      intros [= <- <-]; simpl; right.
    + right. repeat apply conj; [reflexivity | | apply raised_by_count].
      apply positive_count_has_row. apply Z.gtb_lt in Hc. fold count. lia.
    + left. rewrite Z.gtb_ltb in Hf. apply Z.ltb_ge in Hf. exact Hf.
  - intros [= <- <-]. simpl. now left.
Qed.

Lemma slot_project_capacity who d g d' evs g' :
  slot_project P who d g = (d', evs, g') ->
  kds.nitems d' = kds.nitems d \/
  kds.nitems d' <= kds.nrooms d \/
  (gpc g' = GReturned /\
   (exists th, In th (threads g) /\ tupitem_src th <> None) /\
   Forall2 (raised_nospace P) (threads g) (threads g')).
Proof.
  unfold slot_project, arithmetic_stairlike_add, reserve, atomicAdd.
  set (count := stairlike_total 0 _).
  destruct (count >? 0) eqn:Hc.
  - destruct (u32 (kds.nitems d + count) >? kds.nrooms d) eqn:Hf;
      intros [= <- <- <-]; simpl; right.
    + right. repeat apply conj; [reflexivity | | now apply raised_by_slot].
      apply positive_count_has_row. apply Z.gtb_lt in Hc. fold count. lia.
    + left. rewrite Z.gtb_ltb in Hf. apply Z.ltb_ge in Hf. exact Hf.
  - intros [= <- <- <-]. simpl. now left.
Qed.

Lemma capacity_step s0 s s' :
  structured P s0 s ->
  kds.nitems (kds_dst s) <= kds.nrooms (kds_dst s0) \/ overflowed P s0 s ->
  transition P s s' ->
  kds.nitems (kds_dst s') <= kds.nrooms (kds_dst s0) \/ overflowed P s0 s'.
Proof.
  intros [(_ & _ & _ & Hrooms & _) HF] HJ Ht.
  assert (Hkeep : kds.nitems (kds_dst s') = kds.nitems (kds_dst s) ->
                  kds.nitems (kds_dst s') <= kds.nrooms (kds_dst s0)
                  \/ overflowed P s0 s').
  { intros ->. destruct HJ; [now left | right].
    eapply overflowed_step; eauto. }
  assert (Hnew : forall gi g g',
    groups s !! gi = Some g -> gpc g = GCount ->
    groups s' = <[gi := g']> (groups s) ->
    gpc g' = GReturned /\
    (exists th, In th (threads g) /\ tupitem_src th <> None) /\
    Forall2 (raised_nospace P) (threads g) (threads g') ->
    overflowed P s0 s').
  { intros gi g g' Hg Hpc Hgs (Hpc' & Hrow & Hraised).
    destruct (Forall2_lookup_r _ _ _ _ _ HF Hg) as (g0 & Hg0 & Hr).
    apply group_rel_entry in Hr; [| assumption].
    exists gi, g0, g'. rewrite <- Hr. repeat apply conj; try assumption.
    rewrite Hgs. apply list_lookup_insert_eq.
    now apply lookup_lt_Some in Hg. }
  inversion Ht as [gi g d' g' Hg _ Hpc E | gi g np c d' g' Hg _ Hpc E
                  | gi g d' evs g' Hg _ Hpc E
                  | gi g l th up cnt evs th' Hg Hpc _ _ _]; subst s'.
  - destruct (row_count_capacity _ _ _ _ E) as [H | [H | H]].
    + apply Hkeep. exact H.
    + left. simpl. lia.
    + right. eapply Hnew; eauto.
  - apply Hkeep. simpl. apply row_usage_frame in E. tauto.
  - destruct (slot_project_capacity _ _ _ _ _ _ E) as [H | [H | H]].
    + apply Hkeep. exact H.
    + left. simpl. lia.
    + right. eapply Hnew; eauto.
  - apply Hkeep. reflexivity.
Qed.


End Capacity.

(** ** What [gpuscan_qual] hands to the projector *)

Section Dispatch.
Context (P : platform).
Variables (src : list kern_tupitem)
          (eval : Z -> kern_tupitem -> bool * StromError)
          (d : kds.t) (cell : StromError) (k : kern_resultbuf)
          (grid : list (list Z)).

Lemma gpuscan_qual_groups gi g0 :
  groups (gpuscan_qual src eval d cell k grid) !! gi = Some g0 ->
  exists ids, grid !! gi = Some ids /\
              g0 = mk_group (map (enter src eval) ids) GCount.
Proof.
  unfold gpuscan_qual. simpl. rewrite list_lookup_fmap.
  destruct (grid !! gi) as [ids |]; simpl; [| discriminate].
  intros [= <-]. eauto.
Qed.

Lemma enter_tupitem id :
  tupitem_src (enter src eval id) = fst (gpuscan_qual_tupitem src eval id) /\
  errcode (enter src eval id) = snd (gpuscan_qual_tupitem src eval id) /\
  scans (enter src eval id) = [] /\
  returned (enter src eval id) = false.
Proof.
  unfold enter. destruct (gpuscan_qual_tupitem src eval id). simpl. auto.
Qed.

(** A thread that goes on with a row has a clean context. *)
Lemma gpuscan_qual_tupitem_clean id tup :
  fst (gpuscan_qual_tupitem src eval id) = Some tup ->
  snd (gpuscan_qual_tupitem src eval id) = StromError_Success.
Proof.
  unfold gpuscan_qual_tupitem.
  destruct (id <? _); [| discriminate].
  destruct (src !! Z.to_nat id) as [t |]; [| discriminate].
  destruct (eval id t) as [[|] e]; simpl; [| discriminate].
  destruct e; simpl; try discriminate. reflexivity.
Qed.

Lemma thread_origin sched s gi g l th :
  exec P sched (gpuscan_qual src eval d cell k grid) = Some s ->
  groups s !! gi = Some g -> threads g !! l = Some th ->
  exists ids id,
    grid !! gi = Some ids /\ ids !! l = Some id /\
    thread_rel P (gpc g) (enter src eval id) th.
Proof.
  intros Hs Hg Hth.
  assert (Hst : structured P (gpuscan_qual src eval d cell k grid) s)
    by (apply structured_reachable;
        [apply gpuscan_qual_at_entry | now exists sched]).
  destruct Hst as [_ HF].
  destruct (Forall2_lookup_r _ _ _ _ _ HF Hg) as (g0 & Hg0 & Hr).
  destruct (Forall2_lookup_r _ _ _ _ _ Hr Hth) as (th0 & Hth0 & Hr0).
  apply gpuscan_qual_groups in Hg0 as (ids & Hids & ->).
  simpl in Hth0. rewrite list_lookup_fmap in Hth0.
  destruct (ids !! l) as [id |] eqn:Hid; [| discriminate].
  injection Hth0 as <-. eauto.
Qed.

(** No transition touches the result buffer. *)
Lemma kresults_unchanged sched s :
  exec P sched (gpuscan_qual src eval d cell k grid) = Some s -> kresults s = k.
Proof.
  intros Hs.
  assert (Hst : structured P (gpuscan_qual src eval d cell k grid) s)
    by (apply structured_reachable;
        [apply gpuscan_qual_at_entry | now exists sched]).
  destruct Hst as [(_ & _ & _ & _ & Hk) _]. exact Hk.
Qed.

(** C6 (amended): [gpuscan_qual] hands the [tupitem] each thread has
    settled on to the projector and to nothing else; it never calls
    [gpuscan_writeback_results], so at every point of every invocation the
    result buffer ([nitems], [rindex]) is as it was on entry. *)
Theorem gpuscan_qual_leaves_result_buffer sched s :
  exec P sched (gpuscan_qual src eval d cell k grid) = Some s ->
  kresults s = k /\
  forall gi g l th,
    groups s !! gi = Some g -> threads g !! l = Some th ->
    exists ids id,
      grid !! gi = Some ids /\ ids !! l = Some id /\
      tupitem_src th = fst (gpuscan_qual_tupitem src eval id).
Proof.
  intros Hs. split.
  - now apply (kresults_unchanged sched).
  - intros gi g l th Hg Hth.
    destruct (thread_origin sched s gi g l th Hs Hg Hth)
      as (ids & id & Hids & Hid & Hrel & _).
    exists ids, id. repeat apply conj; try assumption.
    rewrite Hrel. apply enter_tupitem.
Qed.

(** Within a group every thread has entered the prefix scan the same
    number of times, at every point of every invocation. *)
Lemma scans_in_step sched s gi g l1 l2 th1 th2 :
  exec P sched (gpuscan_qual src eval d cell k grid) = Some s ->
  groups s !! gi = Some g ->
  threads g !! l1 = Some th1 -> threads g !! l2 = Some th2 ->
  length (scans th1) = length (scans th2).
Proof.
  intros Hs Hg H1 H2.
  destruct (thread_origin sched s gi g l1 th1 Hs Hg H1)
    as (ids1 & id1 & _ & _ & _ & R1).
  destruct (thread_origin sched s gi g l2 th2 Hs Hg H2)
    as (ids2 & id2 & _ & _ & _ & R2).
  pose proof (enter_tupitem id1) as (_ & _ & S1 & _).
  pose proof (enter_tupitem id2) as (_ & _ & S2 & _).
  destruct (gpc g).
  - subst. now rewrite S1, S2.
  - destruct R1 as (_ & _ & ->), R2 as (_ & _ & ->). now rewrite S1, S2.
  - destruct R1 as (-> & _), R2 as (-> & _). now rewrite S1, S2.
  - destruct R1 as (_ & -> & _), R2 as (_ & -> & _). now rewrite S1, S2.
Qed.

End Dispatch.

(** C6, as stated, fails: four rows pass, the invocation completes, and the
    result buffer still has [nitems = 0], where
    [gpuscan_writeback_results] would have recorded four indices. *)
Lemma gpuscan_qual_skips_result_accumulator :
  let src := [Sample.item 24 1; Sample.item 24 2;
              Sample.item 24 3; Sample.item 24 4] in
  let s0 := gpuscan_qual src Sample.pass_all
              (kds.mk kds.KDS_FORMAT_ROW 2 4096 8 0 0)
              StromError_Success (fresh 4) (Sample.grid_of 4 1) in
  exists s, exec Sample.platform (Sample.in_order 4 1) s0 = Some s /\
            finished s = true /\
            nitems (kresults s) = 0 /\
            nitems (run (launch 4 [1; 1; 1; 1]) (fresh 4)) = 4 /\
            kresults s <> run (launch 4 [1; 1; 1; 1]) (fresh 4).
Proof.
  eexists. split; [vm_compute; reflexivity |].
  repeat apply conj; try reflexivity. vm_compute. discriminate.
Qed.

(** ** The values handed to the prefix scan *)

Section ScanValues.
Context (P : platform).

Lemma required_of_rowless_positive :
  0 < htup_offset_of P ->
  (forall x, x <= MAXALIGN P x) ->
  MAXALIGN P (htup_offset_of P) < 2 ^ 32 ->
  0 < required_of P None.
Proof.
  intros Hh Ha Hb. unfold required_of. simpl. rewrite Z.add_0_r.
  pose proof (Ha (htup_offset_of P)). rewrite u32_small; lia.
Qed.

(** C7, the failing input: a row-format invocation of one group whose only
    thread is out of range.  The thread enters the first scan with 0 and the
    second scan, the one over bytes, with
    [MAXALIGN(offsetof(kern_tupitem, htup) + 0)], which is not 0; the group
    reserves that many bytes of [usage] for a thread that writes nothing. *)
Theorem rowless_thread_reserves_bytes eval ncols len rooms cell k :
  0 <= rooms ->
  0 < htup_offset_of P ->
  (forall x, x <= MAXALIGN P x) ->
  MAXALIGN P (htup_offset_of P) < 2 ^ 32 ->
  let s0 := gpuscan_qual [] eval
              (kds.mk kds.KDS_FORMAT_ROW ncols len rooms 0 0) cell k [[0]] in
  exists s th v,
    exec P [Collective 0; Collective 0] s0 = Some s /\
    groups s = [mk_group [th] (GCommit 0 v)] /\
    tupitem_src th = None /\
    scans th = [0; v] /\
    0 < v /\
    kds.usage (kds_dst s) = v.
Proof.
  intros Hr Hh Ha Hb s0.
  pose proof (required_of_rowless_positive Hh Ha Hb) as Hv.
  assert (Hrange : 0 <= required_of P None < 2 ^ 32) by apply u32_range.
  assert (Hrooms : (0 >? rooms) = false)
    by (rewrite Z.gtb_ltb; apply Z.ltb_ge; lia).
  assert (Hpos : (required_of P None >? 0) = true)
    by (apply Z.gtb_lt; lia).
  set (v := required_of P None) in *.
  set (th := mk_kthread None StromError_Success 0 v 0 [0; v] false).
  exists (mk_state (kds.mk kds.KDS_FORMAT_ROW ncols len rooms 0 v) []
                   [mk_group [th] (GCommit 0 v)] cell k), th, v.
  split; [| repeat apply conj; [reflexivity | reflexivity | reflexivity
                               | exact Hv | reflexivity]].
  subst s0. unfold exec, step, gpuscan_qual, enter, gpuscan_qual_tupitem.
  simpl. unfold row_count, arithmetic_stairlike_add, reserve. simpl.
  change (u32 (0 + u32 (0 + 0))) with 0. rewrite Hrooms. simpl.
  unfold row_usage, arithmetic_stairlike_add, reserve, atomicAdd. simpl.
  fold v. rewrite ?Z.add_0_l, ?(u32_small v) by lia.
  rewrite Hpos. simpl. rewrite ?Z.add_0_l, ?(u32_small v) by lia.
  reflexivity.
Qed.

End ScanValues.

(** ** Who has written into the destination *)

Section Writers.
Context (P : platform).
Variable (s0 : state).
Hypothesis Hfresh : fresh_entry s0.

(** A thread that has returned belongs to a group past its first scan. *)
Lemma returned_not_waiting s gi g l th :
  structured P s0 s ->
  groups s !! gi = Some g -> threads g !! l = Some th ->
  returned th = true ->
  gpc g = GReturned \/ exists up cnt, gpc g = GCommit up cnt.
Proof.
  intros [_ HF] Hg Hth Hret.
  destruct (Forall2_lookup_r _ _ _ _ _ HF Hg) as (g0 & Hg0 & Hr).
  destruct (Forall2_lookup_r _ _ _ _ _ Hr Hth) as (th0 & Hth0 & Hr0).
  destruct (gpc g) eqn:Hpc; eauto.
  - destruct Hr0 as [_ ->]. destruct Hfresh as (_ & _ & Hf).
    destruct (Hf g0 th0) as [Hf0 _]; [| | congruence];
      apply list_elem_of_In; eapply list_elem_of_lookup_2; eassumption.
  - destruct Hr0 as (_ & Hf0 & _). congruence.
Qed.

Lemma slot_project_events who d g d' evs g' :
  slot_project P who d g = (d', evs, g') ->
  forall ev, In ev evs ->
    exists l th', writer_of ev = (who, l) /\ threads g' !! l = Some th' /\
                  returned th' = true /\ tupitem_src th' <> None.
Proof.
  unfold slot_project, arithmetic_stairlike_add.
  destruct (reserve _ _) as [base n']. intros [= <- <- <-] ev Hin.
  apply in_concat in Hin as (evl & Hevl & Hin).
  apply list_elem_of_In, elem_of_lookup_imap_1 in Hevl
    as (l & [th off] & -> & Hl).
  unfold slot_store in Hin. simpl in Hin.
  destruct (u32 (base + _) >? kds.nrooms d) eqn:Hf; [destruct Hin |].
  destruct (tupitem_src th) as [src |] eqn:Hsrc; [| destruct Hin].
  destruct Hin as [<- | []]. simpl.
  apply lookup_zip_with_Some in Hl as (th1 & off1 & [= <- <-] & Hth & Hoff).
  exists l, (slot_thread P base
               (stairlike_total 0 (map (fun th => has_row (tupitem_src th)) (threads g)))
               (kds.nrooms d) th off).
  split; [reflexivity |]. split.
  - apply lookup_zip_with_Some. eauto.
  - unfold slot_thread. rewrite Hf. simpl. split; [reflexivity | congruence].
Qed.

Lemma writers_returned_step s s' :
  structured P s0 s -> writers_returned s -> transition P s s' ->
  writers_returned s'.
Proof.
  intros Hst HW Ht.
  assert (Hold : forall gi g g',
            groups s !! gi = Some g ->
            (gpc g = GCount \/ exists np c, gpc g = GUsage np c) ->
            forall ev, In ev (stores s) ->
            exists g2 th,
              <[gi := g']> (groups s) !! fst (writer_of ev) = Some g2 /\
              threads g2 !! snd (writer_of ev) = Some th /\
              returned th = true /\ tupitem_src th <> None).
  { intros gi g g' Hg Hpc ev Hin.
    destruct (HW ev Hin) as (g2 & th & Hg2 & Hth & Hret & Hrow).
    exists g2, th. repeat apply conj; try assumption.
    rewrite list_lookup_insert_ne; [assumption |].
    intros ->. rewrite Hg in Hg2. injection Hg2 as <-.
    destruct (returned_not_waiting s _ _ _ _ Hst Hg Hth Hret)
      as [Hx | (up & cnt & Hx)];
      destruct Hpc as [Hy | (np & c & Hy)]; congruence. }
  destruct Ht as [gi g d' g' Hg _ Hpc E | gi g np c d' g' Hg _ Hpc E
                 | gi g d' evs g' Hg _ Hpc E
                 | gi g l th up cnt evs th' Hg Hpc Hth Hret E];
    intros ev Hin; simpl in *.
  - eapply Hold; eauto.
  - eapply Hold; eauto.
  - apply in_app_or in Hin as [Hin | Hin]; [eapply Hold; eauto |].
    destruct (slot_project_events _ _ _ _ _ _ E ev Hin)
      as (l & th' & -> & Hth' & Hret' & Hrow'). simpl.
    exists g', th'. repeat apply conj; try assumption.
    apply list_lookup_insert_eq. now apply lookup_lt_Some in Hg.
  - apply row_commit_thread in E as Hth'.
    destruct Hth' as (Ht & _ & _ & _ & _ & Hret' & _).
    apply in_app_or in Hin as [Hin | Hin].
    + destruct (HW ev Hin) as (g2 & th2 & Hg2 & Hth2 & Hret2 & Hrow2).
      destruct (decide (gi = fst (writer_of ev))) as [Hgi | Hgi].
      * rewrite <- Hgi in *. rewrite Hg in Hg2. injection Hg2 as <-.
        exists (mk_group (<[l := th']> (threads g)) (gpc g)), th2.
        repeat apply conj; try assumption.
        -- apply list_lookup_insert_eq. now apply lookup_lt_Some in Hg.
        -- simpl. rewrite list_lookup_insert_ne; [assumption |].
           intros ->. congruence.
      * exists g2, th2. repeat apply conj; try assumption.
        now rewrite list_lookup_insert_ne.
    + destruct (row_commit_events _ _ _ _ _ _ _ _ E)
        as [-> | (_ & src & bytes & Hsrc & ->)]; [destruct Hin |].
      exists (mk_group (<[l := th']> (threads g)) (gpc g)), th'.
      assert (writer_of ev = (gi, l))
        by (destruct Hin as [<- | [<- | []]]; reflexivity).
      rewrite H. simpl. repeat apply conj; try assumption.
      * apply list_lookup_insert_eq. now apply lookup_lt_Some in Hg.
      * apply list_lookup_insert_eq. now apply lookup_lt_Some in Hth.
      * congruence.
Qed.

Lemma writers_returned_reachable s :
  reachable P s0 s -> structured P s0 s /\ writers_returned s.
Proof.
  apply (reachable_invariant P
           (fun s => structured P s0 s /\ writers_returned s)).
  - split; [apply structured_entry, Hfresh |].
    intros ev Hin. destruct Hfresh as (_ & Hs & _). rewrite Hs in Hin.
    destruct Hin.
  - intros s1 s2 [Hst HW] Ht. split.
    + eapply structured_step; eauto.
    + eapply writers_returned_step; eauto.
Qed.

(** A thread that has not returned has written nothing yet. *)
Lemma running_wrote_nothing s gi g l th :
  reachable P s0 s ->
  groups s !! gi = Some g -> threads g !! l = Some th ->
  returned th = false ->
  wrote_nothing (gi, l) (stores s).
Proof.
  intros Hs Hg Hth Hret ev Hin Hw.
  destruct (writers_returned_reachable s Hs) as [_ HW].
  destruct (HW ev Hin) as (g2 & th2 & Hg2 & Hth2 & Hret2 & _).
  rewrite Hw in *. simpl in *. congruence.
Qed.

(** A thread without a row never writes. *)
Lemma rowless_wrote_nothing s gi g l th :
  reachable P s0 s ->
  groups s !! gi = Some g -> threads g !! l = Some th ->
  tupitem_src th = None ->
  wrote_nothing (gi, l) (stores s).
Proof.
  intros Hs Hg Hth Hnone ev Hin Hw.
  destruct (writers_returned_reachable s Hs) as [_ HW].
  destruct (HW ev Hin) as (g2 & th2 & Hg2 & Hth2 & _ & Hrow).
  rewrite Hw in *. simpl in *. congruence.
Qed.

(** Once a thread has returned, no transition touches it and nothing more
    is written in its name. *)
Lemma returned_thread_step s s' gi g l th :
  structured P s0 s -> transition P s s' ->
  groups s !! gi = Some g -> threads g !! l = Some th ->
  returned th = true ->
  (exists g', groups s' !! gi = Some g' /\ threads g' !! l = Some th) /\
  (wrote_nothing (gi, l) (stores s) -> wrote_nothing (gi, l) (stores s')).
Proof.
  intros Hst Ht Hg Hth Hret.
  pose proof (returned_not_waiting s gi g l th Hst Hg Hth Hret) as Hpast.
  assert (Hother : forall gj g2 g2',
            groups s !! gj = Some g2 ->
            (gpc g2 = GCount \/ exists np c, gpc g2 = GUsage np c) ->
            exists g', <[gj := g2']> (groups s) !! gi = Some g' /\
                       threads g' !! l = Some th).
  { intros gj g2 g2' Hg2 Hpc2. exists g. split; [| assumption].
    rewrite list_lookup_insert_ne; [assumption |].
    intros ->. rewrite Hg in Hg2. injection Hg2 as <-.
    destruct Hpast as [Hx | (up & cnt & Hx)];
      destruct Hpc2 as [Hy | (np & c & Hy)]; congruence. }
  destruct Ht as [gj g2 d' g2' Hg2 _ Hpc E | gj g2 np c d' g2' Hg2 _ Hpc E
                 | gj g2 d' evs g2' Hg2 _ Hpc E
                 | gj g2 l2 th2 up cnt evs th2' Hg2 Hpc Hth2 Hret2 E];
    simpl.
  - split; [eapply Hother; eauto | tauto].
  - split; [eapply Hother; eauto | tauto].
  - split; [eapply Hother; eauto |].
    intros Hw ev Hin. apply in_app_or in Hin as [Hin | Hin]; [now apply Hw |].
    destruct (slot_project_events _ _ _ _ _ _ E ev Hin) as (l' & _ & -> & _).
    intros [= -> ->]. rewrite Hg in Hg2. injection Hg2 as <-.
    destruct Hpast as [Hx | (up & cnt & Hx)]; congruence.
  - assert (Hne : (gj, l2) <> (gi, l)).
    { intros [= -> ->]. rewrite Hg in Hg2. injection Hg2 as <-. congruence. }
    split.
    + destruct (decide (gj = gi)) as [-> | Hgi].
      * rewrite Hg in Hg2. injection Hg2 as <-.
        exists (mk_group (<[l2 := th2']> (threads g)) (gpc g)). split.
        -- apply list_lookup_insert_eq. now apply lookup_lt_Some in Hg.
        -- simpl. rewrite list_lookup_insert_ne; [assumption | congruence].
      * exists g. split; [| assumption]. now rewrite list_lookup_insert_ne.
    + intros Hw ev Hin. apply in_app_or in Hin as [Hin | Hin]; [now apply Hw |].
      destruct (row_commit_events _ _ _ _ _ _ _ _ E)
        as [-> | (_ & src & bytes & Hsrc & ->)]; [destruct Hin |].
      destruct Hin as [<- | [<- | []]]; exact Hne.
Qed.

Lemma returned_thread_forever sched : forall s gi g l th s',
  reachable P s0 s ->
  groups s !! gi = Some g -> threads g !! l = Some th ->
  returned th = true ->
  wrote_nothing (gi, l) (stores s) ->
  exec P sched s = Some s' ->
  wrote_nothing (gi, l) (stores s') /\
  exists g', groups s' !! gi = Some g' /\ threads g' !! l = Some th.
Proof.
  induction sched as [| a sched IH]; intros s gi g l th s' Hs Hg Hth Hret Hw;
    simpl.
  - intros [= <-]. eauto.
  - destruct (step P s a) as [s1 |] eqn:Ha; [| discriminate].
    destruct (writers_returned_reachable s Hs) as [Hst _].
    destruct (returned_thread_step s s1 gi g l th Hst
                (step_transition P _ _ _ Ha) Hg Hth Hret)
      as [(g1 & Hg1 & Hth1) Hw1].
    apply (IH s1 gi g1 l th s'); auto.
    eapply reachable_step; eauto.
Qed.

End Writers.

(** ** The arena of the row format *)

Section Arena.
Context (P : platform).

Lemma has_row_range (o : option kern_tupitem) : 0 <= has_row o <= 1.
Proof. destruct o; simpl; lia. Qed.

Lemma has_row_positive (o : option kern_tupitem) :
  o <> None <-> has_row o = 1.
Proof. destruct o; simpl; split; intros; try congruence; lia. Qed.

Lemma required_of_range o : 0 <= required_of P o < 2 ^ 32.
Proof. apply u32_range. Qed.

Lemma rows_of_nonneg g : 0 <= rows_of g.
Proof. apply zsum_map_nonneg. intros th. apply has_row_range. Qed.

Lemma bytes_of_nonneg g : 0 <= bytes_of P g.
Proof. apply zsum_map_nonneg. intros th. apply required_of_range. Qed.

Lemma counted_rows_range g : 0 <= counted_rows g <= rows_of g.
Proof. unfold counted_rows. pose proof (rows_of_nonneg g). destruct (gpc g); lia. Qed.

Lemma reserved_bytes_range g : 0 <= reserved_bytes P g <= bytes_of P g.
Proof.
  unfold reserved_bytes. pose proof (bytes_of_nonneg g). destruct (gpc g); lia.
Qed.

Lemma counted_nonneg gs : 0 <= counted gs.
Proof. apply zsum_map_nonneg. intros g. apply counted_rows_range. Qed.

Lemma reserved_nonneg gs : 0 <= reserved P gs.
Proof. apply zsum_map_nonneg. intros g. apply reserved_bytes_range. Qed.

(** A group that has not made a reservation yet still fits under the
    total. *)
Lemma counted_room gs gi g :
  gs !! gi = Some g -> gpc g = GCount ->
  counted gs + rows_of g <= total_rows gs.
Proof.
  intros Hg Hpc. unfold counted, total_rows.
  revert gi Hg. induction gs as [| a gs IH]; intros [| gi]; simpl;
    try discriminate.
  - intros [= ->]. unfold counted_rows at 1. rewrite Hpc.
    pose proof (zsum_map_le counted_rows rows_of gs
                  (fun g => proj2 (counted_rows_range g))). lia.
  - intros H. specialize (IH gi H).
    pose proof (counted_rows_range a). lia.
Qed.

Lemma reserved_room gs gi g :
  gs !! gi = Some g -> reserved_bytes P g = 0 ->
  reserved P gs + bytes_of P g <= total_bytes P gs.
Proof.
  intros Hg Hpc. unfold reserved, total_bytes.
  revert gi Hg. induction gs as [| a gs IH]; intros [| gi]; simpl;
    try discriminate.
  - intros [= ->]. rewrite Hpc.
    pose proof (zsum_map_le (reserved_bytes P) (bytes_of P) gs
                  (fun g => proj2 (reserved_bytes_range g))). lia.
  - intros H. specialize (IH gi H).
    pose proof (reserved_bytes_range a). lia.
Qed.

(** The rows and bytes of a group do not change: [tupitem_src] is fixed. *)
Lemma thread_rel_tupitem pc th0 th :
  thread_rel P pc th0 th -> tupitem_src th = tupitem_src th0.
Proof. now intros [H _]. Qed.

Lemma group_rel_sums g0 g :
  group_rel P g0 g -> rows_of g = rows_of g0 /\ bytes_of P g = bytes_of P g0.
Proof.
  unfold group_rel, rows_of, bytes_of. intros H. split;
    apply zsum_map_ext_Forall2; (eapply Forall2_impl; [exact H |]);
    intros th0 th Hr; simpl; now rewrite (thread_rel_tupitem _ _ _ Hr).
Qed.

Lemma structured_totals s0 s :
  structured P s0 s ->
  total_rows (groups s) = total_rows (groups s0) /\
  total_bytes P (groups s) = total_bytes P (groups s0).
Proof.
  intros [_ HF]. unfold total_rows, total_bytes. split;
    apply zsum_map_ext_Forall2; (eapply Forall2_impl; [exact HF |]);
    intros g0 g Hr; simpl; now apply group_rel_sums.
Qed.

Lemma structured_thread s0 s gi g l th :
  structured P s0 s ->
  groups s !! gi = Some g -> threads g !! l = Some th ->
  exists g0 th0, groups s0 !! gi = Some g0 /\ threads g0 !! l = Some th0 /\
                 thread_rel P (gpc g) th0 th.
Proof.
  intros [_ HF] Hg Hth.
  destruct (Forall2_lookup_r _ _ _ _ _ HF Hg) as (g0 & Hg0 & Hr).
  destruct (Forall2_lookup_r _ _ _ _ _ Hr Hth) as (th0 & Hth0 & Hr0).
  eauto.
Qed.

(** *** The two reservations, when nothing wraps *)

Lemma row_count_nowrap d g d' g' :
  0 <= kds.nitems d -> kds.nitems d + rows_of g < 2 ^ 32 ->
  row_count P d g = (d', g') ->
  kds.nitems d' = kds.nitems d + rows_of g /\
  Forall2 (fun th th' =>
             tupitem_src th' <> None ->
             0 <= item_index th' /\ item_index th' + 1 <= kds.nitems d')
          (threads g) (threads g').
Proof.
  assert (Hsrc : forall np fails th off,
            tupitem_src (row_count_thread P np fails th off) = tupitem_src th)
    by (intros np [|] th off; reflexivity).
  intros Hn Hlt. unfold row_count, arithmetic_stairlike_add.
  rewrite stairlike_total_zsum. fold (rows_of g).
  pose proof (rows_of_nonneg g) as Hr.
  rewrite (u32_small (rows_of g)) by lia.
  unfold reserve, atomicAdd.
  destruct (Z.gtb_spec (rows_of g) 0) as [Hpos | Hzero];
    intros [= <- <-]; simpl.
  - rewrite (u32_small (kds.nitems d + rows_of g)) by lia.
    split; [reflexivity |].
    apply scan_Forall2; [intros; apply has_row_range | lia
                        | fold (rows_of g); lia |].
    intros th off _ Hoff Hub Hrow. fold (rows_of g) in Hub.
    rewrite Hsrc in Hrow.
    apply has_row_positive in Hrow. rewrite Hrow in Hub.
    assert (E : item_index (row_count_thread P (kds.nitems d)
                  (kds.nitems d + rows_of g >? kds.nrooms d) th off)
                = u32 (kds.nitems d + off))
      by (unfold row_count_thread; destruct (_ >? _); reflexivity).
    rewrite E, u32_small; lia.
  - assert (E : rows_of g = 0) by lia. rewrite E.
    split; [lia |].
    apply scan_Forall2; [intros; apply has_row_range | lia
                        | fold (rows_of g); lia |].
    intros th off _ Hoff Hub Hrow. fold (rows_of g) in Hub.
    rewrite Hsrc in Hrow.
    apply has_row_positive in Hrow. lia.
Qed.

Lemma row_usage_nowrap d g d' g' :
  0 <= kds.usage d -> kds.usage d + bytes_of P g < 2 ^ 32 ->
  row_usage P d g = (d', g') ->
  kds.usage d' = kds.usage d + bytes_of P g /\
  (exists up, gpc g' = GCommit up (bytes_of P g) /\ 0 <= up /\
              up + bytes_of P g <= kds.usage d' /\
              (0 < bytes_of P g -> up = kds.usage d) /\
              (bytes_of P g <= 0 -> up = 0)) /\
  Forall2 (fun th th' =>
             tupitem_src th' = tupitem_src th /\
             item_index th' = item_index th /\
             0 <= offset th' /\ 0 <= required th' /\
             offset th' + required th' <= bytes_of P g)
          (threads g) (threads g').
Proof.
  intros Hn Hlt. unfold row_usage, arithmetic_stairlike_add.
  rewrite stairlike_total_zsum. fold (bytes_of P g).
  pose proof (bytes_of_nonneg g) as Hr.
  rewrite (u32_small (bytes_of P g)) by lia.
  assert (HF : Forall2 (fun th th' =>
             tupitem_src th' = tupitem_src th /\
             item_index th' = item_index th /\
             0 <= offset th' /\ 0 <= required th' /\
             offset th' + required th' <= bytes_of P g)
          (threads g)
          (zip_with (row_usage_thread P) (threads g)
             (stairlike_offsets 0
                (map (fun th => required_of P (tupitem_src th)) (threads g))))).
  { apply scan_Forall2; [intros; apply required_of_range | lia
                        | fold (bytes_of P g); lia |].
    intros th off _ Hoff Hub. fold (bytes_of P g) in Hub. simpl in Hub |- *.
    pose proof (required_of_range (tupitem_src th)).
    repeat apply conj; try reflexivity; lia. }
  unfold reserve, atomicAdd.
  destruct (Z.gtb_spec (bytes_of P g) 0) as [Hpos | Hzero];
    intros [= <- <-]; simpl.
  - rewrite (u32_small (kds.usage d + bytes_of P g)) by lia.
    split; [reflexivity |]. split; [| exact HF].
    exists (kds.usage d). repeat apply conj; try reflexivity; lia.
  - split; [lia |]. split; [| exact HF].
    exists 0. repeat apply conj; try reflexivity; lia.
Qed.

Lemma row_usage_pairwise d g d' g' l1 l2 th1 th2 :
  kds.usage d + bytes_of P g < 2 ^ 32 -> 0 <= kds.usage d ->
  row_usage P d g = (d', g') ->
  (l1 < l2)%nat ->
  threads g' !! l1 = Some th1 -> threads g' !! l2 = Some th2 ->
  offset th1 + required th1 <= offset th2.
Proof.
  intros Hlt Hn. unfold row_usage, arithmetic_stairlike_add.
  destruct (reserve _ _) as [up u']. intros [= <- <-] Hl. simpl.
  pose proof (bytes_of_nonneg g) as Hb. unfold bytes_of in *.
  intros H1 H2.
  apply scan_lookup in H1 as (x1 & Hx1 & ->);
    [| intros; apply required_of_range | lia | lia].
  apply scan_lookup in H2 as (x2 & Hx2 & ->);
    [| intros; apply required_of_range | lia | lia].
  simpl.
  pose proof (zsum_take_step (fun th => required_of P (tupitem_src th))
                (threads g)
                (fun x => proj1 (required_of_range (tupitem_src x)))
                l1 l2 x1 Hx1 Hl).
  simpl in H. lia.
Qed.

(** *** The invariant *)

Lemma thread_bounds_mono d d' g th :
  kds.nitems d <= kds.nitems d' -> kds.usage d <= kds.usage d' ->
  thread_bounds d g th -> thread_bounds d' g th.
Proof.
  unfold thread_bounds. intros Hn Hu. destruct (gpc g); try tauto.
  - intros H Hrow. specialize (H Hrow). lia.
  - intros (H & ?). split; [| lia]. intros Hrow. specialize (H Hrow). lia.
Qed.

(** A justification survives a transition that keeps the frame, does not
    lower [usage], and does not bring a group to the commit phase. *)
Lemma tuple_guard_keep d d' gs gi g g' o :
  kds.ncols d' = kds.ncols d -> kds.length d' = kds.length d ->
  kds.usage d <= kds.usage d' ->
  gs !! gi = Some g ->
  (forall up cnt, gpc g' = GCommit up cnt ->
     (gpc g = GCommit up cnt /\
      forall th', In th' (threads g') -> tupitem_src th' <> None ->
        exists th, In th (threads g) /\ tupitem_src th <> None /\
                   item_index th = item_index th')
     \/ (kds.usage d <= up)
     \/ (forall th', In th' (threads g') -> tupitem_src th' = None)) ->
  tuple_guard P d gs o -> tuple_guard P d' (<[gi := g']> gs) o.
Proof.
  intros Hc Hl Hu Hg Hg' (nread & ulim & H1 & H2 & H3 & H4).
  exists nread, ulim. rewrite Hc, Hl. repeat apply conj; try lia.
  intros gj g2 up cnt Hg2 Hpc.
  apply list_lookup_insert_Some in Hg2 as [(-> & <- & _) | (Hne & Hg2)].
  - destruct (Hg' up cnt Hpc) as [(Hpc0 & Hsim) | [Hup | Hnone]].
    + destruct (H4 gj g up cnt Hg Hpc0) as [Hleft | Hright]; [left | now right].
      intros th' Hin Hrow. destruct (Hsim th' Hin Hrow) as (th & Hin0 & Hrow0 & <-).
      now apply Hleft.
    + right. lia.
    + left. intros th' Hin Hrow. now rewrite (Hnone th' Hin) in Hrow.
  - exact (H4 gj g2 up cnt Hg2 Hpc).
Qed.

Section Steps.
Variables (s0 s : state).
Hypothesis Hready : arena_ready P s0.
Hypothesis Hst : structured P s0 s.
Hypothesis Hinv : arena_inv P s.

Lemma arena_row_count gi g d' g' cell' :
  groups s !! gi = Some g -> gpc g = GCount ->
  row_count P (kds_dst s) g = (d', g') ->
  arena_inv P (mk_state d' (stores s) (<[gi := g']> (groups s)) cell' (kresults s)).
Proof.
  intros Hg Hpc E. destruct Hinv as [In_ Iu It Ii Ig Ia].
  pose proof (counted_room _ _ _ Hg Hpc) as Hroom.
  destruct (structured_totals _ _ Hst) as [Htr _].
  pose proof (ar_rows _ _ Hready) as Hrows.
  pose proof (counted_nonneg (groups s)) as Hc0.
  pose proof (rows_of_nonneg g) as Hr0.
  destruct (row_count_nowrap (kds_dst s) g d' g') as [Hn HF];
    [lia | lia | exact E |].
  destruct (row_count_frame _ _ _ _ _ E) as (_ & Hnc & Hlen & _ & Hus).
  destruct (row_count_threads _ _ _ _ _ E) as [Hpc' HR].
  assert (Hrows' : rows_of g' = rows_of g).
  { apply zsum_map_ext_Forall2. eapply Forall2_impl; [exact HR |].
    intros th th' Hr. simpl. now rewrite (thread_rel_tupitem _ _ _ Hr). }
  assert (Hc1 : counted_rows g = 0) by (unfold counted_rows; now rewrite Hpc).
  assert (Hc2 : counted_rows g' = rows_of g')
    by (unfold counted_rows; destruct Hpc' as [-> | (np & c & ->)]; reflexivity).
  assert (Hb1 : reserved_bytes P g = 0)
    by (unfold reserved_bytes; now rewrite Hpc).
  assert (Hb2 : reserved_bytes P g' = 0)
    by (unfold reserved_bytes; destruct Hpc' as [-> | (np & c & ->)]; reflexivity).
  constructor; simpl.
  - rewrite Hn, In_. unfold counted. rewrite (zsum_map_insert _ _ _ _ _ Hg). lia.
  - rewrite Hus, Iu. unfold reserved. rewrite (zsum_map_insert _ _ _ _ _ Hg). lia.
  - intros gj g2 l th Hg2 Hth.
    apply list_lookup_insert_Some in Hg2 as [(-> & <- & _) | (Hne & Hg2)].
    + unfold thread_bounds.
      destruct Hpc' as [-> | (np & c & ->)]; [exact I |].
      destruct (Forall2_lookup_r _ _ _ _ _ HF Hth) as (th0 & _ & Hb).
      exact Hb.
    + eapply thread_bounds_mono; [| | exact (It gj g2 l th Hg2 Hth)]; lia.
  - intros w i o Hin. specialize (Ii w i o Hin). lia.
  - intros w o b Hin.
    apply (tuple_guard_keep (kds_dst s) d' (groups s) gi g g' o);
      try assumption; [lia | | exact (Ig w o b Hin)].
    intros up cnt Hc. destruct Hpc' as [Hx | (np & c & Hx)]; congruence.
  - intros w i o w' o' bytes H1 H2. unfold index_end. rewrite Hnc.
    exact (Ia w i o w' o' bytes H1 H2).
Qed.

Lemma row_required_positive gi g l th :
  groups s !! gi = Some g -> threads g !! l = Some th ->
  tupitem_src th <> None -> 0 < required_of P (tupitem_src th).
Proof.
  intros Hg Hth Hrow.
  destruct (structured_thread _ _ _ _ _ _ Hst Hg Hth)
    as (g0 & th0 & Hg0 & Hth0 & Hr).
  rewrite (thread_rel_tupitem _ _ _ Hr) in *.
  apply (ar_required _ _ Hready g0 th0); [| | assumption];
    apply list_elem_of_In; eapply list_elem_of_lookup_2; eassumption.
Qed.

Lemma arena_row_usage gi g np c d' g' cell' :
  groups s !! gi = Some g -> gpc g = GUsage np c ->
  row_usage P (kds_dst s) g = (d', g') ->
  arena_inv P (mk_state d' (stores s) (<[gi := g']> (groups s)) cell' (kresults s)).
Proof.
  intros Hg Hpc E. destruct Hinv as [In_ Iu It Ii Ig Ia].
  assert (Hb1 : reserved_bytes P g = 0)
    by (unfold reserved_bytes; now rewrite Hpc).
  pose proof (reserved_room _ _ _ Hg Hb1) as Hroom.
  destruct (structured_totals _ _ Hst) as [_ Htb].
  pose proof (ar_bytes _ _ Hready) as Hbytes.
  pose proof (reserved_nonneg (groups s)) as Hc0.
  pose proof (bytes_of_nonneg g) as Hr0.
  destruct (row_usage_nowrap (kds_dst s) g d' g')
    as (Hu & (up & Hpc' & Hup0 & Hup1 & Hup2 & _) & HF);
    [lia | lia | exact E |].
  destruct (row_usage_frame _ _ _ _ _ E) as (_ & Hnc & Hlen & _ & Hni).
  assert (Hrows' : rows_of g' = rows_of g).
  { apply zsum_map_ext_Forall2. eapply Forall2_impl; [exact HF |].
    intros th th' (Ht & _). simpl. now rewrite Ht. }
  assert (Hbytes' : bytes_of P g' = bytes_of P g).
  { apply zsum_map_ext_Forall2. eapply Forall2_impl; [exact HF |].
    intros th th' (Ht & _). simpl. now rewrite Ht. }
  assert (Hc1 : counted_rows g = rows_of g)
    by (unfold counted_rows; now rewrite Hpc).
  assert (Hc2 : counted_rows g' = rows_of g')
    by (unfold counted_rows; now rewrite Hpc').
  assert (Hb2 : reserved_bytes P g' = bytes_of P g')
    by (unfold reserved_bytes; now rewrite Hpc').
  constructor; simpl.
  - rewrite Hni, In_. unfold counted. rewrite (zsum_map_insert _ _ _ _ _ Hg). lia.
  - rewrite Hu, Iu. unfold reserved. rewrite (zsum_map_insert _ _ _ _ _ Hg). lia.
  - intros gj g2 l th Hg2 Hth.
    apply list_lookup_insert_Some in Hg2 as [(-> & <- & _) | (Hne & Hg2)].
    + unfold thread_bounds. rewrite Hpc'.
      destruct (Forall2_lookup_r _ _ _ _ _ HF Hth)
        as (th0 & Hth0 & Ht & Hi & Ho & Hq & Hoq).
      pose proof (It gj g l th0 Hg Hth0) as Hb. unfold thread_bounds in Hb.
      rewrite Hpc in Hb. rewrite Ht, Hi, Hni.
      repeat apply conj; try assumption; lia.
    + eapply thread_bounds_mono; [| | exact (It gj g2 l th Hg2 Hth)]; lia.
  - intros w i o Hin. specialize (Ii w i o Hin). lia.
  - intros w o b Hin.
    apply (tuple_guard_keep (kds_dst s) d' (groups s) gi g g' o);
      try assumption; [lia | | exact (Ig w o b Hin)].
    intros up' cnt' Hc. rewrite Hpc' in Hc. injection Hc as <- <-.
    right. destruct (Z.lt_ge_cases 0 (bytes_of P g)) as [Hpos | Hzero].
    + left. rewrite (Hup2 Hpos). lia.
    + right. intros th' Hin'.
      destruct (tupitem_src th') eqn:Hrow; [exfalso | reflexivity].
      apply list_elem_of_In, list_elem_of_lookup in Hin' as [l Hl].
      destruct (Forall2_lookup_r _ _ _ _ _ HF Hl) as (th & Hth & Ht & _).
      assert (Hpos : 0 < required_of P (tupitem_src th))
        by (apply (row_required_positive gi g l th Hg Hth); congruence).
      pose proof (zsum_map_lookup_le
                    (fun th => required_of P (tupitem_src th)) (threads g) l th
                    (fun y => proj1 (required_of_range (tupitem_src y))) Hth)
        as Hle.
      fold (bytes_of P g) in Hle. simpl in Hle. lia.
  - intros w i o w' o' bytes H1 H2. unfold index_end. rewrite Hnc.
    exact (Ia w i o w' o' bytes H1 H2).
Qed.

Lemma arena_commit gi g l th up cnt evs th' cell' :
  groups s !! gi = Some g -> gpc g = GCommit up cnt ->
  threads g !! l = Some th ->
  row_commit P (gi, l) (kds_dst s) up cnt th = (evs, th') ->
  arena_inv P (mk_state (kds_dst s) (stores s ++ evs)
                 (<[gi := mk_group (<[l := th']> (threads g)) (gpc g)]> (groups s))
                 cell' (kresults s)).
Proof.
  intros Hg Hpc Hth E. destruct Hinv as [In_ Iu It Ii Ig Ia].
  destruct (row_commit_thread _ _ _ _ _ _ _ _ E)
    as (Ht & _ & Hq & Hi & Ho & _ & _).
  set (g' := mk_group (<[l := th']> (threads g)) (gpc g)).
  assert (Hrows' : rows_of g' = rows_of g).
  { unfold rows_of, g'. simpl. rewrite (zsum_map_insert _ _ _ _ _ Hth).
    rewrite Ht. lia. }
  assert (Hbytes' : bytes_of P g' = bytes_of P g).
  { unfold bytes_of, g'. simpl. rewrite (zsum_map_insert _ _ _ _ _ Hth).
    rewrite Ht. lia. }
  assert (Hc : counted_rows g' = counted_rows g)
    by (unfold counted_rows; simpl; now rewrite Hrows').
  assert (Hb : reserved_bytes P g' = reserved_bytes P g)
    by (unfold reserved_bytes; simpl; now rewrite Hbytes').
  assert (Hthreads : forall gj g2 l2 th2,
             <[gi := g']> (groups s) !! gj = Some g2 ->
             threads g2 !! l2 = Some th2 ->
             thread_bounds (kds_dst s) g2 th2).
  { intros gj g2 l2 th2 Hg2 Hth2.
    apply list_lookup_insert_Some in Hg2 as [(-> & <- & _) | (Hne & Hg2)];
      [| exact (It gj g2 l2 th2 Hg2 Hth2)].
    simpl in Hth2.
    apply list_lookup_insert_Some in Hth2 as [(-> & <- & _) | (Hne & Hth2)].
    - pose proof (It gj g l2 th Hg Hth) as Hbd. unfold thread_bounds in *.
      simpl. rewrite Hpc in *. now rewrite Ht, Hq, Hi, Ho.
    - pose proof (It gj g l2 th2 Hg Hth2) as Hbd. unfold thread_bounds in *.
      simpl. exact Hbd. }
  assert (Hguard : forall o, tuple_guard P (kds_dst s) (groups s) o ->
                             tuple_guard P (kds_dst s) (<[gi := g']> (groups s)) o).
  { intros o.
    apply (tuple_guard_keep (kds_dst s) (kds_dst s) (groups s) gi g g' o
             eq_refl eq_refl (Z.le_refl _) Hg).
    intros up' cnt' Hpc'. left. split; [exact Hpc' |].
    intros th2 Hin Hrow. simpl in Hin. apply in_insert in Hin as [-> | Hin].
    - exists th. repeat apply conj; [| congruence | congruence].
      apply list_elem_of_In. eapply list_elem_of_lookup_2. eassumption.
    - exists th2. auto. }
  destruct (row_commit_events _ _ _ _ _ _ _ _ E)
    as [-> | (Hspace & src & bytes & Hsrc & ->)].
  { rewrite app_nil_r. constructor; simpl; try assumption.
    - rewrite In_. unfold counted. rewrite (zsum_map_insert _ _ _ _ _ Hg). lia.
    - rewrite Iu. unfold reserved. rewrite (zsum_map_insert _ _ _ _ _ Hg). lia.
    - intros w o b Hin. apply Hguard, (Ig w o b Hin). }
  (* the thread commits a tuple and its index entry *)
  pose proof (It gi g l th Hg Hth) as Hbd. unfold thread_bounds in Hbd.
  rewrite Hpc in Hbd.
  destruct Hbd as (Hidx & Hup0 & Hoff0 & Hreq0 & Hoq & Huse).
  destruct Hidx as [Hi0 Hi1]; [congruence |].
  destruct Hst as [(_ & Hnc & Hlen & _) _].
  pose proof (ar_head _ _ Hready) as Hhead. rewrite <- Hnc in Hhead.
  pose proof (ar_length _ _ Hready) as Hlength. rewrite <- Hlen in Hlength.
  pose proof (counted_nonneg (groups s)) as Hn0. rewrite <- In_ in Hn0.
  pose proof (ar_align _ _ Hready (4 * kds.nitems (kds_dst s)) ltac:(lia))
    as Halign.
  unfold row_no_space in Hspace. rewrite Z.gtb_ltb in Hspace.
  apply Z.ltb_ge in Hspace.
  set (head := KERN_DATA_STORE_HEAD_LENGTH P (kds.ncols (kds_dst s))) in *.
  assert (Hoff : htup_offset_at (kds_dst s) up th
                 = kds.length (kds_dst s) - (up + offset th + required th)).
  { unfold htup_offset_at. rewrite (u32_small (up + _ + _)) by lia.
    rewrite u32_small; lia. }
  rewrite Hoff in *.
  set (o_t := kds.length (kds_dst s) - (up + offset th + required th)) in *.
  assert (Hnew : head + 4 * kds.nitems (kds_dst s) <= o_t) by (unfold o_t; lia).
  constructor; simpl.
  - rewrite In_. unfold counted. rewrite (zsum_map_insert _ _ _ _ _ Hg). lia.
  - rewrite Iu. unfold reserved. rewrite (zsum_map_insert _ _ _ _ _ Hg). lia.
  - exact Hthreads.
  - intros w i o Hin. apply in_app_or in Hin as [Hin | Hin]; [eauto |].
    simpl in Hin. destruct Hin as [Hin | [Hin | []]]; [discriminate |].
    injection Hin as <- <- <-. lia.
  - intros w o b Hin. apply in_app_or in Hin as [Hin | Hin];
      [apply Hguard, (Ig w o b Hin) |].
    simpl in Hin. destruct Hin as [Hin | [Hin | []]]; [| discriminate].
    injection Hin as <- <- <-.
    exists (kds.nitems (kds_dst s)), (up + cnt). fold head.
    repeat apply conj; [lia | unfold o_t; lia | lia |].
    intros gj g2 up2 cnt2 Hg2 Hpc2. left. intros th2 Hin Hrow.
    apply list_elem_of_In, list_elem_of_lookup in Hin as [l2 Hl2].
    pose proof (Hthreads gj g2 l2 th2 Hg2 Hl2) as Hbd.
    unfold thread_bounds in Hbd. rewrite Hpc2 in Hbd.
    destruct Hbd as (Hidx & _). specialize (Hidx Hrow). lia.
  - intros w i o w' o' b Hi' Ht'. unfold index_end. fold head.
    apply in_app_or in Hi' as [Hi' | Hi'], Ht' as [Ht' | Ht'].
    + exact (Ia w i o w' o' b Hi' Ht').
    + simpl in Ht'. destruct Ht' as [Ht' | [Ht' | []]]; [| discriminate].
      injection Ht' as <- <- <-. specialize (Ii w i o Hi'). lia.
    + simpl in Hi'. destruct Hi' as [Hi' | [Hi' | []]]; [discriminate |].
      injection Hi' as <- <- <-.
      destruct (Ig w' o' b Ht') as (nread & ulim & G1 & G2 & G3 & G4).
      fold head in G1.
      destruct (G4 gi g up cnt Hg Hpc) as [Hleft | Hright].
      * assert (item_index th + 1 <= nread).
        { apply Hleft; [| congruence].
          apply list_elem_of_In. eapply list_elem_of_lookup_2. eassumption. }
        lia.
      * lia.
    + simpl in Hi'. destruct Hi' as [Hi' | [Hi' | []]]; [discriminate |].
      injection Hi' as <- <- <-.
      simpl in Ht'. destruct Ht' as [Ht' | [Ht' | []]]; [| discriminate].
      injection Ht' as <- <- <-. lia.
Qed.

End Steps.

Lemma arena_inv_entry s0 :
  arena_ready P s0 -> at_entry s0 -> arena_inv P s0.
Proof.
  intros Hready Hentry.
  assert (Hc : counted (groups s0) = 0 /\ reserved P (groups s0) = 0).
  { unfold counted, reserved, at_entry in *.
    induction Hentry as [| g gs Hg _ IH]; simpl; [auto |].
    unfold counted_rows at 1, reserved_bytes at 1. rewrite Hg. lia. }
  constructor.
  - rewrite (ar_nitems _ _ Hready). symmetry. apply Hc.
  - rewrite (ar_usage _ _ Hready). symmetry. apply Hc.
  - intros gi g l th Hg _. unfold thread_bounds.
    assert (Hpc : gpc g = GCount).
    { unfold at_entry in Hentry. rewrite Forall_forall in Hentry.
      apply Hentry. eapply list_elem_of_lookup_2. eassumption. }
    now rewrite Hpc.
  - intros w i o Hin. rewrite (ar_stores _ _ Hready) in Hin. destruct Hin.
  - intros w o b Hin. rewrite (ar_stores _ _ Hready) in Hin. destruct Hin.
  - intros w i o w' o' b Hin. rewrite (ar_stores _ _ Hready) in Hin.
    destruct Hin.
Qed.

Lemma arena_step s0 s s' :
  arena_ready P s0 -> structured P s0 s -> arena_inv P s ->
  transition P s s' -> arena_inv P s'.
Proof.
  intros Hready Hst Hinv Ht.
  destruct Ht as [gi g d' g' Hg _ Hpc E | gi g np c d' g' Hg _ Hpc E
                 | gi g d' evs g' Hg Hf Hpc E
                 | gi g l th up cnt evs th' Hg Hpc Hth Hret E].
  - eapply arena_row_count; eauto.
  - eapply arena_row_usage; eauto.
  - destruct Hst as [(Hfmt & _) _]. rewrite (ar_format _ _ Hready) in Hfmt.
    congruence.
  - eapply arena_commit; eauto.
Qed.

Lemma arena_reachable s0 s :
  arena_ready P s0 -> at_entry s0 -> reachable P s0 s ->
  structured P s0 s /\ arena_inv P s.
Proof.
  intros Hready Hentry.
  apply (reachable_invariant P (fun s => structured P s0 s /\ arena_inv P s)).
  - split; [now apply structured_entry | now apply arena_inv_entry].
  - intros s1 s2 [Hst Hinv] Ht. split.
    + eapply structured_step; eauto.
    + eapply arena_step; eauto.
Qed.

End Arena.

(** ** Arena safety of the row-format projector *)

Section ArenaClaim.
Context (P : platform).
Variables (src : list kern_tupitem)
          (eval : Z -> kern_tupitem -> bool * StromError)
          (d : kds.t) (cell : StromError) (k : kern_resultbuf)
          (grid : list (list Z)).

Lemma gpuscan_qual_fresh : fresh_entry (gpuscan_qual src eval d cell k grid).
Proof.
  split; [apply gpuscan_qual_at_entry |]. split; [reflexivity |].
  intros g th Hg Hth. unfold gpuscan_qual in Hg. simpl in Hg.
  apply in_map_iff in Hg as (ids & <- & _). simpl in Hth.
  apply in_map_iff in Hth as (id & <- & _).
  pose proof (enter_tupitem src eval id). tauto.
Qed.

(** C3 (amended): in every row-format invocation in which no 32-bit
    counter wraps, no committed index entry reaches into committed tuple
    bytes: each [tupitem_idx[i]] written ends at or before the offset of
    every tuple written.  A thread whose check of lines 227-229 fails
    raises [DataStoreNoSpace] and writes neither tuple bytes nor an index
    entry, then or later.  (Each thread makes that check on its own reading
    of [kds_dst->nitems]; the counters keep the reservations of groups that
    failed.) *)
Theorem row_arena_safety sched s :
  arena_ready P (gpuscan_qual src eval d cell k grid) ->
  exec P sched (gpuscan_qual src eval d cell k grid) = Some s ->
  arena_apart P (kds_dst s) (stores s) /\
  forall gi g l th up cnt s1 sched' s2,
    groups s !! gi = Some g -> gpc g = GCommit up cnt ->
    threads g !! l = Some th ->
    row_no_space P (kds_dst s) up cnt = true ->
    step P s (Commit gi l) = Some s1 ->
    exec P sched' s1 = Some s2 ->
    wrote_nothing (gi, l) (stores s2) /\
    exists g2, groups s2 !! gi = Some g2 /\
               threads g2 !! l = Some (raise_nospace P th).
Proof.
  intros Hready Hs.
  assert (Hreach : reachable P (gpuscan_qual src eval d cell k grid) s) by now exists sched.
  split.
  - apply (arena_reachable P (gpuscan_qual src eval d cell k grid) s Hready (gpuscan_qual_at_entry _ _ _ _ _ _) Hreach).
  - intros gi g l th up cnt s1 sched' s2 Hg Hpc Hth Hspace Hstep Hs2.
    pose proof Hstep as Hstep'.
    unfold step in Hstep. rewrite Hg, Hpc, Hth in Hstep.
    destruct (returned th) eqn:Hret; [discriminate |].
    unfold row_commit in Hstep. rewrite Hspace in Hstep.
    injection Hstep as Hs1.
    assert (Hw : wrote_nothing (gi, l) (stores s))
      by (eapply (running_wrote_nothing P (gpuscan_qual src eval d cell k grid) gpuscan_qual_fresh); eauto).
    apply (returned_thread_forever P (gpuscan_qual src eval d cell k grid) gpuscan_qual_fresh sched' s1 gi
             (mk_group (<[l := raise_nospace P th]> (threads g)) (GCommit up cnt))
             l (raise_nospace P th) s2); try assumption.
    + eapply reachable_step; eauto.
    + rewrite <- Hs1. simpl. apply list_lookup_insert_eq.
      now apply lookup_lt_Some in Hg.
    + simpl. apply list_lookup_insert_eq. now apply lookup_lt_Some in Hth.
    + reflexivity.
    + rewrite <- Hs1. simpl. now rewrite app_nil_r.
Qed.

End ArenaClaim.

(** C3, as stated, fails for a group as a whole.  A group of four rows
    reserves its index slots and bytes, and its first thread commits; a
    second group then adds a row to [nitems]; the next thread of the first
    group reads the new [nitems], fails its check and raises
    [DataStoreNoSpace], while its neighbour's tuple and index entry stay
    committed.  At the end the counters have passed each other: the index
    array as counted by [nitems] ends above [length - usage]. *)
Lemma row_group_commits_despite_nospace :
  exists s g th1,
    exec Sample.platform Sample.tight_schedule Sample.tight = Some s /\
    finished s = true /\
    groups s !! 0%nat = Some g /\ threads g !! 1%nat = Some th1 /\
    errcode th1 = StromError_DataStoreNoSpace /\
    ~ wrote_nothing (0%nat, 0%nat) (stores s) /\
    kds.length (kds_dst s) - kds.usage (kds_dst s)
    < KERN_DATA_STORE_HEAD_LENGTH Sample.platform (kds.ncols (kds_dst s))
      + 4 * kds.nitems (kds_dst s).
Proof.
  destruct (exec Sample.platform Sample.tight_schedule Sample.tight)
    as [s |] eqn:E; [| vm_compute in E; discriminate].
  vm_compute in E. injection E as <-.
  eexists _, _, _. split; [reflexivity |].
  repeat apply conj; try reflexivity.
  intros H. apply (H (StoreIndex (0%nat, 0%nat) 0 176)); [| reflexivity].
  simpl. auto.
Qed.

(** ** Verbatim copy of the surviving rows *)

Section Survivors.
Context (P : platform).
Hypothesis set_error_leaves_trace :
  STROM_SET_ERROR P StromError_Success StromError_DataStoreNoSpace
  <> StromError_Success.

Lemma row_count_returned d g d' g' :
  row_count P d g = (d', g') ->
  Forall2 (fun th th' =>
             returned th' = true ->
             errcode th'
             = STROM_SET_ERROR P (errcode th) StromError_DataStoreNoSpace)
          (threads g) (threads g').
Proof.
  unfold row_count, arithmetic_stairlike_add.
  destruct (reserve _ _) as [np n']. intros [= <- <-]. simpl.
  apply Forall2_zip_with_scan. intros th off. unfold row_count_thread.
  destruct (_ >? _); simpl; [reflexivity | discriminate].
Qed.

Lemma htup_offset_at_frame d d' up th th' :
  kds.length d' = kds.length d ->
  offset th' = offset th -> required th' = required th ->
  htup_offset_at d' up th' = htup_offset_at d up th.
Proof. unfold htup_offset_at. now intros -> -> ->. Qed.

Section Step.
Variable (s0 : state).
Hypothesis Hfresh : fresh_entry s0.
Hypothesis Hclean : clean_rows s0.
Hypothesis Hrow : kds.format (kds_dst s0) = kds.KDS_FORMAT_ROW.

(** A thread with a row that has not raised an error is clean. *)
Lemma row_thread_clean s gi g l th :
  structured P s0 s ->
  groups s !! gi = Some g -> threads g !! l = Some th ->
  tupitem_src th <> None -> returned th = false ->
  errcode th = StromError_Success.
Proof.
  intros Hst Hg Hth Hsrc Hret.
  destruct (structured_thread P _ _ _ _ _ _ Hst Hg Hth)
    as (g0 & th0 & Hg0 & Hth0 & Hsame & Hr).
  assert (H0 : errcode th0 = StromError_Success).
  { apply (Hclean g0 th0); [| | congruence];
      apply list_elem_of_In; eapply list_elem_of_lookup_2; eassumption. }
  destruct (gpc g).
  - now subst.
  - destruct Hr as (_ & -> & _). exact H0.
  - destruct Hr as (_ & _ & [-> | [? _]]); [exact H0 | congruence].
  - destruct Hr as (? & _). congruence.
Qed.

Lemma survivors_step s s' :
  structured P s0 s -> survivors_written P s -> transition P s s' ->
  survivors_written P s'.
Proof.
  intros Hst HK Ht.
  assert (Hkeep : forall d' evs gi g g',
            kds.length d' = kds.length (kds_dst s) ->
            groups s !! gi = Some g ->
            (forall l th' src, threads g' !! l = Some th' ->
               tupitem_src th' = Some src -> returned th' = true ->
               errcode th' = StromError_Success ->
               exists up cnt,
                 gpc g' = GCommit up cnt /\
                 In (StoreTuple (gi, l) (htup_offset_at d' up th')
                       (take (Z.to_nat (htup_offset_of P + t_len src))
                             (item_bytes src))) (stores s ++ evs) /\
                 In (StoreIndex (gi, l) (item_index th')
                       (htup_offset_at d' up th')) (stores s ++ evs)) ->
            forall cell',
            survivors_written P
              (mk_state d' (stores s ++ evs) (<[gi := g']> (groups s)) cell'
                        (kresults s))).
  { intros d' evs gi g g' Hlen Hg Hnew cell' gj g2 l th src Hg2 Hth Hsrc Hret He.
    simpl in *.
    apply list_lookup_insert_Some in Hg2 as [(-> & <- & _) | (Hne & Hg2)].
    - eauto.
    - destruct (HK gj g2 l th src Hg2 Hth Hsrc Hret He)
        as (up & cnt & Hpc & H1 & H2).
      exists up, cnt. rewrite (htup_offset_at_frame (kds_dst s) d' up th th)
        by auto.
      repeat apply conj; [assumption | |]; apply in_or_app; now left. }
  destruct Ht as [gi g d' g' Hg _ Hpc E | gi g np c d' g' Hg _ Hpc E
                 | gi g d' evs g' Hg Hf Hpc E
                 | gi g l th up cnt evs th' Hg Hpc Hth Hret E].
  - rewrite <- (app_nil_r (stores s)).
    apply Hkeep with (g := g); [apply (row_count_frame P _ _ _ _ E) | exact Hg |].
    intros l th' src Hth' Hsrc Hret He. exfalso.
    destruct (Forall2_lookup_r _ _ _ _ _ (row_count_returned _ _ _ _ E) Hth')
      as (th & Hth & Hraise).
    destruct (row_count_threads P _ _ _ _ E) as [_ HR].
    pose proof (Forall2_lookup_lr _ _ _ _ _ _ HR Hth Hth') as Hrel.
    apply thread_rel_tupitem in Hrel.
    assert (Hc : errcode th = StromError_Success).
    { apply (row_thread_clean s gi g l th Hst Hg Hth); [congruence |].
      destruct (returned th) eqn:Hr; [| reflexivity].
      destruct (returned_not_waiting P s0 Hfresh s gi g l th Hst Hg Hth Hr)
        as [Hx | (? & ? & Hx)]; congruence. }
    rewrite (Hraise Hret), Hc in He. contradiction.
  - rewrite <- (app_nil_r (stores s)).
    apply Hkeep with (g := g); [apply (row_usage_frame P _ _ _ _ E) | exact Hg |].
    intros l th' src Hth' Hsrc Hret He. exfalso.
    destruct (row_usage_threads P _ _ _ _ E) as [_ HR].
    destruct (Forall2_lookup_r _ _ _ _ _ HR Hth') as (th & _ & _ & _ & Hr & _).
    congruence.
  - destruct Hst as [(Hfmt & _) _]. congruence.
  - apply Hkeep with (g := g); [reflexivity | exact Hg |].
    intros l2 th2 src Hth2 Hsrc Hret2 He. simpl in Hth2.
    exists up, cnt. split; [exact Hpc |].
    apply list_lookup_insert_Some in Hth2 as [(-> & <- & _) | (Hne & Hth2)].
    + apply row_commit_thread in E as Hfacts.
      destruct Hfacts as (Ht & _ & Hq & Hi & Ho & _ & Hcase).
      assert (Hc : errcode th = StromError_Success)
        by (apply (row_thread_clean s gi g l2 th Hst Hg Hth); congruence).
      destruct Hcase as [(_ & _ & Hraise) | (Hspace & _)];
        [rewrite Hraise, Hc in He; contradiction |].
      unfold row_commit in E. rewrite Hspace in E.
      rewrite Ht in Hsrc. rewrite Hsrc in E. injection E as <- _.
      rewrite (htup_offset_at_frame (kds_dst s) (kds_dst s) up th th'), Hi
        by auto.
      simpl. split; apply in_or_app; right; simpl; auto.
    + destruct (HK gi g l2 th2 src Hg Hth2 Hsrc Hret2 He)
        as (up' & cnt' & Hpc' & H1 & H2).
      rewrite Hpc in Hpc'. injection Hpc' as <- <-.
      split; apply in_or_app; now left.
Qed.

Lemma survivors_reachable s :
  reachable P s0 s -> structured P s0 s /\ survivors_written P s.
Proof.
  apply (reachable_invariant P
           (fun s => structured P s0 s /\ survivors_written P s)).
  - split; [apply structured_entry, Hfresh |].
    intros gi g l th src Hg Hth _ Hret _. exfalso.
    destruct Hfresh as (_ & _ & Hf).
    destruct (Hf g th) as [Hr _]; [| | congruence];
      apply list_elem_of_In; eapply list_elem_of_lookup_2; eassumption.
  - intros s1 s2 [Hst HK] Ht. split.
    + eapply structured_step; eauto.
    + eapply survivors_step; eauto.
Qed.

End Step.
End Survivors.

(** ** The bytes of the surviving rows *)

Section Bytes.
Context (P : platform).

(** If an event leaves [v] at [a] and every other event either leaves [v]
    there too or does not touch [a], then [v] is found at [a]. *)
Lemma arena_read_agree head evs ev a v :
  In ev evs -> event_byte head ev a = Some v ->
  (forall ev', In ev' evs ->
     event_byte head ev' a = None \/ event_byte head ev' a = Some v) ->
  arena_read head evs a = Some v.
Proof.
  assert (Hsub : forall evs,
            (forall ev', In ev' evs ->
               event_byte head ev' a = None \/ event_byte head ev' a = Some v) ->
            arena_read head evs a = None \/ arena_read head evs a = Some v).
  { intros l Hev. induction l as [| e l IH]; simpl; [now left |].
    destruct IH as [-> | ->]; [| | now right];
      [intros ev' Hin; apply Hev; now right |].
    apply Hev. now left. }
  intros Hin Hbyte Hother. induction evs as [| e evs IH]; [destruct Hin |].
  simpl. destruct Hin as [-> | Hin].
  - destruct (Hsub evs) as [-> | ->]; auto.
    intros ev' Hin'. apply Hother. now right.
  - rewrite IH; auto. intros ev' Hin'. apply Hother. now right.
Qed.

Section Step.
Variables (s0 s : state).
Hypothesis Hready : arena_ready P s0.
Hypothesis Hfresh : fresh_entry s0.
Hypothesis Hst : structured P s0 s.
Hypothesis Hinv : arena_inv P s.

Lemma reservations_apart_step s' :
  reservations_apart s -> transition P s s' -> reservations_apart s'.
Proof.
  intros (Dg & Dt & Db) Ht.
  (* a transition on a group that does not end in the commit phase *)
  assert (Hskip : forall gi g g' d st c,
            groups s !! gi = Some g ->
            (forall up cnt, gpc g' <> GCommit up cnt) ->
            kds.usage (kds_dst s) <= kds.usage d ->
            reservations_apart
              (mk_state d st (<[gi := g']> (groups s)) c (kresults s))).
  { intros gi g g' d st c Hg Hpc' Hu. repeat apply conj; simpl.
    - intros gi1 gi2 g1 g2 up1 cnt1 up2 cnt2 Hne H1 H2 P1 P2.
      apply list_lookup_insert_Some in H1 as [(-> & <- & _) | (_ & H1)];
        [now apply Hpc' in P1 |].
      apply list_lookup_insert_Some in H2 as [(-> & <- & _) | (_ & H2)];
        [now apply Hpc' in P2 |].
      exact (Dg gi1 gi2 g1 g2 up1 cnt1 up2 cnt2 Hne H1 H2 P1 P2).
    - intros gj g2 up cnt l1 l2 th1 th2 H2 P2.
      apply list_lookup_insert_Some in H2 as [(-> & <- & _) | (_ & H2)];
        [now apply Hpc' in P2 |].
      eapply Dt; eauto.
    - intros gj g2 up cnt H2 P2.
      apply list_lookup_insert_Some in H2 as [(-> & <- & _) | (_ & H2)];
        [now apply Hpc' in P2 |].
      specialize (Db gj g2 up cnt H2 P2). lia. }
  destruct Ht as [gi g d' g' Hg _ Hpc E | gi g np c d' g' Hg _ Hpc E
                 | gi g d' evs g' Hg Hf Hpc E
                 | gi g l th up cnt evs th' Hg Hpc Hth Hret E].
  - apply (Hskip gi g); [exact Hg | |].
    + intros up cnt.
      destruct (row_count_threads P _ _ _ _ E) as [[-> | (? & ? & ->)] _];
        discriminate.
    + destruct (row_count_frame P _ _ _ _ E) as (_ & _ & _ & _ & ->). lia.
  - assert (Hb1 : reserved_bytes P g = 0)
      by (unfold reserved_bytes; now rewrite Hpc).
    pose proof (reserved_room P _ _ _ Hg Hb1) as Hroom.
    destruct (structured_totals P _ _ Hst) as [_ Htb].
    pose proof (ar_bytes _ _ Hready) as Hbytes.
    pose proof (reserved_nonneg P (groups s)) as Hc0.
    pose proof (bytes_of_nonneg P g) as Hr0.
    pose proof (ai_usage _ _ Hinv) as Iu.
    destruct (row_usage_nowrap P (kds_dst s) g d' g')
      as (Hu & (up & Hpc' & Hup0 & Hup1 & Hup2 & Hup3) & HF);
      [lia | lia | exact E |].
    repeat apply conj; simpl.
    + intros gi1 gi2 g1 g2 up1 cnt1 up2 cnt2 Hne H1 H2 P1 P2.
      apply list_lookup_insert_Some in H1 as [(-> & <- & _) | (N1 & H1)];
        apply list_lookup_insert_Some in H2 as [(E2 & <- & _) | (N2 & H2)];
        try congruence.
      * rewrite Hpc' in P1. injection P1 as <- <-.
        specialize (Db gi2 g2 up2 cnt2 H2 P2).
        destruct (Z.lt_ge_cases 0 (bytes_of P g)) as [Hpos | Hz];
          [right; rewrite (Hup2 Hpos); lia | left; rewrite (Hup3 Hz); lia].
      * rewrite Hpc' in P2. injection P2 as <- <-.
        specialize (Db gi1 g1 up1 cnt1 H1 P1).
        destruct (Z.lt_ge_cases 0 (bytes_of P g)) as [Hpos | Hz];
          [left; rewrite (Hup2 Hpos); lia | right; rewrite (Hup3 Hz); lia].
      * exact (Dg gi1 gi2 g1 g2 up1 cnt1 up2 cnt2 Hne H1 H2 P1 P2).
    + intros gj g2 up2 cnt2 l1 l2 th1 th2 H2 P2 Hl T1 T2.
      apply list_lookup_insert_Some in H2 as [(-> & <- & _) | (_ & H2)];
        [| eapply Dt; eauto].
      eapply (row_usage_pairwise P (kds_dst s) g d' g' l1 l2); eauto; lia.
    + intros gj g2 up2 cnt2 H2 P2.
      apply list_lookup_insert_Some in H2 as [(-> & <- & _) | (_ & H2)].
      * rewrite Hpc' in P2. injection P2 as <- <-. lia.
      * specialize (Db gj g2 up2 cnt2 H2 P2). lia.
  - destruct Hst as [(Hfmt & _) _]. rewrite (ar_format _ _ Hready) in Hfmt.
    congruence.
  - apply row_commit_thread in E as (_ & _ & Hq & _ & Ho & _ & _).
    repeat apply conj; simpl.
    + intros gi1 gi2 g1 g2 up1 cnt1 up2 cnt2 Hne H1 H2 P1 P2.
      apply list_lookup_insert_Some in H1 as [(-> & <- & _) | (N1 & H1)];
        apply list_lookup_insert_Some in H2 as [(E2 & <- & _) | (N2 & H2)];
        try congruence; simpl in *.
      * exact (Dg gi1 gi2 g g2 up1 cnt1 up2 cnt2 Hne Hg H2 P1 P2).
      * rewrite E2 in Hg.
        exact (Dg gi1 gi2 g1 g up1 cnt1 up2 cnt2 Hne H1 Hg P1 P2).
      * exact (Dg gi1 gi2 g1 g2 up1 cnt1 up2 cnt2 Hne H1 H2 P1 P2).
    + intros gj g2 up2 cnt2 l1 l2 th1 th2 H2 P2 Hl T1 T2.
      apply list_lookup_insert_Some in H2 as [(-> & <- & _) | (_ & H2)];
        [| eapply Dt; eauto].
      simpl in *.
      assert (Hold : forall l0 th0,
                <[l := th']> (threads g) !! l0 = Some th0 ->
                exists th1', threads g !! l0 = Some th1' /\
                             offset th0 = offset th1' /\
                             required th0 = required th1').
      { intros l0 th0 Hl0.
        apply list_lookup_insert_Some in Hl0 as [(-> & <- & _) | (_ & Hl0)];
          eauto. }
      destruct (Hold l1 th1 T1) as (a1 & A1 & -> & ->).
      destruct (Hold l2 th2 T2) as (a2 & A2 & -> & _).
      eapply Dt; eauto.
    + intros gj g2 up2 cnt2 H2 P2.
      apply list_lookup_insert_Some in H2 as [(-> & <- & _) | (_ & H2)];
        simpl in *; eapply Db; eauto.
Qed.

Lemma htup_offset_nowrap gi g l th up cnt :
  groups s !! gi = Some g -> gpc g = GCommit up cnt ->
  threads g !! l = Some th ->
  row_no_space P (kds_dst s) up cnt = false ->
  htup_offset_at (kds_dst s) up th
  = kds.length (kds_dst s) - (up + offset th + required th).
Proof.
  intros Hg Hpc Hth Hspace.
  pose proof (ai_threads _ _ Hinv gi g l th Hg Hth) as Hbd.
  unfold thread_bounds in Hbd. rewrite Hpc in Hbd.
  destruct Hbd as (_ & Hup0 & Hoff0 & Hreq0 & Hoq & Huse).
  destruct Hst as [(_ & Hnc & Hlen & _) _].
  pose proof (ar_head _ _ Hready) as Hhead. rewrite <- Hnc in Hhead.
  pose proof (ar_length _ _ Hready) as Hlength. rewrite <- Hlen in Hlength.
  pose proof (counted_nonneg (groups s)) as Hn0.
  rewrite <- (ai_nitems _ _ Hinv) in Hn0.
  pose proof (ar_align _ _ Hready (4 * kds.nitems (kds_dst s)) ltac:(lia))
    as Halign.
  unfold row_no_space in Hspace. rewrite Z.gtb_ltb in Hspace.
  apply Z.ltb_ge in Hspace.
  unfold htup_offset_at. rewrite (u32_small (up + _ + _)) by lia.
  rewrite u32_small; lia.
Qed.

Lemma tuples_placed_step s' :
  tuples_placed P s -> transition P s s' -> tuples_placed P s'.
Proof.
  intros HT Ht.
  assert (Hskip : forall gi g g' d c,
            groups s !! gi = Some g ->
            (forall up cnt, gpc g <> GCommit up cnt) ->
            kds.length d = kds.length (kds_dst s) ->
            tuples_placed P
              (mk_state d (stores s) (<[gi := g']> (groups s)) c (kresults s))).
  { intros gi g g' d c Hg Hpc Hlen w o b Hin. simpl in *.
    destruct (HT w o b Hin)
      as (g2 & th & src & up & cnt & Hg2 & Hth & Hpc2 & Hsrc & Hret & Ho & Hb).
    exists g2, th, src, up, cnt. rewrite Hlen.
    repeat apply conj; try assumption.
    rewrite list_lookup_insert_ne; [assumption |].
    intros ->. rewrite Hg in Hg2. injection Hg2 as <-.
    now apply Hpc in Hpc2. }
  destruct Ht as [gi g d' g' Hg _ Hpc E | gi g np c d' g' Hg _ Hpc E
                 | gi g d' evs g' Hg Hf Hpc E
                 | gi g l th up cnt evs th' Hg Hpc Hth Hret E].
  - apply (Hskip gi g); [exact Hg | intros; congruence |].
    apply (row_count_frame P _ _ _ _ E).
  - apply (Hskip gi g); [exact Hg | intros; congruence |].
    apply (row_usage_frame P _ _ _ _ E).
  - destruct Hst as [(Hfmt & _) _]. rewrite (ar_format _ _ Hready) in Hfmt.
    congruence.
  - apply row_commit_thread in E as Hfacts.
    destruct Hfacts as (Ht & _ & Hq & _ & Ho & Hret' & _).
    intros w o b Hin. simpl in *. apply in_app_or in Hin as [Hin | Hin].
    + destruct (HT w o b Hin)
        as (g2 & th2 & src & up2 & cnt2 & Hg2 & Hth2 & Hpc2 & Hsrc & Hret2 & Ho2 & Hb).
      destruct (decide (gi = fst w)) as [Hgi | Hgi].
      * rewrite <- Hgi in *. rewrite Hg in Hg2. injection Hg2 as <-.
        exists (mk_group (<[l := th']> (threads g)) (gpc g)), th2, src, up2, cnt2.
        simpl. repeat apply conj; try assumption.
        -- apply list_lookup_insert_eq. now apply lookup_lt_Some in Hg.
        -- rewrite list_lookup_insert_ne; [assumption |].
           intros ->. congruence.
      * exists g2, th2, src, up2, cnt2. repeat apply conj; try assumption.
        now rewrite list_lookup_insert_ne.
    + destruct (row_commit_events _ _ _ _ _ _ _ _ E)
        as [-> | (Hspace & src & bytes & Hsrc & ->)]; [destruct Hin |].
      destruct Hin as [Hin | [Hin | []]]; [| discriminate].
      unfold row_commit in E. rewrite Hspace, Hsrc in E.
      injection E as Ebytes _. subst bytes.
      injection Hin as <- <- <-. simpl.
      exists (mk_group (<[l := th']> (threads g)) (gpc g)), th', src, up, cnt.
      simpl. repeat apply conj; try assumption; try congruence.
      * apply list_lookup_insert_eq. now apply lookup_lt_Some in Hg.
      * apply list_lookup_insert_eq. now apply lookup_lt_Some in Hth.
      * rewrite Ho, Hq.
        apply (htup_offset_nowrap gi g l th up cnt Hg Hpc Hth Hspace).
Qed.

End Step.

Lemma bytes_reachable s0 s :
  arena_ready P s0 -> fresh_entry s0 -> reachable P s0 s ->
  (structured P s0 s /\ arena_inv P s) /\
  reservations_apart s /\ tuples_placed P s.
Proof.
  intros Hready Hfresh.
  assert (Hentry : at_entry s0) by apply Hfresh.
  apply (reachable_invariant P
           (fun s => (structured P s0 s /\ arena_inv P s) /\
                     reservations_apart s /\ tuples_placed P s)).
  - split; [split; [now apply structured_entry | now apply arena_inv_entry] |].
    assert (Hpc : forall gi g, groups s0 !! gi = Some g -> gpc g = GCount).
    { intros gi g Hg. unfold at_entry in Hentry.
      rewrite Forall_forall in Hentry. apply Hentry.
      eapply list_elem_of_lookup_2. eassumption. }
    split; [repeat apply conj |].
    + intros gi1 gi2 g1 g2 up1 cnt1 up2 cnt2 _ H1 _ P1.
      rewrite (Hpc _ _ H1) in P1. discriminate.
    + intros gi g up cnt l1 l2 th1 th2 H1 P1.
      rewrite (Hpc _ _ H1) in P1. discriminate.
    + intros gi g up cnt H1 P1. rewrite (Hpc _ _ H1) in P1. discriminate.
    + intros w o b Hin. rewrite (ar_stores _ _ Hready) in Hin. destruct Hin.
  - intros s1 s2 [[Hst Hinv] [HD HT]] Ht.
    split; [split | split].
    + eapply structured_step; eauto.
    + eapply arena_step; eauto.
    + eapply reservations_apart_step; eauto.
    + eapply tuples_placed_step; eauto.
Qed.

(** Once written, the bytes of a tuple are found in the arena as long as
    the invocation runs: no other thread writes over them, and no index
    entry does. *)
Lemma tuple_bytes_stay s0 s gi l o b j v :
  arena_ready P s0 -> fresh_entry s0 -> copies_fit P s0 ->
  reachable P s0 s ->
  In (StoreTuple (gi, l) o b) (stores s) ->
  0 <= j -> b !! Z.to_nat j = Some v ->
  arena_read (KERN_DATA_STORE_HEAD_LENGTH P (kds.ncols (kds_dst s)))
             (stores s) (o + j) = Some v.
Proof.
  intros Hready Hfresh Hfit Hs Hin Hj Hv.
  destruct (bytes_reachable s0 s Hready Hfresh Hs)
    as [[Hst Hinv] [(Dg & Dt & Db) HT]].
  (* the reservation behind a tuple and the room its bytes take *)
  assert (Hroom : forall w o' b', In (StoreTuple w o' b') (stores s) ->
            exists g th up cnt,
              groups s !! fst w = Some g /\ threads g !! snd w = Some th /\
              gpc g = GCommit up cnt /\
              o' = kds.length (kds_dst s) - (up + offset th + required th) /\
              0 <= offset th /\ offset th + required th <= cnt /\
              Z.of_nat (length b') <= required th).
  { intros w o' b' Hin'.
    destruct (HT w o' b' Hin')
      as (g & th & src & up & cnt & Hg & Hth & Hpc & Hsrc & _ & Ho & Hb).
    exists g, th, up, cnt.
    pose proof (ai_threads _ _ Hinv _ _ _ _ Hg Hth) as Hbd.
    unfold thread_bounds in Hbd. rewrite Hpc in Hbd.
    destruct Hbd as (_ & _ & Hoff0 & _ & Hoq & _).
    repeat apply conj; try assumption.
    destruct (structured_thread P _ _ _ _ _ _ Hst Hg Hth)
      as (g0 & th0 & Hg0 & Hth0 & Hsame & Hrel).
    rewrite Hpc in Hrel. destruct Hrel as (_ & Hreq & _).
    rewrite Hsame in Hsrc.
    destruct (Hfit g0 th0 src) as [Hlo Hhi]; [| | exact Hsrc |].
    - apply list_elem_of_In. eapply list_elem_of_lookup_2. eassumption.
    - apply list_elem_of_In. eapply list_elem_of_lookup_2. eassumption.
    - rewrite Hreq, Hsrc, Hb, length_take. lia. }
  destruct (Hroom _ _ _ Hin)
    as (g & th & up & cnt & Hg & Hth & Hpc & Ho & Hoff0 & Hoq & Hlen).
  simpl in Hg, Hth.
  apply lookup_lt_Some in Hv as Hjlt.
  apply arena_read_agree with (ev := StoreTuple (gi, l) o b);
    [exact Hin | |].
  { simpl.
    replace ((o <=? o + j) && (o + j <? o + Z.of_nat (length b))) with true
      by (symmetry; apply andb_true_iff; split;
          [apply Z.leb_le | apply Z.ltb_lt]; lia).
    now replace (o + j - o) with j by lia. }
  intros ev' Hin'. destruct ev' as [w o' b' | w i o' | w i src']; simpl.
  - destruct (Hroom _ _ _ Hin')
      as (g' & th' & up' & cnt' & Hg' & Hth' & Hpc' & Ho' & Hoff0' & Hoq' & Hlen').
    destruct w as [gi' l']. simpl in Hg', Hth'.
    assert (Hout : o + Z.of_nat (length b) <= o' \/
                   o' + Z.of_nat (length b') <= o \/
                   (o' = o /\ b' = b)).
    { destruct (decide (gi' = gi)) as [-> | Hgi].
      - rewrite Hg in Hg'. injection Hg' as <-.
        rewrite Hpc in Hpc'. injection Hpc' as <- <-.
        destruct (Nat.lt_trichotomy l l') as [Hl | [<- | Hl]].
        + pose proof (Dt gi g up cnt l l' th th' Hg Hpc Hl Hth Hth'). right. left. lia.
        + rewrite Hth in Hth'. injection Hth' as <-.
          right. right. split; [lia |].
          destruct (HT _ _ _ Hin)
            as (g1 & th1 & src1 & ? & ? & Hg1 & Hth1 & _ & Hsrc1 & _ & _ & ->).
          destruct (HT _ _ _ Hin')
            as (g2 & th2 & src2 & ? & ? & Hg2 & Hth2 & _ & Hsrc2 & _ & _ & ->).
          simpl in *. congruence.
        + pose proof (Dt gi g up cnt l' l th' th Hg Hpc Hl Hth' Hth). left. lia.
      - destruct (Dg gi gi' g g' up cnt up' cnt' ltac:(congruence) Hg Hg' Hpc Hpc')
          as [H | H]; [right; left | left]; lia. }
    destruct Hout as [H | [H | [-> ->]]].
    + left. replace (o' <=? o + j) with false
        by (symmetry; apply Z.leb_gt; lia). reflexivity.
    + left. replace (o + j <? o' + Z.of_nat (length b')) with false
        by (symmetry; apply Z.ltb_ge; lia).
      now rewrite andb_false_r.
    + right.
      replace ((o <=? o + j) && (o + j <? o + Z.of_nat (length b))) with true
        by (symmetry; apply andb_true_iff; split;
            [apply Z.leb_le | apply Z.ltb_lt]; lia).
      now replace (o + j - o) with j by lia.
  - left. destruct (ai_apart _ _ Hinv w i o' (gi, l) o b Hin' Hin) as [Hi He].
    unfold index_end in He.
    replace (o + j <? KERN_DATA_STORE_HEAD_LENGTH P (kds.ncols (kds_dst s))
                      + 4 * i + 4) with false
      by (symmetry; apply Z.ltb_ge; lia).
    now rewrite andb_false_r.
  - now left.
Qed.

End Bytes.

(** ** Every invocation runs to completion *)

Section Completion.
Context (P : platform).
Variable (s0 : state).
Hypothesis Hfresh : fresh_entry s0.

Lemma pending_of_nonneg g : 0 <= pending_of g.
Proof.
  unfold pending_of. destruct (gpc g); try lia.
  apply zsum_map_nonneg. intros th. destruct (returned th); lia.
Qed.

Lemma pending_nonneg s : 0 <= pending s.
Proof. apply zsum_map_nonneg, pending_of_nonneg. Qed.

Lemma unreturned_le (ths : list kern_thread) :
  zsum (map (fun th => if returned th then 0 else 1) ths)
  <= Z.of_nat (length ths).
Proof.
  induction ths as [| th ths IH]; simpl length; simpl zsum; [lia |].
  destruct (returned th); lia.
Qed.

Lemma length_scan_threads {A} (f : A -> Z -> A) (v : A -> Z) (l : list A) acc :
  length (zip_with f l (stairlike_offsets acc (map v l))) = length l.
Proof.
  rewrite length_zip_with, length_stairlike_offsets, length_map. lia.
Qed.

Lemma transition_pending s s' :
  transition P s s' -> pending s' < pending s.
Proof.
  intros Ht.
  assert (Hins : forall gi g g', groups s !! gi = Some g ->
            pending_of g' < pending_of g ->
            zsum (map pending_of (<[gi := g']> (groups s))) < pending s).
  { intros gi g g' Hg Hlt. rewrite (zsum_map_insert _ _ _ _ _ Hg).
    unfold pending. lia. }
  destruct Ht as [gi g d' g' Hg _ Hpc E | gi g np c d' g' Hg _ Hpc E
                 | gi g d' evs g' Hg Hf Hpc E
                 | gi g l th up cnt evs th' Hg Hpc Hth Hret E];
    unfold pending at 1; simpl; apply (Hins gi g _ Hg).
  - unfold row_count, arithmetic_stairlike_add in E.
    destruct (reserve _ _) as [np n']. injection E as <- <-.
    unfold pending_of. rewrite Hpc. simpl.
    destruct (_ >? _); rewrite ?length_scan_threads; lia.
  - unfold row_usage, arithmetic_stairlike_add in E.
    destruct (reserve _ _) as [up u']. injection E as <- <-.
    unfold pending_of. rewrite Hpc. simpl.
    pose proof (unreturned_le
      (zip_with (row_usage_thread P) (threads g)
         (stairlike_offsets 0
            (map (fun th => required_of P (tupitem_src th)) (threads g))))).
    rewrite length_scan_threads in H. lia.
  - unfold slot_project, arithmetic_stairlike_add in E.
    destruct (reserve _ _) as [base n']. injection E as <- <- <-.
    unfold pending_of. rewrite Hpc. simpl. lia.
  - unfold pending_of. simpl. rewrite Hpc.
    rewrite (zsum_map_insert _ _ _ _ _ Hth), Hret.
    apply row_commit_thread in E as (_ & _ & _ & _ & _ & -> & _). lia.
Qed.

(** No schedule is longer than the measure of its starting state. *)
Lemma exec_bounded sched : forall s s',
  exec P sched s = Some s' ->
  Z.of_nat (length sched) + pending s' <= pending s.
Proof.
  induction sched as [| a sched IH]; intros s s'; simpl.
  - intros [= <-]. lia.
  - destruct (step P s a) as [s1 |] eqn:Ha; [| discriminate].
    intros Hs. specialize (IH s1 s' Hs).
    pose proof (transition_pending s s1 (step_transition P _ _ _ Ha)). lia.
Qed.

Lemma slot_pcs_step s s' :
  slot_pcs s -> transition P s s' -> slot_pcs s'.
Proof.
  intros HS Ht Hfmt g2 Hin.
  pose proof (transition_frame P s s' Ht) as (Hf & _).
  rewrite Hfmt in Hf. specialize (HS (eq_sym Hf)).
  assert (Hcase : forall gi g g', groups s !! gi = Some g ->
            groups s' = <[gi := g']> (groups s) ->
            g2 = g' \/ In g2 (groups s)).
  { intros gi g g' Hg Hgs. rewrite Hgs in Hin. now apply in_insert in Hin. }
  destruct Ht as [gi g d' g' Hg Hr Hpc E | gi g np c d' g' Hg Hr Hpc E
                 | gi g d' evs g' Hg _ Hpc E
                 | gi g l th up cnt evs th' Hg Hpc Hth Hret E]; simpl in *.
  - congruence.
  - congruence.
  - destruct (Hcase gi g g' Hg eq_refl) as [-> | Hold]; [| now apply HS].
    right. now apply slot_project_threads in E as [-> _].
  - exfalso. destruct (HS g) as [Hx | Hx]; [| congruence | congruence].
    apply list_elem_of_In. eapply list_elem_of_lookup_2. eassumption.
Qed.

Lemma slot_pcs_reachable s :
  reachable P s0 s -> structured P s0 s /\ slot_pcs s.
Proof.
  apply (reachable_invariant P (fun s => structured P s0 s /\ slot_pcs s)).
  - split; [apply structured_entry, Hfresh |].
    intros _ g Hin. left. destruct Hfresh as (He & _).
    unfold at_entry in He. rewrite Forall_forall in He.
    now apply He, list_elem_of_In.
  - intros s1 s2 [Hst HS] Ht. split.
    + eapply structured_step; eauto.
    + eapply slot_pcs_step; eauto.
Qed.

Lemma unfinished_thread s :
  finished s = false ->
  exists gi g l th, groups s !! gi = Some g /\ threads g !! l = Some th /\
                    returned th = false.
Proof.
  unfold finished. intros H.
  assert (He : exists g, In g (groups s) /\ forallb returned (threads g) = false).
  { induction (groups s) as [| g gs IH]; simpl in H; [discriminate |].
    destruct (forallb returned (threads g)) eqn:Eg.
    - destruct (IH H) as (g' & Hin & Hg'). exists g'. split; [now right | auto].
    - exists g. split; [now left | assumption]. }
  destruct He as (g & Hin & Hg).
  assert (Ht : exists th, In th (threads g) /\ returned th = false).
  { induction (threads g) as [| th ths IH]; simpl in Hg; [discriminate |].
    destruct (returned th) eqn:Eth.
    - destruct (IH Hg) as (th' & Hin' & Hth'). exists th'.
      split; [now right | auto].
    - exists th. split; [now left | assumption]. }
  destruct Ht as (th & Hth & Hret).
  apply list_elem_of_In, list_elem_of_lookup in Hin as [gi Hgi].
  apply list_elem_of_In, list_elem_of_lookup in Hth as [l Hl].
  exists gi, g, l, th. auto.
Qed.

(** While a thread has not returned, some transition is enabled. *)
Lemma progress s :
  reachable P s0 s -> finished s = false ->
  exists a s', step P s a = Some s'.
Proof.
  intros Hs Hfin.
  destruct (unfinished_thread s Hfin) as (gi & g & l & th & Hg & Hth & Hret).
  destruct (slot_pcs_reachable s Hs) as [Hst HS].
  destruct (structured_thread P _ _ _ _ _ _ Hst Hg Hth)
    as (g0 & th0 & _ & _ & _ & Hr).
  destruct (gpc g) eqn:Hpc.
  - exists (Collective gi). unfold step. rewrite Hg, Hpc.
    destruct (kds.format (kds_dst s)).
    + destruct (row_count P (kds_dst s) g). eauto.
    + destruct (slot_project P gi (kds_dst s) g) as [[? ?] ?]. eauto.
  - exists (Collective gi). unfold step. rewrite Hg, Hpc.
    destruct (kds.format (kds_dst s)) eqn:Hf.
    + destruct (row_usage P (kds_dst s) g). eauto.
    + exfalso. destruct (HS Hf g) as [Hx | Hx]; [| congruence | congruence].
      apply list_elem_of_In. eapply list_elem_of_lookup_2. eassumption.
  - exists (Commit gi l). unfold step. rewrite Hg, Hpc, Hth, Hret.
    destruct (row_commit P (gi, l) (kds_dst s) usage_prev count th). eauto.
  - destruct Hr as (? & _). congruence.
Qed.

(** Every partial execution extends to a finished one. *)
Lemma completes n : forall s,
  pending s <= Z.of_nat n -> reachable P s0 s ->
  exists sched s', exec P sched s = Some s' /\ finished s' = true.
Proof.
  induction n as [| n IH]; intros s Hn Hs.
  - destruct (finished s) eqn:Hfin; [exists [], s; auto |].
    destruct (progress s Hs Hfin) as (a & s1 & Ha).
    pose proof (transition_pending s s1 (step_transition P _ _ _ Ha)).
    pose proof (pending_nonneg s1). lia.
  - destruct (finished s) eqn:Hfin; [exists [], s; auto |].
    destruct (progress s Hs Hfin) as (a & s1 & Ha).
    pose proof (transition_pending s s1 (step_transition P _ _ _ Ha)).
    destruct (IH s1) as (sched & s' & Hs' & Hf');
      [lia | eapply reachable_step; eauto |].
    exists (a :: sched), s'. simpl. rewrite Ha. auto.
Qed.

Lemma runs_to_completion s :
  reachable P s0 s ->
  exists sched s', exec P sched s = Some s' /\ finished s' = true.
Proof.
  intros Hs. apply (completes (Z.to_nat (pending s))); [| assumption].
  pose proof (pending_nonneg s). lia.
Qed.

End Completion.

(** ** The shared error cell *)

Section ErrorCell.
Context (P : platform).
Hypothesis Hsev : severity_order P.

Lemma writeback_cases c e :
  let c' := kern_writeback_error_status P c e in
  (c' = c \/ (c' = e /\ e <> StromError_Success)) /\
  (c <> StromError_Success -> c' <> StromError_Success).
Proof.
  destruct e, c; simpl;
    repeat match goal with
           | |- context [worse P ?a ?b] => destruct (worse P a b)
           end;
    (split; [first [left; reflexivity
                   | right; split; [reflexivity | discriminate]]
            | congruence]).
Qed.

Lemma writeback_covers c e S :
  covers P c S ->
  covers P (kern_writeback_error_status P c e) (fun x => x = e \/ S x).
Proof.
  intros Hc x [-> | Hx].
  - destruct e, c; simpl;
      try match goal with
          | |- context [if worse P ?a ?b then _ else _] =>
            destruct (worse P a b) eqn:Hw
          end;
      (split; [first [apply (worse_success P Hsev)
                     | apply (worse_irrefl P Hsev) | exact Hw]
              | intros ?; try discriminate; congruence]).
  - destruct (Hc x Hx) as [Hw Hne].
    destruct e, c; simpl; try exact (conj Hw Hne);
      try (destruct x;
           [split; [apply (worse_success P Hsev) | intros H; now elim H]
           | exfalso; apply Hne; [discriminate | reflexivity]
           | exfalso; apply Hne; [discriminate | reflexivity]]);
      match goal with
      | |- context [if worse P ?a ?b then _ else _] =>
        destruct (worse P a b) eqn:Hec; [| exact (conj Hw Hne)]
      end;
      (split; [| discriminate]);
      match goal with
      | |- worse P x ?e = false =>
        destruct (worse P x e) eqn:Hxe; [| reflexivity];
        pose proof (worse_trans P Hsev _ _ _ Hxe Hec); congruence
      end.
Qed.

Lemma covers_ext c (S S' : StromError -> Prop) :
  (forall e, S' e -> S e) -> covers P c S -> covers P c S'.
Proof. intros H Hc e He. apply Hc, H, He. Qed.

Lemma writeback_errors_covers ths : forall c S,
  covers P c S ->
  covers P (writeback_errors P c ths)
         (fun x => (exists th, In th ths /\ errcode th = x) \/ S x).
Proof.
  induction ths as [| th ths IH]; intros c S Hc; simpl.
  - eapply covers_ext; [| exact Hc]. intros e [(? & [] & _) | He]. exact He.
  - eapply covers_ext; [| apply IH, writeback_covers, Hc].
    intros e [(th' & [<- | Hin] & He) | He]; eauto.
Qed.

Lemma writeback_errors_origin ths : forall c,
  writeback_errors P c ths = c \/
  exists th, In th ths /\ errcode th = writeback_errors P c ths.
Proof.
  induction ths as [| th ths IH]; intros c; simpl; [now left |].
  destruct (IH (kern_writeback_error_status P c (errcode th)))
    as [Hsame | (th' & Hin & He)].
  - rewrite Hsame.
    destruct (writeback_cases c (errcode th)) as [[H | [H _]] _];
      [now left | right].
    exists th. split; [now left | now rewrite H].
  - right. exists th'. split; [now right | assumption].
Qed.

Section Cell.
Variable (s0 : state).
Hypothesis Hfresh : fresh_entry s0.
Hypothesis Hclean_cell : errcell s0 = StromError_Success.

Lemma returned_codes_persist s s' e :
  structured P s0 s -> transition P s s' ->
  returned_codes s e -> returned_codes s' e.
Proof.
  intros Hst Ht (gi & g & l & th & Hg & Hth & Hret & He).
  destruct (returned_thread_step P s0 Hfresh s s' gi g l th Hst Ht Hg Hth Hret)
    as [(g' & Hg' & Hth') _].
  exists gi, g', l, th. auto.
Qed.

(** The returned threads after a transition on group [gi]: those of the
    new group, and those that had returned before. *)
Lemma returned_codes_insert s gi g' e (gs' := <[gi := g']> (groups s)) d st c k :
  returned_codes (mk_state d st gs' c k) e ->
  (exists th, In th (threads g') /\ returned th = true /\ errcode th = e) \/
  (exists gj g l th, gj <> gi /\ groups s !! gj = Some g /\
                     threads g !! l = Some th /\ returned th = true /\
                     errcode th = e).
Proof.
  intros (gj & g & l & th & Hg & Hth & Hret & He). simpl in Hg. subst gs'.
  apply list_lookup_insert_Some in Hg as [(-> & <- & _) | (Hne & Hg)].
  - left. exists th. repeat apply conj; try assumption.
    apply list_elem_of_In. eapply list_elem_of_lookup_2. eassumption.
  - right. exists gj, g, l, th. auto.
Qed.

Lemma cell_step s s' :
  structured P s0 s -> cell_is_worst P s -> transition P s s' ->
  cell_is_worst P s'.
Proof.
  intros Hst [Hcov Horig] Ht.
  pose proof (returned_codes_persist s s') as Hpersist.
  specialize (fun e => Hpersist e Hst Ht).
  (* a transition that writes nothing back *)
  assert (Hquiet : forall gi g g' d st,
            groups s !! gi = Some g ->
            s' = mk_state d st (<[gi := g']> (groups s)) (errcell s) (kresults s) ->
            Forall (fun th => returned th = false) (threads g') ->
            cell_is_worst P s').
  { intros gi g g' d st Hg -> Hun. split; simpl.
    - intros e He. apply Hcov.
      apply returned_codes_insert in He
        as [(th & Hin & Hret & _) | (gj & g2 & l & th & _ & ? & ? & ? & ?)].
      + rewrite Forall_forall in Hun.
        apply list_elem_of_In, Hun in Hin. congruence.
      + exists gj, g2, l, th. auto.
    - destruct Horig as [Hs | Hr]; [now left | right].
      now apply Hpersist in Hr. }
  (* a transition after which a whole group writes back *)
  assert (Hall : forall gi g g' d st,
            groups s !! gi = Some g ->
            s' = mk_state d st (<[gi := g']> (groups s))
                          (writeback_errors P (errcell s) (threads g'))
                          (kresults s) ->
            Forall (fun th => returned th = true) (threads g') ->
            cell_is_worst P s').
  { intros gi g g' d st Hg Hs' Hret.
    pose proof (writeback_errors_covers (threads g') _ _ Hcov) as Hc'.
    split.
    - rewrite Hs' at 1. simpl. eapply covers_ext; [| exact Hc'].
      intros e He. rewrite Hs' in He.
      apply returned_codes_insert in He
        as [(th & Hin & _ & He) | (gj & g2 & l & th & _ & ? & ? & ? & ?)].
      + left. eauto.
      + right. exists gj, g2, l, th. auto.
    - destruct (writeback_errors_origin (threads g') (errcell s))
        as [Hsame | (th & Hin & He)].
      + destruct Horig as [Hx | Hr]; [left | right].
        * rewrite Hs'. simpl. now rewrite Hsame.
        * apply Hpersist in Hr. rewrite Hs' at 2. simpl. now rewrite Hsame.
      + right. rewrite Hs'. simpl.
        apply list_elem_of_In, list_elem_of_lookup in Hin as [l Hl].
        exists gi, g', l, th. repeat apply conj; try assumption.
        * apply list_lookup_insert_eq. now apply lookup_lt_Some in Hg.
        * rewrite Forall_forall in Hret. apply Hret.
          eapply list_elem_of_lookup_2. eassumption. }
  inversion Ht as [gi g d' g' Hg _ Hpc E | gi g np c d' g' Hg _ Hpc E
                  | gi g d' evs g' Hg Hf Hpc E
                  | gi g l th up cnt evs th' Hg Hpc Hth Hret E]; subst s'.
  - destruct (row_count_threads P _ _ _ _ E) as [[Hpc' | (np & c & Hpc')] HR];
      rewrite Hpc' in *.
    + eapply Hall; [exact Hg | reflexivity |].
      apply Forall_forall. intros th' Hin.
      apply list_elem_of_lookup in Hin as [l Hl].
      destruct (Forall2_lookup_r _ _ _ _ _ HR Hl) as (th & _ & _ & Hr & _).
      exact Hr.
    + eapply Hquiet; [exact Hg | reflexivity |].
      apply Forall_forall. intros th' Hin.
      apply list_elem_of_lookup in Hin as [l Hl].
      destruct (Forall2_lookup_r _ _ _ _ _ HR Hl) as (th & _ & _ & Hr & _).
      exact Hr.
  - eapply Hquiet; [exact Hg | reflexivity |].
    destruct (row_usage_threads P _ _ _ _ E) as [_ HR].
    apply Forall_forall. intros th' Hin.
    apply list_elem_of_lookup in Hin as [l Hl].
    destruct (Forall2_lookup_r _ _ _ _ _ HR Hl) as (th & _ & _ & _ & Hr & _).
    exact Hr.
  - eapply Hall; [exact Hg | reflexivity |].
    destruct (slot_project_threads P _ _ _ _ _ _ E) as [_ HR].
    apply Forall_forall. intros th' Hin.
    apply list_elem_of_lookup in Hin as [l Hl].
    destruct (Forall2_lookup_r _ _ _ _ _ HR Hl) as (th & _ & _ & Hr & _).
    exact Hr.
  - apply row_commit_thread in E as Hfacts.
    destruct Hfacts as (_ & _ & _ & _ & _ & Hret' & _).
    assert (Hth' : returned_codes
              (mk_state (kds_dst s) (stores s ++ evs)
                 (<[gi := mk_group (<[l := th']> (threads g)) (gpc g)]> (groups s))
                 (kern_writeback_error_status P (errcell s) (errcode th'))
                 (kresults s)) (errcode th')).
    { exists gi, (mk_group (<[l := th']> (threads g)) (gpc g)), l, th'.
      simpl. repeat apply conj; try reflexivity; try assumption.
      - apply list_lookup_insert_eq. now apply lookup_lt_Some in Hg.
      - apply list_lookup_insert_eq. now apply lookup_lt_Some in Hth. }
    split; simpl.
    + eapply covers_ext; [| apply writeback_covers, Hcov].
      intros e (gj & g2 & l2 & th2 & Hg2 & Hth2 & Hret2 & He). simpl in Hg2.
      apply list_lookup_insert_Some in Hg2 as [(-> & <- & _) | (Hne & Hg2)].
      * simpl in Hth2.
        apply list_lookup_insert_Some in Hth2 as [(-> & <- & _) | (Hne & Hth2)];
          [now left | right].
        exists gj, g, l2, th2. auto.
      * right. exists gj, g2, l2, th2. auto.
    + destruct (writeback_cases (errcell s) (errcode th'))
        as [[Hsame | [Hnew _]] _].
      * rewrite Hsame. destruct Horig as [Hx | Hr]; [now left | right].
        apply (Hpersist _ Hr).
      * right. rewrite Hnew. exact Hth'.
Qed.

Lemma cell_reachable s :
  reachable P s0 s -> structured P s0 s /\ cell_is_worst P s.
Proof.
  apply (reachable_invariant P
           (fun s => structured P s0 s /\ cell_is_worst P s)).
  - split; [apply structured_entry, Hfresh |]. split; [| now left].
    intros e (gi & g & l & th & Hg & Hth & Hret & _). exfalso.
    destruct Hfresh as (_ & _ & Hf).
    destruct (Hf g th) as [Hr _]; [| | congruence];
      apply list_elem_of_In; eapply list_elem_of_lookup_2; eassumption.
  - intros s1 s2 [Hst HC] Ht. split.
    + eapply structured_step; eauto.
    + eapply cell_step; eauto.
Qed.

End Cell.

End ErrorCell.

(** ** The final item count of the destination *)

Section ItemCount.
Context (P : platform).
Variable (s0 : state).
Hypothesis Hfresh : fresh_entry s0.
Hypothesis Hrange : 0 <= kds.nitems (kds_dst s0) < 2 ^ 32.

Lemma rows_of_rel (ths ths' : list kern_thread) pc :
  Forall2 (thread_rel P pc) ths ths' ->
  zsum (map (fun th => has_row (tupitem_src th)) ths')
  = zsum (map (fun th => has_row (tupitem_src th)) ths).
Proof.
  intros H. apply zsum_map_ext_Forall2. eapply Forall2_impl; [exact H |].
  intros th th' Hr. simpl. now rewrite (thread_rel_tupitem P _ _ _ Hr).
Qed.

Lemma u32_add_l a b : u32 (u32 a + b) = u32 (a + b).
Proof. unfold u32. now rewrite Zplus_mod_idemp_l. Qed.

Lemma row_count_nitems d g d' g' :
  0 <= kds.nitems d < 2 ^ 32 ->
  row_count P d g = (d', g') ->
  kds.nitems d' = u32 (kds.nitems d + rows_of g).
Proof.
  intros Hd. unfold row_count, arithmetic_stairlike_add.
  rewrite stairlike_total_zsum. fold (rows_of g).
  pose proof (reserve_sum (kds.nitems d) (rows_of g) Hd) as Hres.
  destruct (reserve _ _) as [np n']. intros [= <- <-]. exact Hres.
Qed.

Lemma slot_project_nitems who d g d' evs g' :
  0 <= kds.nitems d < 2 ^ 32 ->
  slot_project P who d g = (d', evs, g') ->
  kds.nitems d' = u32 (kds.nitems d + rows_of g).
Proof.
  intros Hd. unfold slot_project, arithmetic_stairlike_add.
  rewrite stairlike_total_zsum. fold (rows_of g).
  pose proof (reserve_sum (kds.nitems d) (rows_of g) Hd) as Hres.
  destruct (reserve _ _) as [np n']. intros [= <- <- <-]. exact Hres.
Qed.

Lemma itemcount_step s s' :
  kds.nitems (kds_dst s) = u32 (kds.nitems (kds_dst s0) + counted (groups s)) ->
  transition P s s' ->
  kds.nitems (kds_dst s') = u32 (kds.nitems (kds_dst s0) + counted (groups s')).
Proof.
  intros Hn Ht.
  assert (Hr : 0 <= kds.nitems (kds_dst s) < 2 ^ 32)
    by (rewrite Hn; apply u32_range).
  destruct Ht as [gi g d' g' Hg _ Hpc E | gi g np c d' g' Hg _ Hpc E
                 | gi g d' evs g' Hg Hf Hpc E
                 | gi g l th up cnt evs th' Hg Hpc Hth Hret E];
    simpl; unfold counted; rewrite (zsum_map_insert _ _ _ _ _ Hg);
    fold (counted (groups s)).
  - rewrite (row_count_nitems _ _ _ _ Hr E), Hn, u32_add_l. f_equal.
    destruct (row_count_threads P _ _ _ _ E) as [Hpc' HR].
    unfold counted_rows. rewrite Hpc.
    pose proof (rows_of_rel _ _ _ HR) as Hrows. fold (rows_of g') in Hrows.
    fold (rows_of g) in Hrows.
    destruct Hpc' as [-> | (np & c & ->)]; lia.
  - destruct (row_usage_frame P _ _ _ _ E) as (_ & _ & _ & _ & ->).
    rewrite Hn. f_equal.
    destruct (row_usage_threads P _ _ _ _ E) as [(up & c' & Hpc') HR].
    unfold counted_rows. rewrite Hpc, Hpc'.
    assert (rows_of g' = rows_of g); [| lia].
    apply zsum_map_ext_Forall2. eapply Forall2_impl; [exact HR |].
    intros th th' (Ht & _). simpl. now rewrite Ht.
  - rewrite (slot_project_nitems _ _ _ _ _ _ Hr E), Hn, u32_add_l. f_equal.
    destruct (slot_project_threads P _ _ _ _ _ _ E) as [Hpc' HR].
    unfold counted_rows. rewrite Hpc, Hpc'.
    pose proof (rows_of_rel _ _ _ HR) as Hrows. fold (rows_of g') in Hrows.
    fold (rows_of g) in Hrows. lia.
  - rewrite Hn. f_equal. unfold counted_rows. simpl.
    assert (rows_of (mk_group (<[l := th']> (threads g)) (gpc g)) = rows_of g);
      [| destruct (gpc g); lia].
    unfold rows_of. simpl. rewrite (zsum_map_insert _ _ _ _ _ Hth).
    apply row_commit_thread in E as (-> & _). lia.
Qed.

Lemma finished_counted s :
  structured P s0 s -> finished s = true ->
  counted (groups s) = total_rows (groups s0).
Proof.
  intros Hst Hfin.
  rewrite <- (proj1 (structured_totals P _ _ Hst)).
  unfold counted, total_rows. f_equal. apply map_ext_in.
  intros g Hin. unfold counted_rows.
  destruct (gpc g) eqn:Hpc; try reflexivity.
  (* a group at the entry whose threads have all returned has no thread *)
  unfold finished in Hfin. rewrite forallb_forall in Hfin.
  specialize (Hfin g Hin). rewrite forallb_forall in Hfin.
  destruct (threads g) as [| th ths] eqn:Hths; [unfold rows_of; now rewrite Hths |].
  exfalso. apply list_elem_of_In, list_elem_of_lookup in Hin as [gi Hgi].
  assert (Hth : threads g !! 0%nat = Some th) by now rewrite Hths.
  assert (Hret : returned th = true) by (apply Hfin; now left).
  destruct (returned_not_waiting P s0 Hfresh s gi g 0%nat th Hst Hgi Hth Hret)
    as [Hx | (? & ? & Hx)]; congruence.
Qed.

(** The item count at the end of an invocation is the count at the
    start plus the number of rows, modulo [2^32], whatever the schedule. *)
Lemma final_itemcount sched s :
  exec P sched s0 = Some s -> finished s = true ->
  kds.nitems (kds_dst s)
  = u32 (kds.nitems (kds_dst s0) + total_rows (groups s0)).
Proof.
  intros Hs Hfin.
  assert (Hst : structured P s0 s)
    by (apply structured_reachable; [apply Hfresh | now exists sched]).
  rewrite <- (finished_counted s Hst Hfin).
  revert Hs.
  apply (exec_invariant P
           (fun s => kds.nitems (kds_dst s)
                     = u32 (kds.nitems (kds_dst s0) + counted (groups s)))).
  - apply itemcount_step.
  - assert (Hc : counted (groups s0) = 0).
    { destruct Hfresh as (He & _). unfold counted, at_entry in *.
      induction He as [| g gs Hg _ IH]; simpl; [reflexivity |].
      unfold counted_rows at 1. rewrite Hg. lia. }
    rewrite Hc, Z.add_0_r, u32_small; [reflexivity | exact Hrange].
Qed.

End ItemCount.

(** ** The invocation as a whole *)

Section Invocation.
Context (P : platform).
Variables (src : list kern_tupitem)
          (eval : Z -> kern_tupitem -> bool * StromError)
          (d : kds.t) (k : kern_resultbuf) (grid : list (list Z)).

Lemma gpuscan_qual_clean cell :
  clean_rows (gpuscan_qual src eval d cell k grid).
Proof.
  intros g th Hg Hth Hrow. unfold gpuscan_qual in Hg. simpl in Hg.
  apply in_map_iff in Hg as (ids & <- & _). simpl in Hth.
  apply in_map_iff in Hth as (id & <- & _).
  destruct (enter_tupitem src eval id) as (Ht & He & _).
  rewrite He. rewrite Ht in Hrow.
  destruct (fst (gpuscan_qual_tupitem src eval id)) as [tup |] eqn:E;
    [| congruence].
  eapply gpuscan_qual_tupitem_clean; eassumption.
Qed.

Lemma gpuscan_qual_tupitem_source id tup :
  fst (gpuscan_qual_tupitem src eval id) = Some tup ->
  src !! Z.to_nat id = Some tup.
Proof.
  unfold gpuscan_qual_tupitem.
  destruct (id <? _); [| discriminate].
  destruct (src !! Z.to_nat id) as [t |]; [| discriminate].
  destruct (eval id t) as [[|] e]; simpl; [| discriminate].
  destruct (negb (StromError_eqb e StromError_Success)); simpl;
    [discriminate | congruence].
Qed.

(** C5: with no device projection, every row that survives the row-format
    projector (its thread has returned with a clean context) has been
    copied verbatim: the thread has issued one copy of
    [offsetof(kern_tupitem, htup) + t_len] bytes, which are the bytes of
    the source item, to the offset [htup_offset] it reserved, and has
    stored that offset in its index slot.  When no counter wraps and the
    copy fits in the bytes reserved for it, those bytes are found in the
    arena at that offset, byte for byte, from then on. *)
Theorem verbatim_copy_reproduces_source cell sched s gi g l th tup :
  kds.format d = kds.KDS_FORMAT_ROW ->
  STROM_SET_ERROR P StromError_Success StromError_DataStoreNoSpace
    <> StromError_Success ->
  exec P sched (gpuscan_qual src eval d cell k grid) = Some s ->
  groups s !! gi = Some g -> threads g !! l = Some th ->
  tupitem_src th = Some tup ->
  returned th = true -> errcode th = StromError_Success ->
  Z.of_nat (length (item_bytes tup)) = htup_offset_of P + t_len tup ->
  (exists ids id, grid !! gi = Some ids /\ ids !! l = Some id /\
                  src !! Z.to_nat id = Some tup) /\
  exists up cnt,
    gpc g = GCommit up cnt /\
    In (StoreTuple (gi, l) (htup_offset_at (kds_dst s) up th) (item_bytes tup))
       (stores s) /\
    In (StoreIndex (gi, l) (item_index th) (htup_offset_at (kds_dst s) up th))
       (stores s) /\
    (arena_ready P (gpuscan_qual src eval d cell k grid) ->
     copies_fit P (gpuscan_qual src eval d cell k grid) ->
     forall j, 0 <= j < htup_offset_of P + t_len tup ->
       arena_read (KERN_DATA_STORE_HEAD_LENGTH P (kds.ncols (kds_dst s)))
                  (stores s) (htup_offset_at (kds_dst s) up th + j)
       = item_bytes tup !! Z.to_nat j).
Proof.
  intros Hfmt Hset Hs Hg Hth Hsrc Hret He Hlen. split.
  - destruct (thread_origin P src eval d cell k grid sched s gi g l th Hs Hg Hth)
      as (ids & id & Hids & Hid & Hrel & _).
    exists ids, id. repeat apply conj; try assumption.
    apply gpuscan_qual_tupitem_source.
    rewrite <- (proj1 (enter_tupitem src eval id)). congruence.
  - destruct (survivors_reachable P Hset _
                (gpuscan_qual_fresh src eval d cell k grid)
                (gpuscan_qual_clean cell) Hfmt s) as [_ HK];
      [now exists sched |].
    destruct (HK gi g l th tup Hg Hth Hsrc Hret He) as (up & cnt & Hpc & H1 & H2).
    exists up, cnt. rewrite <- Hlen, Nat2Z.id, firstn_all in H1.
    repeat apply conj; try assumption.
    intros Hready Hfit j Hj.
    destruct (lookup_lt_is_Some_2 (item_bytes tup) (Z.to_nat j)) as [v Hv];
      [lia |].
    rewrite Hv.
    apply (tuple_bytes_stay P (gpuscan_qual src eval d cell k grid) s gi l _
             (item_bytes tup) j v Hready
             (gpuscan_qual_fresh src eval d cell k grid) Hfit);
      [now exists sched | exact H1 | lia | exact Hv].
Qed.

(** C8: a row in range on which [gpuscan_qual_eval] leaves an error code
    [e] is demoted to "no row" with [e] kept in the thread's context; the
    thread writes nothing into the destination; the invocation can always
    be run to completion; and when it has completed, the error cell holds
    a code that is not [Success], that some thread holds, and than which
    no thread holds a worse one. *)
Theorem predicate_error_is_demoted_and_reported
    gi ids l id tup visible e sched s :
  severity_order P ->
  (forall e0 c, e0 <> StromError_Success ->
                STROM_SET_ERROR P e0 c <> StromError_Success) ->
  grid !! gi = Some ids -> ids !! l = Some id ->
  0 <= id -> src !! Z.to_nat id = Some tup ->
  eval id tup = (visible, e) -> e <> StromError_Success ->
  exec P sched (gpuscan_qual src eval d StromError_Success k grid) = Some s ->
  gpuscan_qual_tupitem src eval id = (None, e) /\
  (exists g th,
     groups s !! gi = Some g /\ threads g !! l = Some th /\
     tupitem_src th = None /\
     (errcode th = e \/
      errcode th = STROM_SET_ERROR P e StromError_DataStoreNoSpace) /\
     errcode th <> StromError_Success) /\
  wrote_nothing (gi, l) (stores s) /\
  (exists sched' s', exec P sched' s = Some s' /\ finished s' = true) /\
  (finished s = true ->
   errcell s <> StromError_Success /\
   returned_codes s (errcell s) /\
   forall e', returned_codes s e' -> worse P e' (errcell s) = false).
Proof.
  intros Hsev Hkeep Hids Hid Hid0 Htup Heval He Hs.
  set (s0 := gpuscan_qual src eval d StromError_Success k grid) in *.
  assert (Hfresh : fresh_entry s0) by apply gpuscan_qual_fresh.
  assert (Hreach : reachable P s0 s) by now exists sched.
  assert (Hq : gpuscan_qual_tupitem src eval id = (None, e)).
  { unfold gpuscan_qual_tupitem.
    apply lookup_lt_Some in Htup as Hlt.
    replace (id <? Z.of_nat (length src)) with true
      by (symmetry; apply Z.ltb_lt; lia).
    rewrite Htup, Heval. destruct visible; simpl; [| reflexivity].
    destruct e; simpl; congruence. }
  destruct (writers_returned_reachable P s0 Hfresh s Hreach) as [[_ HF] _].
  assert (Hg0 : groups s0 !! gi = Some (mk_group (map (enter src eval) ids) GCount))
    by (unfold s0, gpuscan_qual; simpl; now rewrite list_lookup_fmap, Hids).
  destruct (Forall2_lookup_l _ _ _ _ _ HF Hg0) as (g & Hg & Hr).
  assert (Hth0 : threads (mk_group (map (enter src eval) ids) GCount) !! l
                 = Some (enter src eval id))
    by (simpl; now rewrite list_lookup_fmap, Hid).
  destruct (Forall2_lookup_l _ _ _ _ _ Hr Hth0) as (th & Hth & Hrel).
  destruct (enter_tupitem src eval id) as (Ht0 & He0 & _).
  rewrite Hq in Ht0, He0. simpl in Ht0, He0.
  assert (Hnone : tupitem_src th = None)
    by (rewrite (thread_rel_tupitem P _ _ _ Hrel); exact Ht0).
  assert (Hcode : errcode th = e \/
                  errcode th = STROM_SET_ERROR P e StromError_DataStoreNoSpace).
  { destruct Hrel as [_ Hrel]. destruct (gpc g).
    - subst th. now left.
    - destruct Hrel as (_ & -> & _). now left.
    - destruct Hrel as (_ & _ & [-> | [_ [_ ->]]]); [now left | right; congruence].
    - destruct Hrel as (_ & _ & [-> | [_ ->]]); [now left | right; congruence]. }
  assert (Hbad : errcode th <> StromError_Success).
  { destruct Hcode as [-> | ->]; [assumption | now apply Hkeep]. }
  split; [exact Hq |]. split; [exists g, th; auto |].
  split; [eapply (rowless_wrote_nothing P s0 Hfresh); eauto |].
  split; [now apply (runs_to_completion P s0 Hfresh) |].
  intros Hfin.
  destruct (cell_reachable P Hsev s0 Hfresh eq_refl s Hreach)
    as [_ [Hcov Horig]].
  assert (Hret : returned th = true).
  { unfold finished in Hfin. rewrite forallb_forall in Hfin.
    assert (Hin : In g (groups s))
      by (apply list_elem_of_In; eapply list_elem_of_lookup_2; eassumption).
    specialize (Hfin g Hin). rewrite forallb_forall in Hfin. apply Hfin.
    apply list_elem_of_In. eapply list_elem_of_lookup_2. eassumption. }
  assert (Hmine : returned_codes s (errcode th))
    by (exists gi, g, l, th; auto).
  assert (Hcell : errcell s <> StromError_Success)
    by (apply (Hcov _ Hmine), Hbad).
  repeat apply conj; [exact Hcell | tauto |].
  intros e' He'. apply (Hcov e' He').
Qed.

(** C9 (amended): the final item count does not depend on the order in
    which the groups run, neither in the result accumulator nor in the
    destination of [gpuscan_qual] (whose result buffer stays as it was);
    the set of indices recorded by the result accumulator does not depend
    on it either when the rows that passed or need a re-check fit in
    [nrooms]. *)
Theorem results_independent_of_group_order
    (wgrid : list workgroup) (rooms : Z) wsched1 wsched2
    cell sched1 sched2 s1 s2 :
  Permutation wsched1 wgrid -> Permutation wsched2 wgrid ->
  0 <= rooms -> Z.of_nat (length (concat wgrid)) < 2 ^ 32 ->
  0 <= kds.nitems d < 2 ^ 32 ->
  exec P sched1 (gpuscan_qual src eval d cell k grid) = Some s1 ->
  finished s1 = true ->
  exec P sched2 (gpuscan_qual src eval d cell k grid) = Some s2 ->
  finished s2 = true ->
  let k1 := run wsched1 (fresh rooms) in
  let k2 := run wsched2 (fresh rooms) in
  nitems k1 = nitems k2 /\
  (Z.of_nat (length (List.filter qualifies (concat wgrid))) <= rooms ->
   forall v, In v (recorded k1) <-> In v (recorded k2)) /\
  kds.nitems (kds_dst s1) = kds.nitems (kds_dst s2) /\
  kresults s1 = kresults s2.
Proof.
  intros HP1 HP2 Hr Hlt Hd Hs1 Hf1 Hs2 Hf2 k1 k2.
  destruct (writeback_two_orders wgrid rooms wsched1 wsched2 HP1 HP2 Hr Hlt)
    as [Hn Hrec].
  split; [exact Hn |]. split; [exact Hrec |]. split.
  - rewrite (final_itemcount P _ (gpuscan_qual_fresh src eval d cell k grid)
               Hd sched1 s1 Hs1 Hf1).
    rewrite (final_itemcount P _ (gpuscan_qual_fresh src eval d cell k grid)
               Hd sched2 s2 Hs2 Hf2).
    reflexivity.
  - rewrite (kresults_unchanged P src eval d cell k grid sched1 s1 Hs1).
    rewrite (kresults_unchanged P src eval d cell k grid sched2 s2 Hs2).
    reflexivity.
Qed.

End Invocation.

(** ** The theorems at concrete inputs *)

Lemma sample_align_ge a x : 0 < a -> x <= Sample.align a x.
Proof.
  intros Ha. unfold Sample.align.
  pose proof (Z.mul_div_le (x + (a - 1)) a Ha).
  pose proof (Z.mod_pos_bound (x + (a - 1)) a Ha).
  pose proof (Z.div_mod (x + (a - 1)) a ltac:(lia)).
  nia.
Qed.

Lemma sample_severity_nonneg e : 0 <= Sample.severity e.
Proof. destruct e; simpl; lia. Qed.

Lemma sample_severity_order : severity_order Sample.platform.
Proof.
  constructor; simpl.
  - intros e. apply Z.ltb_irrefl.
  - intros a b c H1 H2. apply Z.ltb_lt in H1, H2. apply Z.ltb_lt. lia.
  - intros c. apply Z.ltb_ge. simpl. apply sample_severity_nonneg.
Qed.

Lemma sample_set_error_keeps e0 c :
  e0 <> StromError_Success ->
  STROM_SET_ERROR Sample.platform e0 c <> StromError_Success.
Proof. destruct e0; simpl; congruence. Qed.

Lemma sample_tight_ready : arena_ready Sample.platform Sample.tight.
Proof.
  constructor; try reflexivity.
  - simpl. lia.
  - vm_compute. discriminate.
  - intros x _. simpl. apply sample_align_ge. lia.
  - intros g th Hg Hth Hrow. vm_compute in Hg.
    destruct Hg as [<- | [<- | []]]; vm_compute in Hth;
      repeat (destruct Hth as [<- | Hth]; [reflexivity |]); destruct Hth.
Qed.

Lemma sample_one_group_ready : arena_ready Sample.platform Sample.one_group.
Proof.
  constructor; try reflexivity.
  - simpl. lia.
  - vm_compute. discriminate.
  - intros x _. simpl. apply sample_align_ge. lia.
  - intros g th Hg Hth Hrow. vm_compute in Hg.
    destruct Hg as [<- | []]; vm_compute in Hth;
      repeat (destruct Hth as [<- | Hth]; [reflexivity |]); destruct Hth.
Qed.

Lemma sample_one_group_fits : copies_fit Sample.platform Sample.one_group.
Proof.
  intros g th src0 Hg Hth Hsrc. vm_compute in Hg.
  destruct Hg as [<- | []]; vm_compute in Hth;
    repeat (destruct Hth as [<- | Hth];
            [injection Hsrc as <-; vm_compute; split; discriminate |]);
    destruct Hth.
Qed.


Lemma writeback_records_qualifying_rows_witness :
  let grid := launch 4 [0; 1; 0; 1; 1; 0; 0; -1] in
  let k := run (rev grid) (fresh 8) in
  nitems k = 4 /\
  (forall v, In v (recorded k) <->
     exists t, In t (concat grid) /\ qualifies t = true /\ v = signed_index t) /\
  (forall t, In t (concat grid) -> result t = 0 ->
     ~ In (gid t + 1) (recorded k) /\ ~ In (- (gid t + 1)) (recorded k)).
Proof.
  intros grid k.
  apply (writeback_records_qualifying_rows grid 8 (rev grid)).
  - apply Permutation_sym, Permutation_rev.
  - apply (bool_decide_unpack _). vm_compute. exact I.
  - intros t Hin. vm_compute in Hin.
    repeat (destruct Hin as [<- | Hin]; [simpl; lia |]). destruct Hin.
  - simpl. lia.
  - simpl. lia.
Defined.


Lemma row_arena_safety_witness :
  let s := outcome Sample.platform Sample.tight_schedule Sample.tight in
  arena_apart Sample.platform (kds_dst s) (stores s).
Proof.
  intros s.
  apply (row_arena_safety Sample.platform
           (Sample.src4 ++ [Sample.item 24 5]) Sample.pass_all
           (kds.mk kds.KDS_FORMAT_ROW 0 208 8 0 0)
           StromError_Success (fresh 5) [[0; 1; 2; 3]; [4]]
           Sample.tight_schedule s).
  - exact sample_tight_ready.
  - reflexivity.
Defined.

Lemma scenario_B_outcome_witness :
  let s0 := Scenario.B (Sample.item 24 1) (Sample.item 24 2)
                       (Sample.item 24 3) (Sample.item 24 4)
                       Sample.pass_all 2 4096 (fresh 4) in
  let s := outcome Sample.platform [Collective 0] s0 in
  errcell s = StromError_DataStoreNoSpace /\
  kds.nitems (kds_dst s) = 4 /\
  kds.usage (kds_dst s) = 0 /\
  stores s = [].
Proof.
  intros s0 s.
  apply (scenario_B_outcome Sample.platform
           (Sample.item 24 1) (Sample.item 24 2)
           (Sample.item 24 3) (Sample.item 24 4)
           Sample.pass_all 2 4096 (fresh 4)
           (fun i t => eq_refl) eq_refl [Collective 0] s).
  - reflexivity.
  - reflexivity.
Defined.

Lemma verbatim_copy_reproduces_source_witness :
  let s := outcome Sample.platform (Sample.in_order 4 1) Sample.one_group in
  let th := Sample.thread_at s 0 0 in
  exists up cnt,
    gpc (Sample.group_at s 0) = GCommit up cnt /\
    In (StoreTuple (0%nat, 0%nat) (htup_offset_at (kds_dst s) up th)
          (item_bytes (Sample.item 24 1))) (stores s) /\
    In (StoreIndex (0%nat, 0%nat) (item_index th)
          (htup_offset_at (kds_dst s) up th)) (stores s) /\
    forall j, 0 <= j < 32 ->
      arena_read (KERN_DATA_STORE_HEAD_LENGTH Sample.platform
                    (kds.ncols (kds_dst s)))
                 (stores s) (htup_offset_at (kds_dst s) up th + j)
      = item_bytes (Sample.item 24 1) !! Z.to_nat j.
Proof.
  intros s th.
  destruct (proj2 (verbatim_copy_reproduces_source Sample.platform
           Sample.src4 Sample.pass_all Sample.dst_row (fresh 4)
           (Sample.grid_of 4 1) StromError_Success (Sample.in_order 4 1) s
           0%nat (Sample.group_at s 0) 0%nat th (Sample.item 24 1)
           eq_refl ltac:(discriminate) eq_refl eq_refl eq_refl eq_refl
           eq_refl eq_refl eq_refl))
    as (up & cnt & H1 & H2 & H3 & H4).
  exists up, cnt. repeat apply conj; try assumption.
  apply H4; [exact sample_one_group_ready | exact sample_one_group_fits].
Defined.

Lemma gpuscan_qual_leaves_result_buffer_witness :
  kresults (outcome Sample.platform (Sample.in_order 4 1) Sample.one_group)
  = fresh 4.
Proof.
  apply (proj1 (gpuscan_qual_leaves_result_buffer Sample.platform
           Sample.src4 Sample.pass_all Sample.dst_row StromError_Success
           (fresh 4) (Sample.grid_of 4 1) (Sample.in_order 4 1)
           (outcome Sample.platform (Sample.in_order 4 1) Sample.one_group)
           eq_refl)).
Defined.

Lemma rowless_thread_reserves_bytes_witness :
  let s0 := gpuscan_qual [] Sample.pass_all
              (kds.mk kds.KDS_FORMAT_ROW 2 4096 8 0 0)
              StromError_Success (fresh 1) [[0]] in
  exists s th v,
    exec Sample.platform [Collective 0; Collective 0] s0 = Some s /\
    groups s = [mk_group [th] (GCommit 0 v)] /\
    tupitem_src th = None /\
    scans th = [0; v] /\
    0 < v /\
    kds.usage (kds_dst s) = v.
Proof.
  apply (rowless_thread_reserves_bytes Sample.platform Sample.pass_all
           2 4096 8 StromError_Success (fresh 1)).
  - lia.
  - simpl. lia.
  - intros x. simpl. apply sample_align_ge. lia.
  - vm_compute. reflexivity.
Defined.

Lemma predicate_error_is_demoted_and_reported_witness :
  let s := outcome Sample.platform
             [Collective 0; Collective 0; Commit 0 0] Sample.one_error in
  gpuscan_qual_tupitem [Sample.item 24 1] Sample.eval_error 0
  = (None, StromError_Upstream 7) /\
  wrote_nothing (0%nat, 0%nat) (stores s) /\
  (finished s = true -> errcell s <> StromError_Success).
Proof.
  intros s.
  destruct (predicate_error_is_demoted_and_reported Sample.platform
              [Sample.item 24 1] Sample.eval_error Sample.dst_row (fresh 1)
              [[0]] 0%nat [0] 0%nat 0 (Sample.item 24 1) true
              (StromError_Upstream 7)
              [Collective 0; Collective 0; Commit 0 0] s
              sample_severity_order sample_set_error_keeps
              eq_refl eq_refl ltac:(lia) eq_refl eq_refl ltac:(discriminate)
              eq_refl)
    as (H1 & _ & H3 & _ & H5).
  split; [exact H1 |]. split; [exact H3 |].
  intros Hf. exact (proj1 (H5 Hf)).
Defined.

Lemma results_independent_of_group_order_witness :
  let wgrid := launch 1 [1; 1] in
  let s1 := outcome Sample.platform (Sample.in_order 2 2) Sample.two_groups in
  let s2 := outcome Sample.platform (Sample.in_reverse 2 2) Sample.two_groups in
  nitems (run wgrid (fresh 2)) = nitems (run (rev wgrid) (fresh 2)) /\
  kds.nitems (kds_dst s1) = kds.nitems (kds_dst s2) /\
  kresults s1 = kresults s2.
Proof.
  intros wgrid s1 s2.
  destruct (results_independent_of_group_order Sample.platform
              Sample.src4 Sample.pass_all Sample.dst_row (fresh 4)
              (Sample.grid_of 2 2) wgrid 2 wgrid (rev wgrid)
              StromError_Success
              (Sample.in_order 2 2) (Sample.in_reverse 2 2) s1 s2
              (Permutation_refl _)
              (Permutation_sym (Permutation_rev _))
              ltac:(lia) ltac:(simpl; lia) ltac:(simpl; lia)
              eq_refl eq_refl eq_refl eq_refl)
    as (H1 & _ & H3 & H4).
  auto.
Defined.
(** * Further properties of the code *)

(** ** [gpuscan_writeback_results]: edge cases and the layout of the entries *)

Section ResultBufferMore.

Lemma stairlike_total_rejecting (g : workgroup) :
  Forall (fun t => result t = 0) g ->
  stairlike_total 0 (map binary g) = 0.
Proof.
  induction 1 as [| t g Ht _ IH]; [reflexivity |].
  simpl. unfold binary at 1. rewrite Ht. simpl. exact IH.
Qed.

Lemma write_indices_rejecting base (g : workgroup) : forall offsets k,
  Forall (fun t => result t = 0) g ->
  fold_left (write_index base) (zip g offsets) k = k.
Proof.
  induction g as [| t g IH]; intros offsets k Hg; [reflexivity |].
  destruct offsets as [| o offsets]; [reflexivity |].
  inversion Hg as [| ? ? Ht Hg']; subst. simpl.
  rewrite Ht. simpl. now apply IH.
Qed.

Lemma writeback_group_rejecting k (g : workgroup) :
  0 <= nitems k < 2 ^ 32 ->
  Forall (fun t => result t = 0) g ->
  gpuscan_writeback_results k g = k.
Proof.
  intros Hk Hg. unfold gpuscan_writeback_results, arithmetic_stairlike_add.
  destruct g as [| t g]; [reflexivity |].
  rewrite (stairlike_total_rejecting _ Hg). unfold atomicAdd.
  rewrite Z.add_0_r, u32_small by assumption.
  rewrite write_indices_rejecting by assumption.
  now destruct k.
Qed.

(** A launch in which no row passes and none needs a re-check leaves the
    result buffer, header and array, exactly as it found it. *)
Theorem writeback_rejecting_launch_changes_nothing sched k :
  0 <= nitems k < 2 ^ 32 ->
  (forall t, In t (concat sched) -> result t = 0) ->
  run sched k = k.
Proof.
  intros Hk. unfold run. induction sched as [| g sched IH]; intros Hall;
    [reflexivity |].
  simpl. rewrite writeback_group_rejecting.
  - apply IH. intros t Ht. apply Hall. simpl. apply in_or_app. now right.
  - assumption.
  - apply Forall_forall. intros t Ht. apply Hall. simpl.
    apply in_or_app. left. now apply list_elem_of_In.
Qed.

Lemma writeback_rejecting_launch_changes_nothing_witness :
  run (launch 2 [0; 0; 0]) (mk_resultbuf 1 5 8 [3; -1; 4; 1; -5; 0; 0; 0] [])
  = mk_resultbuf 1 5 8 [3; -1; 4; 1; -5; 0; 0; 0] [].
Proof.
  apply writeback_rejecting_launch_changes_nothing.
  - simpl. lia.
  - intros t Ht. vm_compute in Ht.
    repeat (destruct Ht as [<- | Ht]; [reflexivity |]). destruct Ht.
Defined.

(** When the rows that passed or need a re-check fit in [nrooms], no store
    leaves the array, the array keeps its length, and every entry at or
    past [nitems] is still zero. *)
Theorem writeback_stays_inside_array (grid : list workgroup) rooms sched :
  Permutation sched grid ->
  Z.of_nat (length (concat grid)) < 2 ^ 32 ->
  Z.of_nat (length (List.filter qualifies (concat grid))) <= rooms ->
  let k := run sched (fresh rooms) in
  beyond k = [] /\
  length (results k) = Z.to_nat rooms /\
  forall i, nitems k <= Z.of_nat i < rooms -> results k !! i = Some 0.
Proof.
  intros HP Hlt Hfit k.
  destruct (run_any_order grid rooms sched HP) as (slots & Hperm & Hrun);
    [lia | assumption |].
  pose proof (Permutation_length Hperm) as L. rewrite stored_length in L.
  subst k. rewrite Hrun. unfold image, over, arr. simpl.
  assert (Hlen : (length slots <= Z.to_nat rooms)%nat) by lia.
  rewrite (drop_ge slots) by lia. rewrite (take_ge slots) by lia.
  split; [reflexivity |]. split.
  - rewrite length_app, length_replicate. lia.
  - intros i Hi. rewrite lookup_app_r by lia.
    apply lookup_replicate_2. lia.
Qed.

Lemma writeback_stays_inside_array_witness :
  let k := run (rev (launch 2 [1; 0; -1; 1; 0])) (fresh 4) in
  beyond k = [] /\
  length (results k) = Z.to_nat 4 /\
  forall i, nitems k <= Z.of_nat i < 4 -> results k !! i = Some 0.
Proof.
  apply (writeback_stays_inside_array (launch 2 [1; 0; -1; 1; 0])).
  - apply Permutation_sym, Permutation_rev.
  - simpl. lia.
  - simpl. lia.
Defined.

(** The entries lie in the array in the order in which the groups made
    their reservation and, inside a group, in the order of the local ids;
    a later launch on the same buffer appends after the entries of an
    earlier one and overwrites none of them. *)
Theorem writeback_appends_in_reservation_order sched1 sched2 rooms :
  Z.of_nat (length (concat (sched1 ++ sched2))) < 2 ^ 32 ->
  Z.of_nat (length (List.filter qualifies (concat (sched1 ++ sched2)))) <= rooms ->
  let k1 := run sched1 (fresh rooms) in
  let k2 := run sched2 k1 in
  recorded k1 = map stored_value (List.filter qualifies (concat sched1)) /\
  recorded k2
  = recorded k1 ++ map stored_value (List.filter qualifies (concat sched2)) /\
  nitems k2
  = nitems k1 + Z.of_nat (length (List.filter qualifies (concat sched2))).
Proof.
  intros Hlt Hfit k1 k2.
  rewrite concat_app, length_app in Hlt.
  rewrite concat_app, List.filter_app, length_app in Hfit.
  assert (Hr : 0 <= rooms) by lia.
  assert (H1 : k1 = image rooms (Z.of_nat (length (stored (concat sched1))))
                      (stored (concat sched1))).
  { subst k1. rewrite <- stored_concat. apply run_fresh; [assumption | lia]. }
  assert (H2 : k2 = image rooms
                      (Z.of_nat (length (stored (concat sched1)
                                         ++ stored (concat sched2))))
                      (stored (concat sched1) ++ stored (concat sched2))).
  { subst k2. rewrite H1, <- (stored_concat sched2).
    apply run_image; [assumption |].
    pose proof (stored_length_le (concat sched1)). lia. }
  rewrite H2, H1.
  pose proof (stored_length (concat sched1)) as L1.
  pose proof (stored_length (concat sched2)) as L2.
  rewrite !recorded_image_fits by (rewrite ?length_app; lia).
  split; [reflexivity |]. split; [reflexivity |].
  simpl. rewrite length_app. lia.
Qed.

Lemma writeback_appends_in_reservation_order_witness :
  let k1 := run (launch 2 [1; 0; -1]) (fresh 4) in
  let k2 := run (launch 2 [0; -1; 1]) k1 in
  recorded k1 = [1; -3] /\ recorded k2 = [1; -3; -2; 3] /\ nitems k2 = 4.
Proof.
  apply (writeback_appends_in_reservation_order
           (launch 2 [1; 0; -1]) (launch 2 [0; -1; 1]) 4); simpl; lia.
Defined.

(** The sign of an entry tells a pass from a re-check only while
    [get_global_id() + 1] fits in a positive [cl_int]: the entry of a row
    that passed is [gid + 1] below that bound and is negative from it on,
    and the entry of a row to re-check is [-(gid + 1)] up to that bound and
    is positive past it. *)
Theorem writeback_entry_sign base k t off :
  0 <= gid t < 2 ^ 32 - 1 ->
  exists v,
    (result t <> 0 ->
     write_index base k (t, off) = store_result k (u32 (base + off)) v) /\
    (result t > 0 ->
     (gid t < 2 ^ 31 - 1 -> v = gid t + 1) /\
     (2 ^ 31 - 1 <= gid t -> v < 0)) /\
    (result t < 0 ->
     (gid t <= 2 ^ 31 - 1 -> v = - (gid t + 1)) /\
     (2 ^ 31 - 1 < gid t -> v > 0)).
Proof.
  intros Hg. exists (stored_value t). split; [| split].
  - intros Hr. rewrite write_index_qualifies. unfold qualifies.
    destruct (result t =? 0) eqn:E; [apply Z.eqb_eq in E; lia | reflexivity].
  - intros Hr. unfold stored_value, result_index, size_t, to_cl_int.
    replace (result t >? 0) with true by (symmetry; apply Z.gtb_lt; lia).
    rewrite (Z.mod_small (gid t + 1)) by lia.
    split; intros Hb.
    + rewrite Z.mod_small by lia. lia.
    + replace (gid t + 1 + 2 ^ 31)
        with (gid t + 1 - 2 ^ 31 + 1 * 2 ^ 32) by lia.
      rewrite Z.mod_add by lia. rewrite Z.mod_small by lia. lia.
  - intros Hr. unfold stored_value, result_index, size_t, to_cl_int.
    destruct (result t >? 0) eqn:E; [apply Z.gtb_lt in E; lia |].
    rewrite (Z.mod_small (gid t + 1)) by lia.
    replace (- (gid t + 1)) with (2 ^ 64 - (gid t + 1) + (-1) * 2 ^ 64) by lia.
    rewrite Z.mod_add by lia. rewrite (Z.mod_small (2 ^ 64 - _)) by lia.
    split; intros Hb.
    + replace (2 ^ 64 - (gid t + 1) + 2 ^ 31)
        with (2 ^ 31 - (gid t + 1) + 2 ^ 32 * 2 ^ 32) by lia.
      rewrite Z.mod_add by lia. rewrite Z.mod_small by lia. lia.
    + replace (2 ^ 64 - (gid t + 1) + 2 ^ 31)
        with (2 ^ 32 + 2 ^ 31 - (gid t + 1) + (2 ^ 32 - 1) * 2 ^ 32) by lia.
      rewrite Z.mod_add by lia. rewrite Z.mod_small by lia. lia.
Qed.

Lemma writeback_entry_sign_witness :
  exists v,
    (1 <> 0 ->
     write_index 0 (fresh 1) (mk_thread (2 ^ 31 - 1) 1, 0)
     = store_result (fresh 1) (u32 (0 + 0)) v) /\
    (1 > 0 ->
     (2 ^ 31 - 1 < 2 ^ 31 - 1 -> v = 2 ^ 31 - 1 + 1) /\
     (2 ^ 31 - 1 <= 2 ^ 31 - 1 -> v < 0)) /\
    (1 < 0 ->
     (2 ^ 31 - 1 <= 2 ^ 31 - 1 -> v = - (2 ^ 31 - 1 + 1)) /\
     (2 ^ 31 - 1 < 2 ^ 31 - 1 -> v > 0)).
Proof.
  apply (writeback_entry_sign 0 (fresh 1) (mk_thread (2 ^ 31 - 1) 1) 0).
  simpl. lia.
Defined.

End ResultBufferMore.
(** ** The DMA windows of [kern_gpuscan] *)

Section LayoutWindows.
Context (P : platform).
Variables (results_offset sizeof_result : Z).

(** With one relation, the window sent to the device and the window
    received from it cover the whole [kern_gpuscan] between them; the
    received window starts at the result buffer and ends with the
    structure; the two overlap in the header of the result buffer and in
    nothing else; and each of [results[0 .. nrooms-1]] lies in the
    received window, past the end of the sent one. *)
Theorem dma_windows_cover_structure (kg : Layout.kern_gpuscan) :
  (forall x, 0 <= x -> x <= STROMALIGN P x) ->
  0 <= Layout.kparams_length kg ->
  0 <= results_offset -> 0 < sizeof_result ->
  nrels (Layout.kresults kg) = 1 ->
  0 <= nrooms (Layout.kresults kg) < 2 ^ 32 ->
  let send_end := Layout.KERN_GPUSCAN_DMASEND_OFFSET kg
                  + Layout.KERN_GPUSCAN_DMASEND_LENGTH P results_offset sizeof_result kg in
  let recv := Layout.KERN_GPUSCAN_DMARECV_OFFSET P kg in
  let recv_end := recv + Layout.KERN_GPUSCAN_DMARECV_LENGTH P results_offset sizeof_result kg in
  Layout.KERN_GPUSCAN_DMASEND_OFFSET kg = 0 /\
  Layout.kparams_length kg <= recv /\
  recv = Layout.KERN_GPUSCAN_RESULTBUF P kg /\
  recv <= send_end /\
  send_end - recv = results_offset /\
  send_end <= recv_end /\
  recv_end = Layout.KERN_GPUSCAN_LENGTH P results_offset sizeof_result kg /\
  forall i, 0 <= i < nrooms (Layout.kresults kg) ->
    send_end <= recv + Layout.offsetof_results results_offset sizeof_result i /\
    recv + Layout.offsetof_results results_offset sizeof_result i + sizeof_result
    <= recv_end.
Proof.
  intros Hal Hlen Hoff Hsz Hrels Hrooms. cbv zeta.
  unfold Layout.KERN_GPUSCAN_LENGTH, Layout.KERN_GPUSCAN_DMASEND_OFFSET,
    Layout.KERN_GPUSCAN_DMASEND_LENGTH, Layout.KERN_GPUSCAN_DMARECV_OFFSET,
    Layout.KERN_GPUSCAN_DMARECV_LENGTH, Layout.KERN_GPUSCAN_RESULTBUF_LENGTH,
    Layout.KERN_GPUSCAN_RESULTBUF, Layout.KERN_GPUSCAN_PARAMBUF_LENGTH,
    Layout.offsetof_kparams, Layout.offsetof_results.
  rewrite Hrels, Z.mul_1_l, u32_small by assumption.
  pose proof (Hal (Layout.kparams_length kg) Hlen) as H1.
  pose proof (Hal (results_offset + sizeof_result * nrooms (Layout.kresults kg))
                ltac:(nia)) as H2.
  repeat apply conj; try lia.
  intros i Hi. split; nia.
Qed.

End LayoutWindows.

Lemma dma_windows_cover_structure_witness :
  let kg := Layout.mk_gpuscan 100 (fresh 10) in
  let send_end := 0 + (112 + 16) in
  let recv := 112 in
  let recv_end := 112 + 64 in
  Layout.KERN_GPUSCAN_DMASEND_OFFSET kg = 0 /\
  Layout.kparams_length kg <= recv /\
  recv = Layout.KERN_GPUSCAN_RESULTBUF Sample.platform kg /\
  recv <= send_end /\
  send_end - recv = 16 /\
  send_end <= recv_end /\
  recv_end = Layout.KERN_GPUSCAN_LENGTH Sample.platform 16 4 kg /\
  forall i, 0 <= i < 10 ->
    send_end <= recv + Layout.offsetof_results 16 4 i /\
    recv + Layout.offsetof_results 16 4 i + 4 <= recv_end.
Proof.
  apply (dma_windows_cover_structure Sample.platform 16 4
           (Layout.mk_gpuscan 100 (fresh 10))); simpl; try lia.
  intros x Hx. apply sample_align_ge. lia.
Defined.

(** ** The invocation: overflow *)

Section InvocationMore.
Context (P : platform).
Variables (src : list kern_tupitem)
          (eval : Z -> kern_tupitem -> bool * StromError)
          (d : kds.t) (cell : StromError) (k : kern_resultbuf)
          (grid : list (list Z)).

(** When the destination cannot hold the rows that passed, the overflow
    does not go unnoticed: every completed invocation has a group that held
    a row and whose threads have all raised [DataStoreNoSpace]. *)
Theorem overflow_is_raised_by_a_whole_group sched s :
  0 <= kds.nitems d <= kds.nrooms d ->
  kds.nitems d + total_rows (groups (gpuscan_qual src eval d cell k grid))
  < 2 ^ 32 ->
  kds.nrooms d
  < kds.nitems d + total_rows (groups (gpuscan_qual src eval d cell k grid)) ->
  exec P sched (gpuscan_qual src eval d cell k grid) = Some s ->
  finished s = true ->
  overflowed P (gpuscan_qual src eval d cell k grid) s.
Proof.
  intros H0 Hwrap Hover Hs Hfin.
  set (s0 := gpuscan_qual src eval d cell k grid) in *.
  assert (Hrows : 0 <= total_rows (groups s0))
    by (apply zsum_map_nonneg, rows_of_nonneg).
  assert (Hfresh : fresh_entry s0) by apply gpuscan_qual_fresh.
  assert (Hn : kds.nitems (kds_dst s)
               = kds.nitems d + total_rows (groups s0)).
  { rewrite (final_itemcount P s0 Hfresh ltac:(simpl; lia) sched s Hs Hfin).
    change (kds.nitems (kds_dst s0)) with (kds.nitems d).
    apply u32_small. lia. }
  assert (HJ : structured P s0 s /\
               (kds.nitems (kds_dst s) <= kds.nrooms (kds_dst s0)
                \/ overflowed P s0 s)).
  { refine (exec_invariant P
              (fun s => structured P s0 s /\
                        (kds.nitems (kds_dst s) <= kds.nrooms (kds_dst s0)
                         \/ overflowed P s0 s)) _ sched s0 s _ Hs).
    - intros s1 s2 [Hst HJ] Ht. split.
      + eapply structured_step; eauto.
      + eapply capacity_step; eauto.
    - split; [apply structured_entry, gpuscan_qual_at_entry | left; simpl; lia]. }
  destruct HJ as [_ [Hle | Hov]]; [simpl in Hle; lia | exact Hov].
Qed.

End InvocationMore.

Lemma overflow_is_raised_by_a_whole_group_witness :
  let s0 := gpuscan_qual Sample.src4 Sample.pass_all
              (kds.mk kds.KDS_FORMAT_SLOT 2 4096 2 0 0)
              StromError_Success (fresh 4) (Sample.grid_of 4 1) in
  overflowed Sample.platform s0 (outcome Sample.platform [Collective 0] s0).
Proof.
  intros s0.
  apply (overflow_is_raised_by_a_whole_group Sample.platform Sample.src4
           Sample.pass_all (kds.mk kds.KDS_FORMAT_SLOT 2 4096 2 0 0)
           StromError_Success (fresh 4) (Sample.grid_of 4 1) [Collective 0]).
  - simpl. lia.
  - vm_compute. reflexivity.
  - vm_compute. reflexivity.
  - reflexivity.
  - reflexivity.
Defined.

(** ** What reaches the destination *)

Import ProjectionView.

Section Filter.
Context (P : platform).

Lemma counted_le_total gs : counted gs <= total_rows gs.
Proof. apply zsum_map_le. intros g. apply counted_rows_range. Qed.

Lemma counted_at_entry s0 : at_entry s0 -> counted (groups s0) = 0.
Proof.
  unfold counted, at_entry.
  induction 1 as [| g gs Hg _ IH]; simpl; [reflexivity |].
  unfold counted_rows at 1. rewrite Hg. lia.
Qed.


Lemma slot_project_payload who d g d' evs g' :
  slot_project P who d g = (d', evs, g') ->
  forall ev, In ev evs ->
    exists l th x i,
      threads g !! l = Some th /\ tupitem_src th = Some x /\
      ev = StoreSlot (who, l) i x.
Proof.
  unfold slot_project, arithmetic_stairlike_add.
  destruct (reserve _ _) as [base n']. intros [= <- <- <-] ev Hin.
  apply in_concat in Hin as (evl & Hevl & Hin).
  apply list_elem_of_In, elem_of_lookup_imap_1 in Hevl
    as (l & [th off] & -> & Hl).
  unfold slot_store in Hin. simpl in Hin.
  destruct (u32 (base + _) >? kds.nrooms d); [destruct Hin |].
  destruct (tupitem_src th) as [x |] eqn:Hsrc; [| destruct Hin].
  destruct Hin as [<- | []].
  apply lookup_zip_with_Some in Hl as (th1 & off1 & [= <- <-] & Hth & Hoff).
  exists l, th, x, (u32 (base + off)). auto.
Qed.

Lemma row_commit_payload who d up cnt th evs th' :
  row_commit P who d up cnt th = (evs, th') ->
  forall ev, In ev evs ->
    writer_of ev = who /\
    exists x, tupitem_src th = Some x /\ payload_of P ev x.
Proof.
  unfold row_commit. destruct (row_no_space P d up cnt).
  - intros [= <- _] ev [].
  - destruct (tupitem_src th) as [x |] eqn:Hsrc.
    + intros [= <- _] ev [<- | [<- | []]]; simpl;
        (split; [reflexivity | exists x; split; [reflexivity |]]);
        [reflexivity | exact I].
    + intros [= <- _] ev [].
Qed.

Lemma stores_from_rows_step s0 s s' :
  structured P s0 s -> stores_from_rows P s0 s -> transition P s s' ->
  stores_from_rows P s0 s'.
Proof.
  intros Hst HW Ht.
  destruct Ht as [gi g d' g' Hg _ Hpc E | gi g np c d' g' Hg _ Hpc E
                 | gi g d' evs g' Hg _ Hpc E
                 | gi g l th up cnt evs th' Hg Hpc Hth Hret E];
    intros ev Hin; simpl in *.
  - now apply HW.
  - now apply HW.
  - apply in_app_or in Hin as [Hin | Hin]; [now apply HW |].
    destruct (slot_project_payload _ _ _ _ _ _ E ev Hin)
      as (l & th & x & i & Hth & Hsrc & ->). simpl.
    destruct (structured_thread P _ _ _ _ _ _ Hst Hg Hth)
      as (g0 & th0 & Hg0 & Hth0 & Hsame & _).
    exists g0, th0, x. repeat apply conj; try assumption; congruence.
  - apply in_app_or in Hin as [Hin | Hin]; [now apply HW |].
    destruct (row_commit_payload _ _ _ _ _ _ _ E ev Hin)
      as (-> & x & Hsrc & Hpay). simpl.
    destruct (structured_thread P _ _ _ _ _ _ Hst Hg Hth)
      as (g0 & th0 & Hg0 & Hth0 & Hsame & _).
    exists g0, th0, x. repeat apply conj; try assumption; congruence.
Qed.

Lemma stores_from_rows_reachable s0 s :
  fresh_entry s0 -> reachable P s0 s ->
  structured P s0 s /\ stores_from_rows P s0 s.
Proof.
  intros Hfresh.
  apply (reachable_invariant P
           (fun s => structured P s0 s /\ stores_from_rows P s0 s)).
  - split; [apply structured_entry, Hfresh |].
    intros ev Hin. destruct Hfresh as (_ & Hs & _). rewrite Hs in Hin.
    destruct Hin.
  - intros s1 s2 [Hst HW] Ht. split.
    + eapply structured_step; eauto.
    + eapply stores_from_rows_step; eauto.
Qed.

Lemma gpuscan_qual_tupitem_visible (src : list kern_tupitem) eval id tup :
  fst (gpuscan_qual_tupitem src eval id) = Some tup ->
  id < Z.of_nat (length src) /\
  src !! Z.to_nat id = Some tup /\
  eval id tup = (true, StromError_Success).
Proof.
  unfold gpuscan_qual_tupitem.
  destruct (id <? _) eqn:Hlt; [| discriminate].
  apply Z.ltb_lt in Hlt.
  destruct (src !! Z.to_nat id) as [t |]; [| discriminate].
  destruct (eval id t) as [[|] e] eqn:He; simpl; [| discriminate].
  destruct e; simpl; try discriminate.
  intros [= <-]. auto.
Qed.

(** Nothing reaches the destination but rows of the source batch that the
    predicate has passed without an error: whatever a thread has written,
    in either format and at any point of any invocation, its global id is
    below the number of source rows, [gpuscan_qual_eval] returned true
    for the row found there and left the context clean, and what was
    written is that row (the copy of its item, or the item handed to
    [deform_kern_heaptuple]). *)
Theorem only_visible_rows_reach_destination
    src eval d cell k grid sched s ev :
  exec P sched (gpuscan_qual src eval d cell k grid) = Some s ->
  In ev (stores s) ->
  exists ids id tup,
    grid !! fst (writer_of ev) = Some ids /\
    ids !! snd (writer_of ev) = Some id /\
    id < Z.of_nat (length src) /\
    src !! Z.to_nat id = Some tup /\
    eval id tup = (true, StromError_Success) /\
    payload_of P ev tup.
Proof.
  intros Hs Hin.
  destruct (stores_from_rows_reachable _ s
              (gpuscan_qual_fresh src eval d cell k grid))
    as [_ HW]; [now exists sched |].
  destruct (HW ev Hin) as (g0 & th0 & tup & Hg0 & Hth0 & Hsrc & Hpay).
  apply gpuscan_qual_groups in Hg0 as (ids & Hids & ->).
  simpl in Hth0. rewrite list_lookup_fmap in Hth0.
  destruct (ids !! snd (writer_of ev)) as [id |] eqn:Hid; [| discriminate].
  injection Hth0 as <-.
  rewrite (proj1 (enter_tupitem src eval id)) in Hsrc.
  destruct (gpuscan_qual_tupitem_visible _ _ _ _ Hsrc) as (H1 & H2 & H3).
  exists ids, id, tup. auto 10.
Qed.

Lemma total_rows_none (gs : list group) :
  (forall g th, In g gs -> In th (threads g) -> tupitem_src th = None) ->
  total_rows gs = 0.
Proof.
  unfold total_rows. induction gs as [| g gs IH]; intros Hnone;
    [reflexivity |].
  simpl. rewrite IH by (intros g' th Hg; apply Hnone; now right).
  assert (Hg : rows_of g = 0).
  { unfold rows_of.
    assert (Hths : forall th, In th (threads g) -> tupitem_src th = None)
      by (intros th; apply Hnone; now left).
    induction (threads g) as [| th ths IHt]; [reflexivity |].
    simpl. rewrite IHt by (intros th' Hth'; apply Hths; now right).
    rewrite (Hths th) by now left. reflexivity. }
  rewrite Hg. reflexivity.
Qed.

(** When no row of the batch passes (the batch is empty, or the predicate
    rejects every row or reports an error on it), no thread stores a
    tuple, an index entry or a slot, and the item count of the destination
    stays as it was, whatever the grid, the format and the schedule.  In
    the slot format the header of the destination is left as a whole as it
    was.  (In the row format [usage] is not covered: the threads without a
    row still pass a positive [required] to the second scan.) *)
Theorem nothing_passes_no_row_stored src eval d cell k grid sched s :
  (forall id tup, src !! Z.to_nat id = Some tup ->
                  eval id tup <> (true, StromError_Success)) ->
  0 <= kds.nitems d < 2 ^ 32 ->
  exec P sched (gpuscan_qual src eval d cell k grid) = Some s ->
  stores s = [] /\
  kds.nitems (kds_dst s) = kds.nitems d /\
  (kds.format d = kds.KDS_FORMAT_SLOT -> kds_dst s = d).
Proof.
  intros Hrej Hn Hs.
  set (s0 := gpuscan_qual src eval d cell k grid) in *.
  assert (Hfresh : fresh_entry s0) by apply gpuscan_qual_fresh.
  assert (Hreach : reachable P s0 s) by now exists sched.
  destruct (stores_from_rows_reachable _ s Hfresh Hreach) as [Hst HW].
  assert (Hnone : forall g th, In g (groups s0) -> In th (threads g) ->
                               tupitem_src th = None).
  { intros g th Hg Hth. unfold s0, gpuscan_qual in Hg. simpl in Hg.
    apply in_map_iff in Hg as (ids & <- & _). simpl in Hth.
    apply in_map_iff in Hth as (id & <- & _).
    rewrite (proj1 (enter_tupitem src eval id)).
    destruct (fst (gpuscan_qual_tupitem src eval id)) as [tup |] eqn:E;
      [| reflexivity].
    destruct (gpuscan_qual_tupitem_visible _ _ _ _ E) as (_ & H2 & H3).
    now destruct (Hrej id tup H2). }
  assert (Hitems : kds.nitems (kds_dst s) = kds.nitems d).
  { assert (Hinv : kds.nitems (kds_dst s)
                   = u32 (kds.nitems (kds_dst s0) + counted (groups s))).
    { refine (exec_invariant P
                (fun s => kds.nitems (kds_dst s)
                          = u32 (kds.nitems (kds_dst s0) + counted (groups s)))
                _ sched s0 s _ Hs).
      - intros s1 s2 H1 Ht. now apply (itemcount_step P s0 s1 s2).
      - rewrite (counted_at_entry s0) by apply Hfresh.
        rewrite Z.add_0_r. symmetry. now apply u32_small. }
    pose proof (counted_nonneg (groups s)) as H0.
    pose proof (counted_le_total (groups s)) as H1.
    rewrite (proj1 (structured_totals P _ _ Hst)) in H1.
    rewrite (total_rows_none _ Hnone) in H1.
    rewrite Hinv. replace (counted (groups s)) with 0 by lia.
    rewrite Z.add_0_r. now apply u32_small. }
  split; [| split; [exact Hitems |]].
  - destruct (stores s) as [| ev evs] eqn:Hev; [reflexivity |].
    assert (Hin : In ev (stores s)) by (rewrite Hev; now left).
    destruct (HW ev Hin) as (g0 & th0 & x & Hg0 & Hth0 & Hx & _).
    rewrite (Hnone g0 th0) in Hx; [discriminate | |];
      apply list_elem_of_In; eapply list_elem_of_lookup_2; eassumption.
  - intros Hslot.
    assert (Husage : structured P s0 s /\
                     kds.usage (kds_dst s) = kds.usage d).
    { refine (exec_invariant P
                (fun s => structured P s0 s /\
                          kds.usage (kds_dst s) = kds.usage d)
                _ sched s0 s _ Hs).
      - intros s1 s2 [Hst1 Hu] Ht.
        split; [eapply structured_step; eauto |].
        destruct Hst1 as [(Hfmt & _) _]. simpl in Hfmt.
        rewrite Hslot in Hfmt.
        destruct Ht as [gi g d' g' Hg Hf Hpc E | gi g np c d' g' Hg Hf Hpc E
                       | gi g d' evs g' Hg Hf Hpc E
                       | gi g l th up cnt evs th' Hg Hpc Hth Hret E];
          try congruence; simpl.
        + destruct (slot_project_frame P _ _ _ _ _ _ E) as (_ & _ & _ & _ & ->).
          exact Hu.
        + exact Hu.
      - split; [apply structured_entry, Hfresh | reflexivity]. }
    destruct Husage as [_ Hu].
    destruct Hst as [(Hfmt & Hnc & Hlen & Hrooms & _) _].
    simpl in Hfmt, Hnc, Hlen, Hrooms.
    destruct (kds_dst s), d. simpl in *. congruence.
Qed.

End Filter.

Lemma only_visible_rows_reach_destination_witness :
  let s := outcome Sample.platform (Sample.in_order 4 1) Sample.one_group in
  let ev := StoreTuple (0%nat, 2%nat) 4000 (item_bytes (Sample.item 24 3)) in
  In ev (stores s) /\
  exists ids id tup,
    Sample.grid_of 4 1 !! fst (writer_of ev) = Some ids /\
    ids !! snd (writer_of ev) = Some id /\
    id < Z.of_nat (length Sample.src4) /\
    Sample.src4 !! Z.to_nat id = Some tup /\
    Sample.pass_all id tup = (true, StromError_Success) /\
    payload_of Sample.platform ev tup.
Proof.
  intros s ev.
  assert (Hin : In ev (stores s)) by (vm_compute; tauto).
  split; [exact Hin |].
  exact (only_visible_rows_reach_destination Sample.platform Sample.src4
           Sample.pass_all Sample.dst_row StromError_Success (fresh 4)
           (Sample.grid_of 4 1) (Sample.in_order 4 1) s ev eq_refl Hin).
Defined.


Lemma nothing_passes_no_row_stored_witness :
  let d := kds.mk kds.KDS_FORMAT_SLOT 2 4096 8 3 0 in
  let s := outcome Sample.platform [Collective 1; Collective 0]
             (gpuscan_qual [] Sample.pass_all d
                StromError_Success (fresh 4) (Sample.grid_of 2 2)) in
  stores s = [] /\ kds.nitems (kds_dst s) = 3 /\
  (kds.KDS_FORMAT_SLOT = kds.KDS_FORMAT_SLOT -> kds_dst s = d).
Proof.
  intros d s.
  apply (nothing_passes_no_row_stored Sample.platform [] Sample.pass_all
           d StromError_Success (fresh 4) (Sample.grid_of 2 2)
           [Collective 1; Collective 0] s).
  - intros id tup Hl. discriminate.
  - simpl. lia.
  - reflexivity.
Defined.
(** ** The slot format *)

Section SlotFormat.
Context (P : platform).

Lemma rows_before_nonneg g l : 0 <= rows_before g l.
Proof. apply zsum_map_nonneg. intros th. apply has_row_range. Qed.

Lemma rows_before_row g l th :
  threads g !! l = Some th -> tupitem_src th <> None ->
  rows_before g l + 1 <= rows_of g.
Proof.
  intros Hth Hrow. unfold rows_before, rows_of.
  pose proof (zsum_take_step (fun th => has_row (tupitem_src th)) (threads g)
                (fun th => proj1 (has_row_range _)) l (length (threads g)) th
                Hth (lookup_lt_Some _ _ _ Hth)) as H.
  rewrite firstn_all in H. apply has_row_positive in Hrow. simpl in H. lia.
Qed.

Lemma rows_before_inj g l1 l2 th1 th2 :
  threads g !! l1 = Some th1 -> threads g !! l2 = Some th2 ->
  tupitem_src th1 <> None -> tupitem_src th2 <> None ->
  rows_before g l1 = rows_before g l2 -> l1 = l2.
Proof.
  intros H1 H2 R1 R2 He. apply has_row_positive in R1, R2.
  destruct (Nat.lt_trichotomy l1 l2) as [Hl | [Hl | Hl]]; [| exact Hl |].
  - pose proof (zsum_take_step (fun th => has_row (tupitem_src th)) (threads g)
                  (fun th => proj1 (has_row_range _)) l1 l2 th1 H1 Hl) as H.
    unfold rows_before in He. simpl in H. lia.
  - pose proof (zsum_take_step (fun th => has_row (tupitem_src th)) (threads g)
                  (fun th => proj1 (has_row_range _)) l2 l1 th2 H2 Hl) as H.
    unfold rows_before in He. simpl in H. lia.
Qed.

(** The offset handed to position [i] is the sum of the values before
    it. *)
Lemma offsets_lookup {A} (v : A -> Z) (l : list A) :
  (forall x, 0 <= v x) ->
  forall acc i off,
  0 <= acc -> acc + zsum (map v l) < 2 ^ 32 ->
  stairlike_offsets acc (map v l) !! i = Some off ->
  off = acc + zsum (map v (take i l)).
Proof.
  intros Hv. induction l as [| x l IH]; intros acc i off Hacc Hlt; simpl;
    [discriminate |].
  simpl in Hlt. pose proof (Hv x). pose proof (zsum_map_nonneg v l Hv).
  destruct i as [| i]; simpl.
  - intros [= <-]. lia.
  - rewrite u32_small by lia. intros Hy.
    rewrite (IH (acc + v x) i off); [lia | lia | lia | exact Hy].
Qed.

(** The reservation of a group in the slot format, when nothing wraps. *)
Lemma slot_project_slots who d g d' evs g' :
  0 <= kds.nitems d -> kds.nitems d + rows_of g < 2 ^ 32 ->
  slot_project P who d g = (d', evs, g') ->
  kds.nitems d' = kds.nitems d + rows_of g /\
  forall ev, In ev evs ->
    kds.nitems d + rows_of g <= kds.nrooms d /\
    exists l th x,
      threads g !! l = Some th /\ tupitem_src th = Some x /\
      ev = StoreSlot (who, l) (kds.nitems d + rows_before g l) x.
Proof.
  intros Hn Hw. pose proof (rows_of_nonneg g) as Hr.
  unfold slot_project, arithmetic_stairlike_add.
  rewrite stairlike_total_zsum. fold (rows_of g).
  rewrite (u32_small (rows_of g)) by lia.
  destruct (reserve (kds.nitems d) (rows_of g)) as [base n'] eqn:Hres.
  intros [= <- <- <-]. split.
  - simpl. unfold reserve, atomicAdd in Hres.
    destruct (rows_of g >? 0) eqn:Hc; injection Hres as <- <-.
    + apply u32_small. lia.
    + rewrite Z.gtb_ltb in Hc. apply Z.ltb_ge in Hc. lia.
  - intros ev Hin.
    apply in_concat in Hin as (evl & Hevl & Hin).
    apply list_elem_of_In, elem_of_lookup_imap_1 in Hevl
      as (l & [th off] & -> & Hl).
    unfold slot_store in Hin. simpl in Hin.
    destruct (u32 (base + rows_of g) >? kds.nrooms d) eqn:Hf; [destruct Hin |].
    destruct (tupitem_src th) as [x |] eqn:Hsrc; [| destruct Hin].
    destruct Hin as [<- | []].
    apply lookup_zip_with_Some in Hl as (th1 & off1 & [= <- <-] & Hth & Hoff).
    apply (offsets_lookup (fun th => has_row (tupitem_src th)) (threads g)
             (fun th => proj1 (has_row_range _)) 0 l off
             ltac:(lia) ltac:(fold (rows_of g); lia)) in Hoff.
    fold (rows_before g l) in Hoff. subst off.
    assert (Hrow : tupitem_src th <> None) by congruence.
    pose proof (rows_before_row g l th Hth Hrow) as Hb.
    pose proof (rows_before_nonneg g l) as Hb0.
    unfold reserve, atomicAdd in Hres.
    destruct (rows_of g >? 0) eqn:Hc;
      [| rewrite Z.gtb_ltb in Hc; apply Z.ltb_ge in Hc; lia].
    injection Hres as <- <-.
    rewrite Z.gtb_ltb in Hf. apply Z.ltb_ge in Hf.
    rewrite u32_small in Hf by lia.
    split; [exact Hf |]. exists l, th, x.
    repeat apply conj; try assumption.
    f_equal. rewrite Z.add_0_l. apply u32_small. lia.
Qed.

Section Step.
Variable (s0 : state).
Hypothesis Hslot : kds.format (kds_dst s0) = kds.KDS_FORMAT_SLOT.
Hypothesis Hready : counter_ready s0.

Lemma slot_inv_step s s' :
  structured P s0 s -> slot_pcs s -> slot_inv s0 s ->
  transition P s s' -> slot_inv s0 s'.
Proof.
  intros Hst Hpcs [In_ Ib Ia] Ht.
  destruct Hready as [Hn0 Hw].
  pose proof (structured_step P _ _ _ Hst Ht) as Hst'.
  pose proof (counted_nonneg (groups s)) as Hc0.
  pose proof (counted_nonneg (groups s')) as Hc0'.
  pose proof (counted_le_total (groups s')) as Hc'.
  rewrite (proj1 (structured_totals P _ _ Hst')) in Hc'.
  assert (Hn' : kds.nitems (kds_dst s')
                = kds.nitems (kds_dst s0) + counted (groups s')).
  { rewrite (itemcount_step P s0 s s'); [apply u32_small; lia | | exact Ht].
    rewrite In_. symmetry. apply u32_small.
    pose proof (counted_le_total (groups s)) as Hc.
    rewrite (proj1 (structured_totals P _ _ Hst)) in Hc. lia. }
  pose proof (proj1 (structured_totals P _ _ Hst)) as Htot.
  destruct Hst as [(Hfmt & _ & _ & Hrooms & _) _].
  rewrite Hslot in Hfmt.
  destruct Ht as [gi g d' g' Hg Hf Hpc E | gi g np c d' g' Hg Hf Hpc E
                 | gi g d' evs g' Hg Hf Hpc E
                 | gi g l th up cnt evs th' Hg Hpc Hth Hret E];
    try congruence.
  - pose proof (counted_room _ _ _ Hg Hpc) as Hroom.
    pose proof (counted_le_total (groups s)) as Hc.
    destruct (slot_project_slots gi (kds_dst s) g d' evs g'
                ltac:(lia) ltac:(lia) E) as [Hd' Hevs].
    simpl in Hn'. constructor; simpl.
    + exact Hn'.
    + intros w i x Hin. apply in_app_or in Hin as [Hin | Hin].
      * destruct (Ib w i x Hin) as (H1 & H2 & H3).
        pose proof (rows_of_nonneg g). lia.
      * destruct (Hevs _ Hin) as (Hfit & l & th & x' & Hth & Hsrc & [= -> -> ->]).
        pose proof (rows_before_nonneg g l).
        assert (Hrow : tupitem_src th <> None) by congruence.
        pose proof (rows_before_row g l th Hth Hrow). lia.
    + intros w i x w' x' Hin Hin'.
      apply in_app_or in Hin as [Hin | Hin];
        apply in_app_or in Hin' as [Hin' | Hin'].
      * eapply Ia; eauto.
      * destruct (Ib w i x Hin) as (H1 & H2 & H3).
        destruct (Hevs _ Hin') as (_ & l & th & y & Hth & Hsrc & [= -> -> ->]).
        pose proof (rows_before_nonneg g l). lia.
      * destruct (Ib w' i x' Hin') as (H1 & H2 & H3).
        destruct (Hevs _ Hin) as (_ & l & th & y & Hth & Hsrc & [= -> -> ->]).
        pose proof (rows_before_nonneg g l). lia.
      * destruct (Hevs _ Hin) as (_ & l & th & y & Hth & Hsrc & [= -> -> ->]).
        destruct (Hevs _ Hin') as (_ & l2 & th2 & y2 & Hth2 & Hsrc2 & [= -> Hi ->]).
        f_equal.
        apply (rows_before_inj g l l2 th th2); try assumption; try congruence.
        lia.
  - exfalso.
    destruct (Hpcs Hfmt g) as [Hx | Hx]; try congruence.
    apply list_elem_of_In. eapply list_elem_of_lookup_2. exact Hg.
Qed.

(** With room for the rows of the group, every thread comes back with the
    code it entered with and every row of the group is stored. *)
Lemma slot_project_room who d g d' evs g' :
  0 <= kds.nitems d -> kds.nitems d + rows_of g < 2 ^ 32 ->
  kds.nitems d + rows_of g <= kds.nrooms d ->
  slot_project P who d g = (d', evs, g') ->
  (forall l th', threads g' !! l = Some th' ->
     exists th, threads g !! l = Some th /\ errcode th' = errcode th) /\
  (forall l th x, threads g !! l = Some th -> tupitem_src th = Some x ->
     exists i, In (StoreSlot (who, l) i x) evs).
Proof.
  intros Hn Hw Hfit. pose proof (rows_of_nonneg g) as Hr.
  unfold slot_project, arithmetic_stairlike_add.
  rewrite stairlike_total_zsum. fold (rows_of g).
  rewrite (u32_small (rows_of g)) by lia.
  destruct (reserve (kds.nitems d) (rows_of g)) as [base n'] eqn:Hres.
  assert (Hf : (u32 (base + rows_of g) >? kds.nrooms d) = false).
  { rewrite Z.gtb_ltb. apply Z.ltb_ge.
    unfold reserve, atomicAdd in Hres.
    destruct (rows_of g >? 0) eqn:Hc; injection Hres as <- <-.
    - rewrite u32_small by lia. lia.
    - rewrite Z.gtb_ltb in Hc. apply Z.ltb_ge in Hc.
      rewrite u32_small by lia. lia. }
  intros [= <- <- <-]. split.
  - intros l th' Hl. simpl in Hl.
    apply lookup_zip_with_Some in Hl as (th & off & -> & Hth & Hoff).
    exists th. split; [assumption |].
    unfold slot_thread. rewrite Hf. reflexivity.
  - intros l th x Hth Hsrc.
    destruct (lookup_lt_is_Some_2
                (stairlike_offsets 0
                   (map (fun th => has_row (tupitem_src th)) (threads g))) l)
      as [off Hoff].
    { rewrite length_stairlike_offsets, length_map.
      now apply lookup_lt_Some in Hth. }
    exists (u32 (base + off)). apply in_concat.
    exists [StoreSlot (who, l) (u32 (base + off)) x]. split; [| now left].
    apply list_elem_of_In.
    assert (Hev : slot_store who base (rows_of g) (kds.nrooms d) l (th, off)
                  = [StoreSlot (who, l) (u32 (base + off)) x])
      by (unfold slot_store; simpl; now rewrite Hf, Hsrc).
    rewrite <- Hev. apply elem_of_lookup_imap_2.
    apply lookup_zip_with_Some. eauto.
Qed.

Lemma slot_room_step s s' :
  kds.nitems (kds_dst s0) + total_rows (groups s0) <= kds.nrooms (kds_dst s0) ->
  structured P s0 s -> slot_pcs s -> slot_inv s0 s ->
  codes_kept s0 s /\ slots_filled s ->
  transition P s s' ->
  codes_kept s0 s' /\ slots_filled s'.
Proof.
  intros Hfit Hst Hpcs [In_ _ _] [HK HF] Ht.
  destruct Hready as [Hn0 Hw].
  pose proof (counted_nonneg (groups s)) as Hc0.
  pose proof (proj1 (structured_totals P _ _ Hst)) as Htot.
  destruct Hst as [(Hfmt & _ & _ & Hrooms & _) _].
  rewrite Hslot in Hfmt.
  destruct Ht as [gi g d' g' Hg Hf Hpc E | gi g np c d' g' Hg Hf Hpc E
                 | gi g d' evs g' Hg Hf Hpc E
                 | gi g l th up cnt evs th' Hg Hpc Hth Hret E];
    try congruence.
  - pose proof (counted_room _ _ _ Hg Hpc) as Hroom.
    destruct (slot_project_room gi (kds_dst s) g d' evs g'
                ltac:(lia) ltac:(lia) ltac:(lia) E) as [Hcodes Hevs].
    destruct (slot_project_threads P _ _ _ _ _ _ E) as [_ Hrel].
    split.
    + intros gj g2 l th Hg2 Hth. simpl in Hg2.
      apply list_lookup_insert_Some in Hg2 as [(<- & <- & _) | (_ & Hg2)].
      * destruct (Hcodes l th Hth) as (th1 & Hth1 & ->).
        now apply (HK gi g l th1).
      * now apply (HK gj g2 l th).
    + intros gj g2 l th x Hg2 Hth Hret Hsrc. simpl in *.
      apply list_lookup_insert_Some in Hg2 as [(<- & <- & _) | (_ & Hg2)].
      * destruct (Forall2_lookup_r _ _ _ _ _ Hrel Hth) as (th1 & Hth1 & Hsame & _).
        destruct (Hevs l th1 x Hth1 ltac:(congruence)) as [i Hi].
        exists i. apply in_or_app. now right.
      * destruct (HF gj g2 l th x Hg2 Hth Hret Hsrc) as [i Hi].
        exists i. apply in_or_app. now left.
  - exfalso.
    destruct (Hpcs Hfmt g) as [Hx | Hx]; try congruence.
    apply list_elem_of_In. eapply list_elem_of_lookup_2. exact Hg.
Qed.

End Step.

Lemma slot_inv_reachable s0 s :
  kds.format (kds_dst s0) = kds.KDS_FORMAT_SLOT -> counter_ready s0 ->
  fresh_entry s0 -> reachable P s0 s ->
  (structured P s0 s /\ slot_pcs s) /\ slot_inv s0 s.
Proof.
  intros Hslot Hready Hfresh.
  apply (reachable_invariant P
           (fun s => (structured P s0 s /\ slot_pcs s) /\ slot_inv s0 s)).
  - split; [apply (slot_pcs_reachable P s0 Hfresh), reachable_refl |].
    destruct Hfresh as (He & Hs & _). constructor.
    + rewrite (counted_at_entry _ He). lia.
    + intros w i x Hin. rewrite Hs in Hin. destruct Hin.
    + intros w i x w' x' Hin. rewrite Hs in Hin. destruct Hin.
  - intros s1 s2 [[Hst Hpcs] HI] Ht. split; [split |].
    + eapply structured_step; eauto.
    + eapply slot_pcs_step; eauto.
    + eapply slot_inv_step; eauto.
Qed.

Lemma slot_room_reachable s0 s :
  kds.format (kds_dst s0) = kds.KDS_FORMAT_SLOT -> counter_ready s0 ->
  kds.nitems (kds_dst s0) + total_rows (groups s0) <= kds.nrooms (kds_dst s0) ->
  fresh_entry s0 -> reachable P s0 s ->
  ((structured P s0 s /\ slot_pcs s) /\ slot_inv s0 s) /\
  codes_kept s0 s /\ slots_filled s.
Proof.
  intros Hslot Hready Hfit Hfresh.
  apply (reachable_invariant P
           (fun s => ((structured P s0 s /\ slot_pcs s) /\ slot_inv s0 s) /\
  codes_kept s0 s /\ slots_filled s)).
  - split; [apply (slot_inv_reachable s0 s0); auto using reachable_refl |].
    split.
    + intros gi g l th Hg Hth. eauto.
    + intros gi g l th x Hg Hth Hret. destruct Hfresh as (_ & _ & Hf).
      destruct (Hf g th) as [Hf0 _]; [| | congruence];
        apply list_elem_of_In; eapply list_elem_of_lookup_2; eassumption.
  - intros s1 s2 [[[Hst Hpcs] HI] HJ] Ht. split; [split; [split |] |].
    + eapply structured_step; eauto.
    + eapply slot_pcs_step; eauto.
    + eapply slot_inv_step; eauto.
    + eapply slot_room_step; eauto.
Qed.

Section Invocation.
Variables (src : list kern_tupitem)
          (eval : Z -> kern_tupitem -> bool * StromError)
          (d : kds.t) (cell : StromError) (k : kern_resultbuf)
          (grid : list (list Z)).

(** In the slot format, when the item counter does not wrap, every row
    lands in a slot of its own inside the array: the slot index lies
    between the item count found on entry and [nrooms], below the current
    item count, and no other thread, nor another row, is stored in that
    slot. *)
Theorem slot_rows_land_in_rooms_of_their_own sched s w i x :
  kds.format d = kds.KDS_FORMAT_SLOT ->
  0 <= kds.nitems d ->
  kds.nitems d + total_rows (groups (gpuscan_qual src eval d cell k grid))
  < 2 ^ 32 ->
  exec P sched (gpuscan_qual src eval d cell k grid) = Some s ->
  In (StoreSlot w i x) (stores s) ->
  kds.nitems d <= i < kds.nrooms d /\
  i < kds.nitems (kds_dst s) /\
  forall w' x', In (StoreSlot w' i x') (stores s) -> w' = w /\ x' = x.
Proof.
  intros Hslot Hn Hw Hs Hin.
  set (s0 := gpuscan_qual src eval d cell k grid) in *.
  assert (Hfresh : fresh_entry s0) by apply gpuscan_qual_fresh.
  destruct (slot_inv_reachable s0 s Hslot (conj Hn Hw) Hfresh)
    as [_ [_ Ib Ia]]; [now exists sched |].
  destruct (Ib w i x Hin) as (H1 & H2 & H3). simpl in H1, H3.
  repeat apply conj; try lia.
  intros w' x' Hin'.
  assert (Hw' : w' = w) by (symmetry; eapply Ia; eauto).
  subst w'. split; [reflexivity |].
  destruct (stores_from_rows_reachable P s0 s Hfresh) as [_ HW];
    [now exists sched |].
  destruct (HW _ Hin) as (g1 & th1 & y1 & Hg1 & Hth1 & Hy1 & Hp1).
  destruct (HW _ Hin') as (g2 & th2 & y2 & Hg2 & Hth2 & Hy2 & Hp2).
  simpl in *. congruence.
Qed.

(** In the slot format, when the destination has room for every row that
    passed, no thread raises an error in the projector: each comes back
    with the code [gpuscan_qual_eval] left, every thread that has
    returned with a row has stored it, and a completed invocation leaves
    the item count at its value on entry plus the number of rows. *)
Theorem slot_projection_succeeds_with_room sched s :
  kds.format d = kds.KDS_FORMAT_SLOT ->
  0 <= kds.nitems d ->
  kds.nrooms d < 2 ^ 32 ->
  kds.nitems d + total_rows (groups (gpuscan_qual src eval d cell k grid))
  <= kds.nrooms d ->
  exec P sched (gpuscan_qual src eval d cell k grid) = Some s ->
  (forall gi g l th,
     groups s !! gi = Some g -> threads g !! l = Some th ->
     exists ids id,
       grid !! gi = Some ids /\ ids !! l = Some id /\
  errcode th = snd (gpuscan_qual_tupitem src eval id) /\
  (returned th = true ->
        forall x, fst (gpuscan_qual_tupitem src eval id) = Some x ->
                  exists i, In (StoreSlot (gi, l) i x) (stores s))) /\
  (finished s = true ->
   kds.nitems (kds_dst s)
   = kds.nitems d + total_rows (groups (gpuscan_qual src eval d cell k grid))).
Proof.
  intros Hslot Hn Hrooms Hfit Hs.
  set (s0 := gpuscan_qual src eval d cell k grid) in *.
  assert (Hfresh : fresh_entry s0) by apply gpuscan_qual_fresh.
  assert (Hrows : 0 <= total_rows (groups s0))
    by (apply zsum_map_nonneg, rows_of_nonneg).
  assert (Hready : counter_ready s0).
  { unfold counter_ready.
    change (kds.nitems (kds_dst s0)) with (kds.nitems d). lia. }
  destruct (slot_room_reachable s0 s Hslot Hready Hfit Hfresh)
    as [_ [HK HF]]; [now exists sched |].
  split.
  - intros gi g l th Hg Hth.
    destruct (thread_origin P src eval d cell k grid sched s gi g l th Hs Hg Hth)
      as (ids & id & Hids & Hid & Hsame & _).
    destruct (HK gi g l th Hg Hth) as (g0 & th0 & Hg0 & Hth0 & He).
    apply gpuscan_qual_groups in Hg0 as (ids' & Hids' & ->).
    rewrite Hids in Hids'. injection Hids' as <-.
    simpl in Hth0. rewrite list_lookup_fmap, Hid in Hth0.
    injection Hth0 as <-.
    destruct (enter_tupitem src eval id) as (Ht0 & He0 & _).
    exists ids, id. repeat apply conj; try assumption; [congruence |].
    intros Hret x Hx. apply (HF gi g l th x Hg Hth Hret). congruence.
  - intros Hfin.
    rewrite (final_itemcount P s0 Hfresh ltac:(simpl; lia) sched s Hs Hfin).
    change (kds.nitems (kds_dst s0)) with (kds.nitems d).
    apply u32_small. lia.
Qed.

End Invocation.
End SlotFormat.

Lemma slot_rows_land_in_rooms_of_their_own_witness :
  let d := kds.mk kds.KDS_FORMAT_SLOT 2 4096 8 3 0 in
  let s0 := gpuscan_qual Sample.src4 Sample.pass_all d StromError_Success
              (fresh 4) (Sample.grid_of 2 2) in
  let s := outcome Sample.platform [Collective 1; Collective 0] s0 in
  In (StoreSlot (0%nat, 1%nat) 6 (Sample.item 24 2)) (stores s) /\
  3 <= 6 < 8 /\ 6 < kds.nitems (kds_dst s) /\
  forall w' x', In (StoreSlot w' 6 x') (stores s) ->
                w' = (0%nat, 1%nat) /\ x' = Sample.item 24 2.
Proof.
  intros d s0 s.
  assert (Hin : In (StoreSlot (0%nat, 1%nat) 6 (Sample.item 24 2)) (stores s))
    by (vm_compute; tauto).
  split; [exact Hin |].
  apply (slot_rows_land_in_rooms_of_their_own Sample.platform Sample.src4
           Sample.pass_all d StromError_Success (fresh 4) (Sample.grid_of 2 2)
           [Collective 1; Collective 0] s (0%nat, 1%nat) 6 (Sample.item 24 2)).
  - reflexivity.
  - simpl. lia.
  - vm_compute. reflexivity.
  - reflexivity.
  - exact Hin.
Defined.

Lemma slot_projection_succeeds_with_room_witness :
  let d := kds.mk kds.KDS_FORMAT_SLOT 2 4096 4 0 0 in
  let s0 := gpuscan_qual Sample.src4 Sample.pass_all d StromError_Success
              (fresh 4) (Sample.grid_of 2 2) in
  let s := outcome Sample.platform [Collective 1; Collective 0] s0 in
  (forall gi g l th,
     groups s !! gi = Some g -> threads g !! l = Some th ->
     exists ids id,
       Sample.grid_of 2 2 !! gi = Some ids /\ ids !! l = Some id /\
  errcode th = snd (gpuscan_qual_tupitem Sample.src4 Sample.pass_all id) /\
  (returned th = true ->
        forall x,
          fst (gpuscan_qual_tupitem Sample.src4 Sample.pass_all id) = Some x ->
          exists i, In (StoreSlot (gi, l) i x) (stores s))) /\
  (finished s = true -> kds.nitems (kds_dst s) = 4).
Proof.
  intros d s0 s.
  apply (slot_projection_succeeds_with_room Sample.platform Sample.src4
           Sample.pass_all d StromError_Success (fresh 4) (Sample.grid_of 2 2)
           [Collective 1; Collective 0] s).
  - reflexivity.
  - simpl. lia.
  - simpl. lia.
  - vm_compute. discriminate.
  - reflexivity.
Defined.
(** ** The row format *)

Section RowFormat.
Context (P : platform).

(** *** Where the tuples lie *)


Section Invocation.
Variables (src : list kern_tupitem)
          (eval : Z -> kern_tupitem -> bool * StromError)
          (d : kds.t) (cell : StromError) (k : kern_resultbuf)
          (grid : list (list Z)).


End Invocation.
End RowFormat.


(** *** A destination with room for every row *)

Section RowRoom.
Context (P : platform).

Lemma reserved_le_total gs : reserved P gs <= total_bytes P gs.
Proof. apply zsum_map_le. intros g. apply reserved_bytes_range. Qed.

(** With room for the rows of the group, the check of line 206 lets every
    thread through with the code it entered with. *)
Lemma row_count_room d g d' g' :
  0 <= kds.nitems d -> kds.nitems d + rows_of g < 2 ^ 32 ->
  kds.nitems d + rows_of g <= kds.nrooms d ->
  row_count P d g = (d', g') ->
  forall l th', threads g' !! l = Some th' ->
    exists th, threads g !! l = Some th /\ errcode th' = errcode th.
Proof.
  intros Hn Hw Hfit. pose proof (rows_of_nonneg g) as Hr.
  unfold row_count, arithmetic_stairlike_add.
  rewrite stairlike_total_zsum. fold (rows_of g).
  rewrite (u32_small (rows_of g)) by lia.
  destruct (reserve (kds.nitems d) (rows_of g)) as [np n'] eqn:Hres.
  assert (Hf : (u32 (np + rows_of g) >? kds.nrooms d) = false).
  { rewrite Z.gtb_ltb. apply Z.ltb_ge.
    unfold reserve, atomicAdd in Hres.
    destruct (rows_of g >? 0) eqn:Hc; injection Hres as <- <-.
    - rewrite u32_small by lia. lia.
    - rewrite Z.gtb_ltb in Hc. apply Z.ltb_ge in Hc.
      rewrite u32_small by lia. lia. }
  rewrite Hf. intros [= <- <-] l th' Hl. simpl in Hl.
  apply lookup_zip_with_Some in Hl as (th & off & -> & Hth & Hoff).
  exists th. split; [assumption | reflexivity].
Qed.

Lemma row_usage_keeps d g d' g' :
  row_usage P d g = (d', g') ->
  forall l th', threads g' !! l = Some th' ->
    exists th, threads g !! l = Some th /\
               tupitem_src th' = tupitem_src th /\
               item_index th' = item_index th /\
               errcode th' = errcode th.
Proof.
  unfold row_usage, arithmetic_stairlike_add.
  destruct (reserve _ _) as [up u']. intros [= <- <-] l th' Hl. simpl in Hl.
  apply lookup_zip_with_Some in Hl as (th & off & -> & Hth & Hoff).
  exists th. auto.
Qed.

Section Step.
Variable (s0 : state).
Hypothesis Hready : arena_ready P s0.
Hypothesis Hroom : row_room P s0.

Lemma row_room_step s s' :
  structured P s0 s -> arena_inv P s -> codes_kept s0 s ->
  transition P s s' -> codes_kept s0 s'.
Proof.
  intros Hst Hinv HK Ht.
  pose proof (ai_nitems _ _ Hinv) as Hn.
  pose proof (ai_usage _ _ Hinv) as Hu.
  pose proof (counted_nonneg (groups s)) as Hc0.
  pose proof (counted_le_total (groups s)) as Hc1.
  pose proof (reserved_le_total (groups s)) as Hr1.
  destruct (structured_totals P _ _ Hst) as [Htr Htb].
  rewrite Htr in Hc1. rewrite Htb in Hr1.
  pose proof (rr_rows _ _ Hroom) as Hrows.
  pose proof (rr_bytes _ _ Hroom) as Hbytes.
  pose proof (ar_rows _ _ Hready) as Hwrap.
  destruct Hst as [(Hfmt & Hnc & Hlen & Hrooms & _) _].
  assert (Hother : forall gi g g' gj g2 l th,
            (forall l th', threads g' !! l = Some th' ->
               exists th, threads g !! l = Some th /\ errcode th' = errcode th) ->
            groups s !! gi = Some g ->
            <[gi := g']> (groups s) !! gj = Some g2 ->
            threads g2 !! l = Some th ->
            exists g0 th0,
              groups s0 !! gj = Some g0 /\ threads g0 !! l = Some th0 /\
              errcode th = errcode th0).
  { intros gi g g' gj g2 l th Hsame Hg Hg2 Hth.
    apply list_lookup_insert_Some in Hg2 as [(<- & <- & _) | (_ & Hg2)].
    - destruct (Hsame l th Hth) as (th1 & Hth1 & ->).
      now apply (HK gi g l th1).
    - now apply (HK gj g2 l th). }
  destruct Ht as [gi g d' g' Hg Hf Hpc E | gi g np c d' g' Hg Hf Hpc E
                 | gi g d' evs g' Hg Hf Hpc E
                 | gi g l th up cnt evs th' Hg Hpc Hth Hret E];
    intros gj g2 l2 th2 Hg2 Hth2; simpl in Hg2.
  - pose proof (counted_room _ _ _ Hg Hpc) as Hcr. rewrite Htr in Hcr.
    apply (Hother gi g g' gj g2 l2 th2); try assumption.
    apply (row_count_room (kds_dst s) g d' g'); try assumption; lia.
  - apply (Hother gi g g' gj g2 l2 th2); try assumption.
    intros l th' Hl.
    destruct (row_usage_keeps _ _ _ _ E l th' Hl) as (th & Hth & _ & _ & He).
    eauto.
  - rewrite (ar_format _ _ Hready) in Hfmt. congruence.
  - apply (Hother gi g (mk_group (<[l := th']> (threads g)) (gpc g))
             gj g2 l2 th2); try assumption.
    intros l1 th1 Hl1. simpl in Hl1.
    apply list_lookup_insert_Some in Hl1 as [(<- & <- & _) | (_ & Hl1)];
      [| eauto].
    exists th. split; [assumption |].
    apply row_commit_thread in E
      as (_ & _ & _ & _ & _ & _ & [(Hspace & _) | (_ & He)]);
      [| exact He].
    exfalso.
    pose proof (ai_threads _ _ Hinv gi g l th Hg Hth) as Hbd.
    unfold thread_bounds in Hbd. rewrite Hpc in Hbd.
    destruct Hbd as (_ & _ & _ & _ & _ & Huse).
    unfold row_no_space in Hspace. apply Z.gtb_lt in Hspace.
    pose proof (rr_mono _ _ Hroom (4 * kds.nitems (kds_dst s))
                  (4 * total_rows (groups s0)) ltac:(lia)) as Hmono.
    rewrite Hnc, Hlen in Hspace. lia.
Qed.

Lemma row_room_reachable s :
  fresh_entry s0 -> reachable P s0 s ->
  (structured P s0 s /\ arena_inv P s) /\ codes_kept s0 s.
Proof.
  intros Hfresh.
  apply (reachable_invariant P
           (fun s => (structured P s0 s /\ arena_inv P s) /\ codes_kept s0 s)).
  - split; [split |].
    + apply structured_entry, Hfresh.
    + apply arena_inv_entry; [assumption | apply Hfresh].
    + intros gi g l th Hg Hth. eauto.
  - intros s1 s2 [[Hst Hinv] HK] Ht. split; [split |].
    + eapply structured_step; eauto.
    + eapply arena_step; eauto.
    + eapply row_room_step; eauto.
Qed.

End Step.

Section Invocation.
Variables (src : list kern_tupitem)
          (eval : Z -> kern_tupitem -> bool * StromError)
          (d : kds.t) (cell : StromError) (k : kern_resultbuf)
          (grid : list (list Z)).

(** In the row format, when the destination has room for every row that
    passed (index entries and aligned tuples) and starts empty, no thread
    raises an error in the projector, whatever the schedule: each comes
    back with the code [gpuscan_qual_eval] left, every thread that has
    returned with a row has copied it and stored its offset, and a
    completed invocation leaves [nitems] at the number of rows. *)
Theorem row_projection_succeeds_with_room sched s :
  arena_ready P (gpuscan_qual src eval d cell k grid) ->
  row_room P (gpuscan_qual src eval d cell k grid) ->
  STROM_SET_ERROR P StromError_Success StromError_DataStoreNoSpace
    <> StromError_Success ->
  exec P sched (gpuscan_qual src eval d cell k grid) = Some s ->
  (forall gi g l th,
     groups s !! gi = Some g -> threads g !! l = Some th ->
     exists ids id,
       grid !! gi = Some ids /\ ids !! l = Some id /\
       errcode th = snd (gpuscan_qual_tupitem src eval id) /\
       (returned th = true ->
        forall x, fst (gpuscan_qual_tupitem src eval id) = Some x ->
          exists o,
            In (StoreTuple (gi, l) o
                  (take (Z.to_nat (htup_offset_of P + t_len x)) (item_bytes x)))
               (stores s) /\
            In (StoreIndex (gi, l) (item_index th) o) (stores s))) /\
  (finished s = true ->
   kds.nitems (kds_dst s)
   = total_rows (groups (gpuscan_qual src eval d cell k grid))).
Proof.
  intros Hready Hroom Hset Hs.
  set (s0 := gpuscan_qual src eval d cell k grid) in *.
  assert (Hfresh : fresh_entry s0) by apply gpuscan_qual_fresh.
  assert (Hreach : reachable P s0 s) by now exists sched.
  destruct (row_room_reachable s0 Hready Hroom s Hfresh Hreach)
    as [[Hst Hinv] HK].
  destruct (survivors_reachable P Hset s0 Hfresh
              (gpuscan_qual_clean src eval d k grid cell)
              (ar_format _ _ Hready) s Hreach) as [_ HS].
  split.
  - intros gi g l th Hg Hth.
    destruct (thread_origin P src eval d cell k grid sched s gi g l th Hs Hg Hth)
      as (ids & id & Hids & Hid & Hsame & _).
    destruct (HK gi g l th Hg Hth) as (g0 & th0 & Hg0 & Hth0 & He).
    apply gpuscan_qual_groups in Hg0 as (ids' & Hids' & ->).
    rewrite Hids in Hids'. injection Hids' as <-.
    simpl in Hth0. rewrite list_lookup_fmap, Hid in Hth0.
    injection Hth0 as <-.
    destruct (enter_tupitem src eval id) as (Ht0 & He0 & _).
    exists ids, id. repeat apply conj; try assumption; [congruence |].
    intros Hret x Hx.
    assert (Hclean : errcode th = StromError_Success).
    { rewrite He, He0. eapply gpuscan_qual_tupitem_clean. exact Hx. }
    destruct (HS gi g l th x Hg Hth ltac:(congruence) Hret Hclean)
      as (up & cnt & _ & H1 & H2).
    eauto.
  - intros Hfin.
    rewrite (ai_nitems _ _ Hinv).
    apply (finished_counted P s0 Hfresh s Hst Hfin).
Qed.

End Invocation.
End RowRoom.

Lemma sample_one_group_room : row_room Sample.platform Sample.one_group.
Proof.
  constructor.
  - vm_compute. discriminate.
  - intros x y Hxy. simpl. unfold Sample.align.
    apply Z.mul_le_mono_nonneg_r; [lia |].
    apply Z.div_le_mono; lia.
  - vm_compute. discriminate.
Qed.

Lemma row_projection_succeeds_with_room_witness :
  let s := outcome Sample.platform (Sample.in_order 4 1) Sample.one_group in
  (forall gi g l th,
     groups s !! gi = Some g -> threads g !! l = Some th ->
     exists ids id,
       Sample.grid_of 4 1 !! gi = Some ids /\ ids !! l = Some id /\
       errcode th = snd (gpuscan_qual_tupitem Sample.src4 Sample.pass_all id) /\
       (returned th = true ->
        forall x,
          fst (gpuscan_qual_tupitem Sample.src4 Sample.pass_all id) = Some x ->
          exists o,
            In (StoreTuple (gi, l) o
                  (take (Z.to_nat (8 + t_len x)) (item_bytes x)))
               (stores s) /\
            In (StoreIndex (gi, l) (item_index th) o) (stores s))) /\
  (finished s = true -> kds.nitems (kds_dst s) = 4).
Proof.
  intros s.
  apply (row_projection_succeeds_with_room Sample.platform Sample.src4
           Sample.pass_all Sample.dst_row StromError_Success (fresh 4)
           (Sample.grid_of 4 1) (Sample.in_order 4 1) s).
  - exact sample_one_group_ready.
  - exact sample_one_group_room.
  - discriminate.
  - reflexivity.
Defined.

(** *** The index array *)

Section RowIndex.
Context (P : platform).



Section Step.
Variables (s0 : state).
Hypothesis Hready : arena_ready P s0.
Hypothesis Hfresh : fresh_entry s0.




End Step.

Section Invocation.
Variables (src : list kern_tupitem)
          (eval : Z -> kern_tupitem -> bool * StromError)
          (d : kds.t) (cell : StromError) (k : kern_resultbuf)
          (grid : list (list Z)).


End Invocation.
End RowIndex.


(** *** Alignment of the tuples *)

Section Alignment.
Context (P : platform).
Variable (m : Z).
Hypothesis Hm : maxalign_by P m.

Lemma u32_divide x : (m | x) -> (m | u32 x).
Proof.
  intros Hx. unfold u32. rewrite Z.mod_eq by lia.
  apply Z.divide_sub_r; [assumption |].
  apply Z.divide_mul_l, (ma_word _ _ Hm).
Qed.

Lemma stairlike_divides vals : forall acc,
  (m | acc) -> Forall (fun v => (m | v)) vals ->
  Forall (fun v => (m | v)) (stairlike_offsets acc vals) /\
  (m | stairlike_total acc vals).
Proof.
  induction vals as [| v vals IH]; intros acc Hacc Hvals; simpl.
  - split; [constructor | assumption].
  - inversion Hvals as [| ? ? Hv Hvals']; subst.
    destruct (IH (u32 (acc + v))) as [H1 H2];
      [apply u32_divide, Z.divide_add_r; assumption | assumption |].
    split; [constructor; assumption | assumption].
Qed.

Lemma required_of_divides o : (m | required_of P o).
Proof. unfold required_of. apply u32_divide, (ma_multiple _ _ Hm). Qed.

Lemma htup_offset_divides d up th :
  (m | kds.length d) -> (m | up) -> (m | offset th) -> (m | required th) ->
  0 <= htup_offset_at d up th /\ (m | htup_offset_at d up th).
Proof.
  intros Hl Hu Ho Hr. unfold htup_offset_at. split; [apply u32_range |].
  apply u32_divide, Z.divide_sub_r; [assumption |].
  apply u32_divide. repeat apply Z.divide_add_r; assumption.
Qed.

Lemma row_usage_aligned d g d' g' :
  (m | kds.usage d) -> row_usage P d g = (d', g') ->
  (m | kds.usage d') /\
  exists up cnt, gpc g' = GCommit up cnt /\ (m | up) /\
    forall l th', threads g' !! l = Some th' ->
                  (m | offset th') /\ (m | required th').
Proof.
  intros Hu. unfold row_usage, arithmetic_stairlike_add.
  destruct (stairlike_divides
              (map (fun th => required_of P (tupitem_src th)) (threads g)) 0)
    as [Hoffs Htot].
  { apply Z.divide_0_r. }
  { apply Forall_forall. intros v Hv. apply list_elem_of_In in Hv.
    apply in_map_iff in Hv as (th & <- & _). apply required_of_divides. }
  destruct (reserve _ _) as [up u'] eqn:Hres. intros [= <- <-].
  unfold reserve, atomicAdd in Hres.
  assert (Hup : (m | up) /\ (m | u')).
  { destruct (_ >? 0); injection Hres as <- <-.
    - split; [assumption |]. apply u32_divide, Z.divide_add_r; assumption.
    - split; [apply Z.divide_0_r | assumption]. }
  split; [apply Hup |]. simpl. eexists _, _. split; [reflexivity |].
  split; [apply Hup |].
  intros l th' Hl.
  apply lookup_zip_with_Some in Hl as (th & off & -> & Hth & Hoff).
  simpl. split; [| apply required_of_divides].
  rewrite Forall_forall in Hoffs. apply Hoffs.
  eapply list_elem_of_lookup_2. exact Hoff.
Qed.

Lemma usage_aligned_step s s' :
  (m | kds.length (kds_dst s)) ->
  usage_aligned m s -> transition P s s' -> usage_aligned m s'.
Proof.
  intros Hlen (Hu & Hg & Hs) Ht.
  assert (Hskip : forall gi g' d st c,
            (m | kds.usage d) ->
            (forall up cnt, gpc g' <> GCommit up cnt) ->
            (forall w o b, In (StoreTuple w o b) st -> 0 <= o /\ (m | o)) ->
            usage_aligned m
              (mk_state d st (<[gi := g']> (groups s)) c (kresults s))).
  { intros gi g' d st c Hd Hpc Hst. split; [exact Hd |]. split; [| exact Hst].
    simpl. intros gj g2 up cnt l th Hg2 Hpc2 Hth.
    apply list_lookup_insert_Some in Hg2 as [(_ & <- & _) | (_ & Hg2)].
    - now apply Hpc in Hpc2.
    - eapply Hg; eauto. }
  destruct Ht as [gi g d' g' Hgi _ Hpc E | gi g np c d' g' Hgi _ Hpc E
                 | gi g d' evs g' Hgi Hf Hpc E
                 | gi g l th up cnt evs th' Hgi Hpc Hth Hret E].
  - apply Hskip; [| | exact Hs].
    + destruct (row_count_frame P _ _ _ _ E) as (_ & _ & _ & _ & ->).
      exact Hu.
    + destruct (row_count_threads P _ _ _ _ E) as [[Hx | (? & ? & Hx)] _];
        intros; congruence.
  - destruct (row_usage_aligned _ _ _ _ Hu E)
      as (Hu' & up & cnt & Hpc' & Hup & Hths).
    split; [exact Hu' |]. split; [| exact Hs].
    simpl. intros gj g2 up2 cnt2 l th Hg2 Hpc2 Hth.
    apply list_lookup_insert_Some in Hg2 as [(_ & <- & _) | (_ & Hg2)].
    + rewrite Hpc' in Hpc2. injection Hpc2 as <- <-.
      destruct (Hths l th Hth). auto.
    + eapply Hg; eauto.
  - apply Hskip.
    + destruct (slot_project_frame P _ _ _ _ _ _ E) as (_ & _ & _ & _ & ->).
      exact Hu.
    + destruct (slot_project_threads P _ _ _ _ _ _ E) as [Hx _].
      intros; congruence.
    + intros w o b Hin. apply in_app_or in Hin as [Hin | Hin];
        [now apply (Hs w o b) |].
      destruct (slot_project_payload P _ _ _ _ _ _ E _ Hin)
        as (? & ? & ? & ? & _ & _ & ?). discriminate.
  - destruct (Hg gi g up cnt l th Hgi Hpc Hth) as (Hup & Hoff & Hreq).
    apply row_commit_thread in E as Hfacts.
    destruct Hfacts as (_ & _ & Hq & _ & Ho & _).
    split; [exact Hu |]. split; simpl.
    + intros gj g2 up2 cnt2 l2 th2 Hg2 Hpc2 Hth2.
      apply list_lookup_insert_Some in Hg2 as [(<- & <- & _) | (_ & Hg2)];
        [| eapply Hg; eauto].
      simpl in *.
      apply list_lookup_insert_Some in Hth2 as [(<- & <- & _) | (_ & Hth2)].
      * rewrite Hpc in Hpc2. injection Hpc2 as <- <-.
        rewrite Ho, Hq. auto.
      * eapply Hg; eauto.
    + intros w o b Hin. apply in_app_or in Hin as [Hin | Hin];
        [now apply (Hs w o b) |].
      destruct (row_commit_events P _ _ _ _ _ _ _ E)
        as [-> | (_ & x & bytes & _ & ->)]; [destruct Hin |].
      destruct Hin as [Hin | [Hin | []]]; [| discriminate].
      injection Hin as <- <- <-.
      now apply htup_offset_divides.
Qed.

Section Invocation.
Variables (src : list kern_tupitem)
          (eval : Z -> kern_tupitem -> bool * StromError)
          (d : kds.t) (cell : StromError) (k : kern_resultbuf)
          (grid : list (list Z)).

(** The assertion of line 235 holds whenever a thread gets there, and
    every tuple is written at a [MAXALIGN]ed offset: provided [MAXALIGN]
    rounds up to a multiple of a power of two and the length of the
    destination and its [usage] on entry are such multiples, in every
    invocation, for every thread of a group past the second scan,
    [htup_offset == MAXALIGN(htup_offset)]. *)
Theorem htup_offset_is_maxaligned sched s :
  (m | kds.length d) -> (m | kds.usage d) ->
  exec P sched (gpuscan_qual src eval d cell k grid) = Some s ->
  (forall gi g up cnt l th,
     groups s !! gi = Some g -> gpc g = GCommit up cnt ->
     threads g !! l = Some th ->
     MAXALIGN P (htup_offset_at (kds_dst s) up th)
     = htup_offset_at (kds_dst s) up th) /\
  (forall w o b, In (StoreTuple w o b) (stores s) -> MAXALIGN P o = o).
Proof.
  intros Hlen Hu Hs.
  set (s0 := gpuscan_qual src eval d cell k grid) in *.
  assert (Hinv : (structured P s0 s) /\ usage_aligned m s).
  { refine (exec_invariant P
              (fun s => structured P s0 s /\ usage_aligned m s)
              _ sched s0 s _ Hs).
    - intros s1 s2 [Hst HA] Ht. split.
      + eapply structured_step; eauto.
      + eapply usage_aligned_step; eauto.
        destruct Hst as [(_ & _ & -> & _) _]. exact Hlen.
    - split; [apply structured_entry, gpuscan_qual_at_entry |].
      split; [exact Hu |]. split.
      + intros gi g up cnt l th Hg Hpc.
        apply gpuscan_qual_groups in Hg as (ids & _ & ->). discriminate.
      + intros w o b []. }
  destruct Hinv as [[(_ & _ & Hl & _) _] (_ & Hg & Hst)].
  split.
  - intros gi g up cnt l th Hgi Hpc Hth.
    destruct (Hg gi g up cnt l th Hgi Hpc Hth) as (Hup & Hoff & Hreq).
    destruct (htup_offset_divides (kds_dst s) up th) as [H0 Hd];
      try assumption; [rewrite Hl; exact Hlen |].
    now apply (ma_fixed _ _ Hm).
  - intros w o b Hin. destruct (Hst w o b Hin) as [H0 Hd].
    now apply (ma_fixed _ _ Hm).
Qed.

End Invocation.
End Alignment.

Lemma sample_maxalign : maxalign_by Sample.platform 8.
Proof.
  constructor.
  - lia.
  - exists (2 ^ 29). reflexivity.
  - intros x. simpl. unfold Sample.align. apply Z.divide_factor_r.
  - intros x _ [q ->]. simpl. unfold Sample.align.
    replace (q * 8 + (8 - 1)) with (7 + q * 8) by lia.
    rewrite Z.div_add by lia. replace (7 / 8) with 0 by reflexivity. lia.
Qed.

Lemma htup_offset_is_maxaligned_witness :
  let s := outcome Sample.platform Sample.tight_schedule Sample.tight in
  (forall gi g up cnt l th,
     groups s !! gi = Some g -> gpc g = GCommit up cnt ->
     threads g !! l = Some th ->
     Sample.align 8 (htup_offset_at (kds_dst s) up th)
     = htup_offset_at (kds_dst s) up th) /\
  (forall w o b, In (StoreTuple w o b) (stores s) -> Sample.align 8 o = o).
Proof.
  intros s.
  apply (htup_offset_is_maxaligned Sample.platform 8 sample_maxalign
           (Sample.src4 ++ [Sample.item 24 5]) Sample.pass_all
           (kds.mk kds.KDS_FORMAT_ROW 0 208 8 0 0)
           StromError_Success (fresh 5) [[0; 1; 2; 3]; [4]]
           Sample.tight_schedule s).
  - exists 26. reflexivity.
  - exists 0. reflexivity.
  - reflexivity.
Defined.

